(** * The routing and live-location core of panaqet

    A shallow embedding of [graphml.py] (bounding boxes and the region
    index, region selection, the graph cache, the route planner), of
    [routing_service.py] (the route response cache, the [/route] endpoint and
    the live-location hub) and of the caller's side in [driver_routes.py]
    (its response cache and the route of a delivery), with the properties of
    the specification stated over it.

    Conventions of the embedding.
    - A Python [float] is an exact rational ([Q]); rounding, infinities and
      NaN are outside the model.  [time.time()] readings are arguments.
    - A Python [str] is a string of ASCII characters.
    - A Python [dict] whose iteration order matters is an association list in
      insertion order ([Py.dict_get], [Py.dict_set], [Py.dict_pop]); the
      tables that are only looked up by key are stdpp [gmap]s, Python [set]s
      are [gset]s.
    - A raised exception is the [Py.Raise] outcome; a [try ... except] is a
      match on it.
    - networkx, osmnx and the builtin [float] on strings are parameters of the
      sections that use them; so are the sends on a socket, the elements
      [ET.iterparse] yields for a file, the listing of the data directory and
      the reply of the routing service to its caller. *)

From Stdlib Require Import QArith Qround Qminmax Lqa Lia ZArith List String Ascii Bool.
From stdpp Require Import base option list sorting gmap strings.

Set Warnings "-register-all,-clear-no-such-hyp".
Set Default Proof Using "Type*".

Local Open Scope string_scope.
Local Open Scope list_scope.

(* ================================================================== *)
(** * Python values, exceptions and ordered dictionaries *)
(* ================================================================== *)

Module Py.

Inductive exn : Type :=
| TypeError
| KeyError
| ValueError
| IndexError.

Inductive outcome (A : Type) : Type :=
| Ok (a : A)
| Raise (e : exn).
Arguments Ok {A} a.
Arguments Raise {A} e.

Definition bind {A B} (m : outcome A) (f : A -> outcome B) : outcome B :=
  match m with
  | Ok a => f a
  | Raise e => Raise e
  end.

Notation "x <- m ;; k" := (bind m (fun x => k))
  (at level 100, m at next level, right associativity).

(** Comparisons of floats, as booleans. *)
Definition Qltb (a b : Q) : bool := negb (Qle_bool b a).

Lemma Qltb_lt a b : Qltb a b = true <-> (a < b)%Q.
Proof.
  unfold Qltb. rewrite negb_true_iff.
  destruct (Qle_bool b a) eqn:E.
  - apply Qle_bool_iff in E. split; [discriminate | intros; lra].
  - split; [intros _ | reflexivity].
    destruct (Qlt_le_dec a b) as [|Hle]; [assumption|].
    apply Qle_bool_iff in Hle. congruence.
Qed.

Lemma Qltb_ge a b : Qltb a b = false <-> (b <= a)%Q.
Proof.
  unfold Qltb. rewrite negb_false_iff. apply Qle_bool_iff.
Qed.

(** The values that appear as edge attributes and as JSON messages. *)
Inductive pyval : Type :=
| VNone
| VBool (b : bool)
| VNum (q : Q)
| VStr (s : string)
| VList (l : list pyval)
| VDict (d : list (string * pyval)).

Definition is_none (v : pyval) : bool :=
  match v with VNone => true | _ => false end.

(** Truth value of an object ([if v:], [v or w], [not v]). *)
Definition truthy (v : pyval) : bool :=
  match v with
  | VNone => false
  | VBool b => b
  | VNum q => negb (Qeq_bool q 0)
  | VStr s => negb (String.eqb s "")
  | VList l => match l with [] => false | _ => true end
  | VDict d => match d with [] => false | _ => true end
  end.

(** ** Ordered dictionaries *)
Section Dict.
Context {K V : Type} `{EqDecision K}.

Fixpoint dict_get (k : K) (d : list (K * V)) : option V :=
  match d with
  | [] => None
  | (k', v) :: r => if decide (k = k') then Some v else dict_get k r
  end.

Definition dict_mem (k : K) (d : list (K * V)) : bool :=
  match dict_get k d with Some _ => true | None => false end.

(** [d[k] = v]: an existing key keeps its position. *)
Fixpoint dict_set (k : K) (v : V) (d : list (K * V)) : list (K * V) :=
  match d with
  | [] => [(k, v)]
  | (k', v') :: r =>
      if decide (k = k') then (k, v) :: r else (k', v') :: dict_set k v r
  end.

(** [d.pop(k, None)] and [del d[k]] on a present key. *)
Fixpoint dict_pop (k : K) (d : list (K * V)) : list (K * V) :=
  match d with
  | [] => []
  | (k', v') :: r =>
      if decide (k = k') then dict_pop k r else (k', v') :: dict_pop k r
  end.

Definition keys (d : list (K * V)) : list K := map fst d.

Lemma dict_get_set_eq k v d : dict_get k (dict_set k v d) = Some v.
Proof.
  induction d as [|[k' v'] r IH]; simpl.
  - destruct (decide (k = k)); congruence.
  - destruct (decide (k = k')) as [->|Hne]; simpl.
    + destruct (decide (k' = k')); congruence.
    + destruct (decide (k = k')); [contradiction | exact IH].
Qed.

Lemma dict_get_set_ne k k' v d :
  k <> k' -> dict_get k' (dict_set k v d) = dict_get k' d.
Proof.
  intros Hne. induction d as [|[k0 v0] r IH]; simpl.
  - destruct (decide (k' = k)); congruence.
  - destruct (decide (k = k0)) as [->|Hk]; simpl.
    + destruct (decide (k' = k0)); congruence.
    + destruct (decide (k' = k0)); [reflexivity | exact IH].
Qed.

Lemma dict_get_pop_eq k d : dict_get k (dict_pop k d) = None.
Proof.
  induction d as [|[k' v'] r IH]; simpl; [reflexivity|].
  destruct (decide (k = k')) as [->|Hne]; simpl; [exact IH|].
  destruct (decide (k = k')); [contradiction | exact IH].
Qed.

Lemma dict_get_pop_ne k k' d :
  k <> k' -> dict_get k' (dict_pop k d) = dict_get k' d.
Proof.
  intros Hne. induction d as [|[k0 v0] r IH]; simpl; [reflexivity|].
  destruct (decide (k = k0)) as [->|Hk]; simpl.
  - destruct (decide (k' = k0)); [congruence | exact IH].
  - destruct (decide (k' = k0)); [reflexivity | exact IH].
Qed.

Lemma dict_pop_absent k d : dict_get k d = None -> dict_pop k d = d.
Proof.
  induction d as [|[k' v'] r IH]; simpl; [reflexivity|].
  destruct (decide (k = k')); [discriminate|].
  intros H. now rewrite IH.
Qed.

Lemma dict_get_Some_In k v d : dict_get k d = Some v -> In (k, v) d.
Proof.
  induction d as [|[k' v'] r IH]; simpl; [discriminate|].
  destruct (decide (k = k')) as [->|]; intros H.
  - left. congruence.
  - right. auto.
Qed.

Lemma dict_get_None_keys k d : dict_get k d = None <-> ~ In k (keys d).
Proof.
  induction d as [|[k' v'] r IH]; simpl.
  - tauto.
  - destruct (decide (k = k')) as [->|Hne].
    + split; [discriminate | tauto].
    + rewrite IH. split; [intros H [E|E]; congruence | tauto].
Qed.

Lemma keys_dict_set_present k v d :
  In k (keys d) -> keys (dict_set k v d) = keys d.
Proof.
  induction d as [|[k' v'] r IH]; simpl; [tauto|].
  destruct (decide (k = k')) as [->|Hne]; simpl; [reflexivity|].
  intros [E|E]; [congruence|]. now rewrite IH.
Qed.

Lemma keys_dict_set_absent k v d :
  ~ In k (keys d) -> keys (dict_set k v d) = keys d ++ [k].
Proof.
  induction d as [|[k' v'] r IH]; simpl; [reflexivity|].
  destruct (decide (k = k')) as [->|Hne]; simpl; [tauto|].
  intros H. rewrite IH; tauto.
Qed.

Lemma In_keys_dict_pop k k' d :
  In k' (keys (dict_pop k d)) <-> In k' (keys d) /\ k' <> k.
Proof.
  induction d as [|[k0 v0] r IH]; simpl; [tauto|].
  destruct (decide (k = k0)) as [->|Hne]; simpl.
  - rewrite IH. split; [tauto|]. intros [[E|E] N]; [congruence | tauto].
  - rewrite IH. split.
    + intros [E|[E N]]; [subst; split; [tauto | congruence] | tauto].
    + tauto.
Qed.

(** The keys of a dictionary are pairwise distinct; the three operations
    keep them so. *)
Definition wf (d : list (K * V)) : Prop := List.NoDup (keys d).

Lemma wf_nil : wf [].
Proof. constructor. Qed.

Lemma wf_dict_set k v d : wf d -> wf (dict_set k v d).
Proof.
  unfold wf. intros H.
  destruct (in_dec (fun a b => decide (a = b)) k (keys d)) as [Hin|Hin].
  - now rewrite keys_dict_set_present.
  - rewrite keys_dict_set_absent by assumption.
    apply NoDup_ListNoDup, NoDup_app. repeat split.
    + now apply NoDup_ListNoDup.
    + intros x Hx Hx'. apply list_elem_of_In in Hx.
      apply list_elem_of_In in Hx'. simpl in Hx'.
      destruct Hx' as [<-|[]]. contradiction.
    + apply NoDup_ListNoDup. repeat constructor. simpl. tauto.
Qed.

Lemma wf_dict_pop k d : wf d -> wf (dict_pop k d).
Proof.
  unfold wf. induction d as [|[k' v'] r IH]; simpl; [trivial|].
  intros H. inversion H as [|? ? Hn Hr]; subst.
  destruct (decide (k = k')); [auto|]. simpl. constructor; [|auto].
  intros Hin. apply In_keys_dict_pop in Hin. tauto.
Qed.

Lemma length_dict_pop_present k d :
  wf d -> In k (keys d) -> S (length (dict_pop k d)) = length d.
Proof.
  unfold wf. induction d as [|[k' v'] r IH]; simpl; [tauto|].
  intros H Hin. inversion H as [|? ? Hn Hr]; subst.
  destruct (decide (k = k')) as [->|Hne]; simpl.
  - rewrite dict_pop_absent; [reflexivity|].
    now apply dict_get_None_keys.
  - f_equal. apply IH; [assumption|]. destruct Hin; congruence.
Qed.

Lemma length_dict_set_absent k v d :
  dict_get k d = None -> length (dict_set k v d) = S (length d).
Proof.
  intros H. apply dict_get_None_keys in H.
  rewrite <- (length_map fst (dict_set k v d)).
  fold (keys (dict_set k v d)). rewrite keys_dict_set_absent by assumption.
  rewrite length_app. unfold keys. rewrite length_map. simpl. lia.
Qed.

Lemma length_dict_set_present k v d :
  dict_mem k d = true -> length (dict_set k v d) = length d.
Proof.
  unfold dict_mem. intros H.
  assert (Hin : In k (keys d)).
  { destruct (dict_get k d) eqn:E; [|discriminate].
    apply dict_get_Some_In in E. unfold keys.
    apply in_map_iff. exists (k, v0). auto. }
  rewrite <- (length_map fst (dict_set k v d)).
  fold (keys (dict_set k v d)). rewrite keys_dict_set_present by assumption.
  unfold keys. now rewrite length_map.
Qed.

Lemma dict_get_pops (ks : list K) k d :
  dict_get k (foldl (fun c k' => dict_pop k' c) d ks) =
  if decide (k ∈ ks) then None else dict_get k d.
Proof.
  revert d. induction ks as [|k0 r IH]; intros d; simpl.
  - destruct (decide (k ∈ [])) as [H|]; [inversion H | reflexivity].
  - rewrite IH. destruct (decide (k ∈ r)) as [Hr|Hr].
    + rewrite decide_True; [reflexivity | now right].
    + destruct (decide (k = k0)) as [->|Hne].
      * rewrite decide_True by left. apply dict_get_pop_eq.
      * rewrite decide_False; [now apply dict_get_pop_ne|].
        intros H. apply elem_of_cons in H. tauto.
Qed.

Lemma wf_pops (ks : list K) d :
  wf d -> wf (foldl (fun c k' => dict_pop k' c) d ks).
Proof.
  revert d. induction ks as [|k0 r IH]; intros d H; simpl; [exact H|].
  apply IH. now apply wf_dict_pop.
Qed.

End Dict.

(** A stable sort by a float key: what [sorted(items, key=...)] does. *)
Section SortedBy.
Context {A : Type} (key : A -> Q).

Fixpoint insert_by (x : A) (l : list A) : list A :=
  match l with
  | [] => [x]
  | y :: r => if Qle_bool (key x) (key y) then x :: l else y :: insert_by x r
  end.

Definition sorted_by (l : list A) : list A := foldr insert_by [] l.

Lemma insert_by_In x y l : In y (insert_by x l) <-> y = x \/ In y l.
Proof.
  induction l as [|z r IH]; simpl; [intuition|].
  destruct (Qle_bool (key x) (key z)); simpl; [intuition|].
  rewrite IH. intuition.
Qed.

Lemma sorted_by_In y l : In y (sorted_by l) <-> In y l.
Proof.
  induction l as [|z r IH]; simpl; [tauto|].
  rewrite insert_by_In, IH. intuition.
Qed.

Lemma length_insert_by x l : length (insert_by x l) = S (length l).
Proof.
  induction l as [|z r IH]; simpl; [reflexivity|].
  destruct (Qle_bool (key x) (key z)); simpl; congruence.
Qed.

Lemma length_sorted_by l : length (sorted_by l) = length l.
Proof.
  induction l as [|z r IH]; simpl; [reflexivity|].
  now rewrite length_insert_by, IH.
Qed.

Definition key_le (a b : A) : Prop := (key a <= key b)%Q.

Lemma insert_by_sorted x l :
  StronglySorted key_le l -> StronglySorted key_le (insert_by x l).
Proof.
  induction l as [|z r IH]; simpl; intros H.
  - repeat constructor.
  - inversion H as [|? ? Hr Hall]; subst.
    destruct (Qle_bool (key x) (key z)) eqn:E.
    + apply Qle_bool_iff in E. constructor; [assumption|].
      constructor; [exact E|].
      eapply Forall_impl; [exact Hall|].
      intros a Ha. unfold key_le in *. simpl in Ha. lra.
    + constructor; [auto|].
      apply Forall_forall. intros a Ha.
      apply list_elem_of_In, insert_by_In in Ha. destruct Ha as [->|Ha].
      * unfold key_le. destruct (Qlt_le_dec (key x) (key z)) as [Hlt|Hle].
        -- assert (Qle_bool (key x) (key z) = true)
             by (apply Qle_bool_iff; lra). congruence.
        -- exact Hle.
      * rewrite Forall_forall in Hall. apply Hall. now apply list_elem_of_In.
Qed.

Lemma sorted_by_sorted l : StronglySorted key_le (sorted_by l).
Proof.
  induction l as [|z r IH]; simpl; [constructor|].
  now apply insert_by_sorted.
Qed.

Lemma insert_by_Permutation x l : insert_by x l ≡ₚ x :: l.
Proof.
  induction l as [|z r IH]; simpl; [reflexivity|].
  destruct (Qle_bool (key x) (key z)); [reflexivity|].
  rewrite IH. apply Permutation_swap.
Qed.

Lemma sorted_by_Permutation l : sorted_by l ≡ₚ l.
Proof.
  induction l as [|z r IH]; simpl; [reflexivity|].
  now rewrite insert_by_Permutation, IH.
Qed.

End SortedBy.

(** ** Builtin conversions and operators on values *)
Section Builtins.
(** [float(s)] for a string [s]: [None] when it raises [ValueError]. *)
Variable str_to_float : string -> option Q.

(** [float(v)]. *)
Definition py_float (v : pyval) : outcome Q :=
  match v with
  | VNum q => Ok q
  | VBool b => Ok (if b then 1 else 0)%Q
  | VStr s => match str_to_float s with
              | Some q => Ok q
              | None => Raise ValueError
              end
  | VNone | VList _ | VDict _ => Raise TypeError
  end.

(** [float(v)] under [try ... except Exception], [None] on failure. *)
Definition try_float (v : pyval) : option Q :=
  match py_float v with
  | Ok q => Some q
  | Raise _ => None
  end.
End Builtins.

(** [d.get(k, default)] on a data dict. *)
Definition get_or (d : list (string * pyval)) (k : string) (default : pyval) : pyval :=
  match dict_get k d with
  | Some v => v
  | None => default
  end.

(** ** Strings *)
Definition is_digit (c : ascii) : bool :=
  (48 <=? nat_of_ascii c)%nat && (nat_of_ascii c <=? 57)%nat.

Definition is_space (c : ascii) : bool :=
  let n := nat_of_ascii c in
  (n =? 32)%nat || ((9 <=? n)%nat && (n <=? 13)%nat) || ((28 <=? n)%nat && (n <=? 31)%nat).

Definition lower_char (c : ascii) : ascii :=
  let n := nat_of_ascii c in
  if (65 <=? n)%nat && (n <=? 90)%nat then ascii_of_nat (n + 32) else c.

(** [s.lower()] on ASCII text. *)
Definition lower (s : list ascii) : list ascii := map lower_char s.

Fixpoint lstrip (s : list ascii) : list ascii :=
  match s with
  | [] => []
  | c :: r => if is_space c then lstrip r else s
  end.

(** [s.strip()]. *)
Definition strip (s : list ascii) : list ascii :=
  rev (lstrip (rev (lstrip s))).

Fixpoint starts_with (p s : list ascii) : bool :=
  match p, s with
  | [], _ => true
  | _ :: _, [] => false
  | a :: p', b :: s' => if decide (a = b) then starts_with p' s' else false
  end.

(** [p in s] for strings. *)
Fixpoint contains (p s : list ascii) : bool :=
  starts_with p s ||
  match s with
  | [] => false
  | _ :: r => contains p r
  end.

Fixpoint span_digits (s : list ascii) : list ascii * list ascii :=
  match s with
  | [] => ([], [])
  | c :: r => if is_digit c then
                let '(ds, rest) := span_digits r in (c :: ds, rest)
              else ([], s)
  end.

(** [re.search(r'(\d+(?:\.\d+)?)', s)]: the integer digits and the fraction
    digits of the leftmost match (no fraction digits when the optional group
    does not match). *)
Fixpoint search_number (s : list ascii) : option (list ascii * list ascii) :=
  match s with
  | [] => None
  | c :: r =>
      if is_digit c then
        let '(ds, rest) := span_digits s in
        match rest with
        | "."%char :: rest' =>
            let '(fs, _) := span_digits rest' in Some (ds, fs)
        | _ => Some (ds, [])
        end
      else search_number r
  end.

Definition digit_value (c : ascii) : Z := Z.of_nat (nat_of_ascii c) - 48.

Definition digits_value (ds : list ascii) : Z :=
  foldl (fun acc c => 10 * acc + digit_value c)%Z 0%Z ds.

(** [float(m.group(1))] for the matched text [ds] or [ds.fs]. *)
Definition number_value (ds fs : list ascii) : Q :=
  (inject_Z (digits_value ds) +
   inject_Z (digits_value fs) / inject_Z (10 ^ Z.of_nat (length fs)))%Q.

End Py.

(* ================================================================== *)
(** * graphml.py *)
(* ================================================================== *)

Module GraphML.
Import Py.
Local Open Scope Q_scope.

(** ** Region index and region selection *)

(** [(minx, miny, maxx, maxy)], in degrees of longitude and latitude. *)
Definition bbox : Type := (Q * Q * Q * Q)%type.

(** One value of the region index: [meta["path"]] and [meta.get("bbox")]
    ([None] when the key is absent or the value is empty). *)
Record region_meta : Type := {
  path : string;
  bbox_of : option bbox
}.

(** The index, in the iteration order of [index.items()]. *)
Definition region_index : Type := list (string * region_meta).

Definition _point_in_bbox (lon lat : Q) (b : bbox) : bool :=
  let '(minx, miny, maxx, maxy) := b in
  Qle_bool minx lon && Qle_bool lon maxx && Qle_bool miny lat && Qle_bool lat maxy.

(** A query point: a dict [{'lat': .., 'lng': ..}] or a tuple [(lat, lon)]. *)
Inductive point : Type :=
| PDict (lat lng : Q)
| PTuple (lat lon : Q).

Definition normalize (p : point) : Q * Q :=
  match p with
  | PDict lat lng => (lng, lat)
  | PTuple lat lon => (lon, lat)
  end.

(** The order of [sorted] on strings. *)
Definition str_le (s t : string) : Prop := String.leb s t = true.

#[export] Instance str_le_dec s t : Decision (str_le s t).
Proof. unfold str_le. apply _. Defined.

#[export] Instance str_le_total : Total str_le.
Proof. intros s t. apply String.leb_total. Qed.

Definition sorted_strings (l : list string) : list string :=
  merge_sort str_le l.

(** The inner loop over [index.items()] for one point. *)
Definition match_point (index : region_index) (matched : gset string)
    (pt : Q * Q) : gset string :=
  let '(lon, lat) := pt in
  foldl (fun (m : gset string) (e : string * region_meta) =>
           match bbox_of (snd e) with
           | Some b => if _point_in_bbox lon lat b then m ∪ {[ path (snd e) ]} else m
           | None => m
           end) matched index.

Definition centers (index : region_index) : list (string * Q * Q) :=
  omap (fun e : string * region_meta =>
          match bbox_of (snd e) with
          | None => None
          | Some (minx, miny, maxx, maxy) =>
              Some (path (snd e), (minx + maxx) / 2, (miny + maxy) / 2)
          end) index.

Definition sqdist (lon lat cx cy : Q) : Q := (lon - cx) ^ 2 + (lat - cy) ^ 2.

(** One round of the search for the nearest centre: [bestd] starts at
    [float("inf")], here [None]. *)
Definition nearest_step (lon lat : Q) (acc : option string * option Q)
    (c : string * Q * Q) : option string * option Q :=
  let '(p, cx, cy) := c in
  let d := sqdist lon lat cx cy in
  let closer := match snd acc with
                | None => true
                | Some bestd => Qltb d bestd
                end in
  if closer then (Some p, Some d) else acc.

Definition nearest (cs : list (string * Q * Q)) (pt : Q * Q) : option string :=
  fst (foldl (nearest_step (fst pt) (snd pt)) (None, None) cs).

Definition choose_point (cs : list (string * Q * Q)) (chosen : gset string)
    (pt : Q * Q) : gset string :=
  match nearest cs pt with
  | Some best => if String.eqb best "" then chosen else chosen ∪ {[ best ]}
  | None => chosen
  end.

Definition find_regions_for_points (points : list point)
    (index : region_index) : list string :=
  let pts := map normalize points in
  let matched := foldl (match_point index) ∅ pts in
  if decide (matched = ∅) then
    let chosen := foldl (choose_point (centers index)) ∅ pts in
    sorted_strings (elements chosen)
  else sorted_strings (elements matched).

(** The point lies in the box, bounds included. *)
Definition in_bbox (pt : Q * Q) (b : bbox) : Prop :=
  let '(minx, miny, maxx, maxy) := b in
  minx <= fst pt <= maxx /\ miny <= snd pt <= maxy.




Lemma _point_in_bbox_spec lon lat b :
  _point_in_bbox lon lat b = true <-> in_bbox (lon, lat) b.
Proof.
  destruct b as [[[minx miny] maxx] maxy]. unfold _point_in_bbox, in_bbox.
  rewrite !andb_true_iff, !Qle_bool_iff. simpl. tauto.
Qed.







Lemma elem_of_sorted_strings f l : f ∈ sorted_strings l <-> f ∈ l.
Proof.
  unfold sorted_strings. now rewrite merge_sort_Permutation.
Qed.

Lemma sorted_strings_Sorted l : Sorted str_le (sorted_strings l).
Proof. apply Sorted_merge_sort. apply _. Qed.




(** ** Graphs *)

Definition node : Type := Z.

(** The data dict of a node or of an edge. *)
Definition attrs : Type := list (string * pyval).

(** A [networkx.MultiDiGraph]: the nodes with their data, and the edges
    [(u, v, key, data)] in the order of [G.edges(keys=True, data=True)]. *)
Record MultiDiGraph : Type := {
  mg_nodes : list (node * attrs);
  mg_edges : list (node * node * Z * attrs)
}.

(** The data of an edge of the simplified graph. *)
Record simple_edge : Type := {
  weight : Q;
  orig_edge_sample : attrs
}.

(** A [networkx.DiGraph] as built by [_multigraph_to_simple_digraph_min]:
    [dg_adj] is the adjacency, keyed by the ordered pair [(u, v)]. *)
Record DiGraph : Type := {
  dg_nodes : list (node * attrs);
  dg_adj : list ((node * node) * simple_edge)
}.

Section Simplify.
Variable str_to_float : string -> option Q.

(** Lines 447-453: the weight an edge enters the minimum with. *)
Definition edge_wnum (weight_key : string) (data : attrs) : Q :=
  let w := get_or data weight_key VNone in
  let wnum := if is_none w then None else try_float str_to_float w in
  match wnum with
  | None => 1
  | Some q => q
  end.

(** Lines 446-459: the body of the loop over the edges. *)
Definition simple_step (weight_key : string)
    (adj : list ((node * node) * simple_edge))
    (e : node * node * Z * attrs) : list ((node * node) * simple_edge) :=
  let '(u, v, _, data) := e in
  let wnum := edge_wnum weight_key data in
  match dict_get (u, v) adj with
  | Some cur =>
      if Qltb wnum (weight cur)
      then dict_set (u, v) {| weight := wnum; orig_edge_sample := data |} adj
      else adj
  | None => dict_set (u, v) {| weight := wnum; orig_edge_sample := data |} adj
  end.

Definition _multigraph_to_simple_digraph_min (G_multi : MultiDiGraph)
    (weight_key : string) : DiGraph :=
  {| dg_nodes := mg_nodes G_multi;
     dg_adj := foldl (simple_step weight_key) [] (mg_edges G_multi) |}.

(** The effective weights of the edges from [u] to [v], in edge order. *)
Definition parallel_weights (weight_key : string)
    (es : list (node * node * Z * attrs)) (u v : node) : list Q :=
  omap (fun e : node * node * Z * attrs =>
          let '(u', v', _, data) := e in
          if decide ((u', v') = (u, v)) then Some (edge_wnum weight_key data)
          else None) es.

(** The usable lengths of the edges from [u] to [v]: present, not [None]
    and accepted by [float]. *)
Definition usable_lengths (weight_key : string)
    (es : list (node * node * Z * attrs)) (u v : node) : list Q :=
  omap (fun e : node * node * Z * attrs =>
          let '(u', v', _, data) := e in
          if decide ((u', v') = (u, v)) then
            let w := get_or data weight_key VNone in
            if is_none w then None else try_float str_to_float w
          else None) es.

Fixpoint Qmin_list (d : Q) (l : list Q) : Q :=
  match l with
  | [] => d
  | x :: r => match r with
              | [] => x
              | _ => Qmin x (Qmin_list d r)
              end
  end.

(** The weight the specification words give the edge from [u] to [v]: the
    minimum usable length, and 1.0 only when there is none. *)
Definition spec_min_usable_weight (weight_key : string) (G : MultiDiGraph)
    (u v : node) : Q :=
  Qmin_list 1 (usable_lengths weight_key (mg_edges G) u v).

Definition edge_weight (Gs : DiGraph) (u v : node) : option Q :=
  weight <$> dict_get (u, v) (dg_adj Gs).

Lemma simple_step_wf weight_key adj e : wf adj -> wf (simple_step weight_key adj e).
Proof.
  destruct e as [[[u v] k] data]. unfold simple_step. intros H.
  destruct (dict_get (u, v) adj) as [cur|]; [|now apply wf_dict_set].
  destruct (Qltb _ _); [now apply wf_dict_set | exact H].
Qed.

Lemma simplify_wf weight_key es adj :
  wf adj -> wf (foldl (simple_step weight_key) adj es).
Proof.
  revert adj. induction es as [|e r IH]; intros adj H; simpl; [exact H|].
  apply IH. now apply simple_step_wf.
Qed.

(** The invariant of the loop, after the edges [es]. *)
Definition min_inv (weight_key : string) (es : list (node * node * Z * attrs))
    (adj : list ((node * node) * simple_edge)) : Prop :=
  forall u v,
    match dict_get (u, v) adj with
    | None => parallel_weights weight_key es u v = []
    | Some e =>
        weight e ∈ parallel_weights weight_key es u v /\
        Forall (fun w => weight e <= w) (parallel_weights weight_key es u v)
    end.

Lemma parallel_weights_snoc weight_key es u0 v0 k data u v :
  parallel_weights weight_key (es ++ [(u0, v0, k, data)]) u v =
  parallel_weights weight_key es u v ++
  (if decide ((u0, v0) = (u, v)) then [edge_wnum weight_key data] else []).
Proof.
  unfold parallel_weights. rewrite omap_app. f_equal. simpl.
  destruct (decide ((u0, v0) = (u, v))); reflexivity.
Qed.

Lemma simple_step_inv weight_key es adj e :
  min_inv weight_key es adj ->
  min_inv weight_key (es ++ [e]) (simple_step weight_key adj e).
Proof.
  destruct e as [[[u0 v0] k] data]. intros Hinv u v.
  rewrite parallel_weights_snoc. specialize (Hinv u v) as Huv.
  unfold simple_step. set (wn := edge_wnum weight_key data).
  destruct (decide ((u0, v0) = (u, v))) as [E|Hne].
  - rewrite E. destruct (dict_get (u, v) adj) as [cur|] eqn:Eg.
    + destruct Huv as [Hin Hall]. destruct (Qltb wn (weight cur)) eqn:Elt.
      * rewrite dict_get_set_eq. simpl. apply Qltb_lt in Elt. split.
        -- apply elem_of_app. right. left.
        -- apply Forall_app. split; [|repeat constructor; lra].
           eapply Forall_impl; [exact Hall|]. simpl. intros w Hw. lra.
      * rewrite Eg. apply Qltb_ge in Elt. split.
        -- apply elem_of_app. now left.
        -- apply Forall_app. split; [exact Hall|]. repeat constructor. exact Elt.
    + rewrite dict_get_set_eq. simpl. rewrite Huv. simpl. split.
      * left.
      * repeat constructor. lra.
  - rewrite app_nil_r.
    assert (Hsame : dict_get (u, v)
              (dict_set (u0, v0) {| weight := wn; orig_edge_sample := data |} adj)
            = dict_get (u, v) adj) by now apply dict_get_set_ne.
    destruct (dict_get (u0, v0) adj) as [cur|].
    + destruct (Qltb wn (weight cur)); [rewrite Hsame|]; exact Huv.
    + rewrite Hsame. exact Huv.
Qed.

Lemma simplify_inv weight_key es :
  min_inv weight_key es (foldl (simple_step weight_key) [] es).
Proof.
  induction es as [|e r IH] using rev_ind.
  - intros u v. reflexivity.
  - rewrite foldl_app. simpl. now apply simple_step_inv.
Qed.

End Simplify.

(** ** The in-memory cache of composed graphs *)

(** [(G_unproj, G_proj, G_simple)]; each component may be [None]. *)
Definition graphs : Type :=
  (option MultiDiGraph * option MultiDiGraph * option DiGraph)%type.

(** [_loaded_cache]: key -> (timestamp, graphs), in insertion order. *)
Definition loaded_cache : Type := list (string * (Q * graphs)).

Definition MAX_LOADED_COMPOSED : nat := 2.

Fixpoint replace_char (a b : ascii) (s : string) : string :=
  match s with
  | EmptyString => EmptyString
  | String c r => String (if decide (c = a) then b else c) (replace_char a b r)
  end.

(** [os.sep] is ["/"]. *)
Definition _cache_key_for_paths (paths : list string) : string :=
  let base := String.concat "|" (sorted_strings paths) in
  replace_char " " "_" (replace_char ":" "_" (replace_char "/" "_" base)).

(** What one call sees of the file system. *)
Record fs_view : Type := {
  (** the value of [build_region_index()] *)
  fs_index : region_index;
  (** the two pickle files of a key, when both exist and are read back *)
  fs_persisted : string -> option (option DiGraph * MultiDiGraph);
  (** [ox.load_graphml(p)], [None] when it raises *)
  fs_graphml : string -> option MultiDiGraph
}.

Section GraphCache.
Variable str_to_float : string -> option Q.
(** [ox.project_graph], [None] when it raises. *)
Variable project_graph : MultiDiGraph -> option MultiDiGraph.
(** [nx.compose_all]. *)
Variable compose_all : list MultiDiGraph -> MultiDiGraph.
(** The configured capacity, [MAX_LOADED_COMPOSED] in the program. *)
Variable max_loaded : nat.

Definition timestamp (kv : string * (Q * graphs)) : Q := fst (snd kv).

(** Lines 299-305: the [while] loop.  The result is the cache it leaves, with
    the evicted keys in order, or the [IndexError] of [items.pop(0)]. *)
Fixpoint evict_loop (items : list (string * (Q * graphs)))
    (cache : loaded_cache) (evicted : list string)
    : outcome (list string) * loaded_cache :=
  if (max_loaded <? length cache)%nat then
    match items with
    | [] => (Raise IndexError, cache)
    | (k, _) :: rest => evict_loop rest (dict_pop k cache) (evicted ++ [k])
    end
  else (Ok evicted, cache).

Definition _evict_if_needed (cache : loaded_cache)
    : outcome (list string) * loaded_cache :=
  if (length cache <=? max_loaded)%nat then (Ok [], cache)
  else evict_loop (sorted_by timestamp cache) cache [].

(** Lines 246-291: load the region files and compose them. *)
Definition compose_and_cache (fs : fs_view) (now : Q) (paths : list string)
    (key : string) (cache : loaded_cache) : outcome graphs * loaded_cache :=
  let loaded := omap (fs_graphml fs) paths in
  match loaded with
  | [] => (Ok (None, None, None), cache)
  | g0 :: rest =>
      let G_unproj := match rest with
                      | [] => g0
                      | _ => compose_all loaded
                      end in
      let G_proj := project_graph G_unproj in
      let G_simple :=
        match G_proj with
        | Some Gp => Some (_multigraph_to_simple_digraph_min str_to_float Gp "length")
        | None => None
        end in
      let g := (Some G_unproj, G_proj, G_simple) in
      match _evict_if_needed (dict_set key (now, g) cache) with
      | (Ok _, cache') => (Ok g, cache')
      | (Raise e, cache') => (Raise e, cache')
      end
  end.

(** [persist] only decides whether the pickle files are written; writes to
    the file system are not part of the state of the model. *)
Definition load_composed_subgraph_for_paths (fs : fs_view) (now : Q)
    (paths : list string) (persist : bool) (cache : loaded_cache)
    : outcome graphs * loaded_cache :=
  let paths := sorted_strings paths in
  let key := _cache_key_for_paths paths in
  match dict_get key cache with
  | Some (_, g) => (Ok g, dict_set key (now, g) cache)
  | None =>
      match fs_persisted fs key with
      | Some (G_simple, G_unproj) =>
          match project_graph G_unproj with
          | Some G_proj =>
              let g := (Some G_unproj, Some G_proj, G_simple) in
              match _evict_if_needed (dict_set key (now, g) cache) with
              | (Ok _, cache') => (Ok g, cache')
              | (Raise _, cache') => compose_and_cache fs now paths key cache'
              end
          | None => compose_and_cache fs now paths key cache
          end
      | None => compose_and_cache fs now paths key cache
      end
  end.

(** One call, as the cache sees it. *)
Record load_call : Type := {
  lc_fs : fs_view;
  lc_now : Q;
  lc_paths : list string;
  lc_persist : bool
}.

Definition run_loads (calls : list load_call) (cache : loaded_cache) : loaded_cache :=
  foldl (fun c call =>
           snd (load_composed_subgraph_for_paths
                  (lc_fs call) (lc_now call) (lc_paths call) (lc_persist call) c))
        cache calls.

(** *** The eviction loop *)

Lemma evict_loop_spec items cache evicted :
  wf cache ->
  NoDup (keys items) ->
  (forall k, k ∈ keys cache <-> k ∈ keys items) ->
  let n := (length cache - max_loaded)%nat in
  evict_loop items cache evicted =
    (Ok (evicted ++ keys (take n items)),
     foldl (fun c k => dict_pop k c) cache (keys (take n items))) /\
  (length (foldl (fun c k => dict_pop k c) cache (keys (take n items)))
   = Nat.min (length cache) max_loaded)%nat.
Proof.
  revert cache evicted.
  induction items as [|[k x] rest IH]; intros cache evicted Hwf Hnd Hsub n.
  - assert (cache = []) as ->.
    { destruct cache as [|[k v] r]; [reflexivity|].
      exfalso. eapply not_elem_of_nil. apply (Hsub k). left. }
    subst n. simpl.
    destruct (max_loaded <? 0)%nat eqn:E; [apply Nat.ltb_lt in E; lia|].
    rewrite app_nil_r. split; [reflexivity | lia].
  - simpl. destruct (max_loaded <? length cache)%nat eqn:E.
    + apply Nat.ltb_lt in E.
      assert (Hk : In k (keys cache)).
      { apply list_elem_of_In, Hsub. left. }
      pose proof (length_dict_pop_present k cache Hwf Hk) as Hlen.
      simpl in Hnd. apply NoDup_cons in Hnd. destruct Hnd as [Hnk Hnd].
      assert (Hsub' : forall k', k' ∈ keys (dict_pop k cache) <-> k' ∈ keys rest).
      { intros k'. rewrite list_elem_of_In, In_keys_dict_pop, <- list_elem_of_In.
        rewrite Hsub. simpl. rewrite elem_of_cons. split.
        - intros [[?|?] ?]; [contradiction | assumption].
        - intros H. split; [now right|]. intros ->. contradiction. }
      destruct (IH (dict_pop k cache) (evicted ++ [k])
                  (wf_dict_pop k cache Hwf) Hnd Hsub') as [IH1 IH2].
      subst n. replace (length cache - max_loaded)%nat
        with (S (length (dict_pop k cache) - max_loaded))%nat by lia.
      simpl. rewrite IH1, <- app_assoc. simpl. split; [reflexivity|].
      rewrite IH2. lia.
    + apply Nat.ltb_ge in E. subst n.
      replace (length cache - max_loaded)%nat with 0%nat by lia.
      simpl. rewrite app_nil_r. split; [reflexivity | lia].
Qed.

Lemma _evict_if_needed_spec cache :
  wf cache ->
  let n := (length cache - max_loaded)%nat in
  let victims := take n (sorted_by timestamp cache) in
  let cache' := foldl (fun c k => dict_pop k c) cache (keys victims) in
  _evict_if_needed cache = (Ok (keys victims), cache') /\
  length cache' = Nat.min (length cache) max_loaded /\
  wf cache'.
Proof.
  intros Hwf n victims cache'. unfold _evict_if_needed.
  destruct (length cache <=? max_loaded)%nat eqn:E.
  - apply Nat.leb_le in E. subst cache' victims n.
    replace (length cache - max_loaded)%nat with 0%nat by lia.
    simpl. repeat split; [lia | exact Hwf].
  - assert (Hperm : keys (sorted_by timestamp cache) ≡ₚ keys cache).
    { unfold keys. apply fmap_Permutation, sorted_by_Permutation. }
    destruct (evict_loop_spec (sorted_by timestamp cache) cache [] Hwf) as [H1 H2].
    + rewrite Hperm. now apply NoDup_ListNoDup.
    + intros k. now rewrite Hperm.
    + simpl in H1. split; [exact H1|]. split; [exact H2|].
      now apply wf_pops.
Qed.

(** The entries the loop removes are the oldest ones. *)
Lemma victims_oldest cache n e e' :
  e ∈ take n (sorted_by timestamp cache) ->
  e' ∈ drop n (sorted_by timestamp cache) ->
  (timestamp e <= timestamp e')%Q.
Proof.
  intros He He'.
  pose proof (sorted_by_sorted timestamp cache) as Hs.
  rewrite <- (take_drop n (sorted_by timestamp cache)) in Hs.
  exact (StronglySorted_app_1_elem_of _ _ _ _ _ Hs He He').
Qed.

Lemma compose_and_cache_bound fs now paths key cache :
  wf cache -> (length cache <= max_loaded)%nat ->
  let r := compose_and_cache fs now paths key cache in
  wf (snd r) /\ (length (snd r) <= max_loaded)%nat /\ exists g, fst r = Ok g.
Proof.
  intros Hwf Hlen. unfold compose_and_cache.
  destruct (omap (fs_graphml fs) paths) as [|g0 rest]; simpl.
  - eauto.
  - match goal with |- context [_evict_if_needed (dict_set key ?v cache)] =>
      destruct (_evict_if_needed_spec (dict_set key v cache)
                  (wf_dict_set key v cache Hwf)) as (E & Hl & Hw)
    end.
    rewrite E. simpl. split; [exact Hw|]. split; [|eauto].
    rewrite Hl. lia.
Qed.

Lemma load_bound fs now paths persist cache :
  wf cache -> (length cache <= max_loaded)%nat ->
  let r := load_composed_subgraph_for_paths fs now paths persist cache in
  wf (snd r) /\ (length (snd r) <= max_loaded)%nat /\ exists g, fst r = Ok g.
Proof.
  intros Hwf Hlen. unfold load_composed_subgraph_for_paths.
  set (key := _cache_key_for_paths (sorted_strings paths)).
  destruct (dict_get key cache) as [[ts g]|] eqn:Eg; simpl.
  - split; [now apply wf_dict_set|]. split; [|eauto].
    rewrite length_dict_set_present; [exact Hlen|].
    unfold dict_mem. now rewrite Eg.
  - destruct (fs_persisted fs key) as [[Gs Gu]|];
      [|now apply compose_and_cache_bound].
    destruct (project_graph Gu) as [Gp|];
      [|now apply compose_and_cache_bound].
    match goal with |- context [_evict_if_needed (dict_set key ?v cache)] =>
      destruct (_evict_if_needed_spec (dict_set key v cache)
                  (wf_dict_set key v cache Hwf)) as (E & Hl & Hw)
    end.
    rewrite E. simpl. split; [exact Hw|]. split; [|eauto].
    rewrite Hl. lia.
Qed.

Lemma run_loads_bound calls cache :
  wf cache -> (length cache <= max_loaded)%nat ->
  wf (run_loads calls cache) /\ (length (run_loads calls cache) <= max_loaded)%nat.
Proof.
  revert cache. induction calls as [|c r IH]; intros cache Hwf Hlen; simpl.
  - tauto.
  - destruct (load_bound (lc_fs c) (lc_now c) (lc_paths c) (lc_persist c)
                cache Hwf Hlen) as (Hw & Hl & _).
    now apply IH.
Qed.

(** ** The route planner *)

(** A [pickup] or [dropoff] argument: [None] or a dict of coordinates. *)
Inductive arg : Type :=
| ArgNone
| ArgDict (d : list (string * Q)).

(** [not a] is true for [None] and for the empty dict. *)
Definition arg_truthy (a : arg) : bool :=
  match a with
  | ArgNone => false
  | ArgDict [] => false
  | ArgDict (_ :: _) => true
  end.

(** [a[k]]. *)
Definition subscript (a : arg) (k : string) : outcome Q :=
  match a with
  | ArgNone => Raise TypeError
  | ArgDict d => match dict_get k d with
                 | Some q => Ok q
                 | None => Raise KeyError
                 end
  end.

(** The returned dict; a coordinate [[lon, lat]] is a pair. *)
Record route_result : Type := {
  route_coords : list (Q * Q);
  eta_min : option Q;
  alt_routes : list (list (Q * Q))
}.

(** The dict literal of lines 317, 326, 332, 341, 353 and 396, its four
    subscripts evaluated left to right. *)
Definition straight_line (pickup dropoff : arg) : outcome route_result :=
  plng <- subscript pickup "lng";;
  plat <- subscript pickup "lat";;
  dlng <- subscript dropoff "lng";;
  dlat <- subscript dropoff "lat";;
  Ok {| route_coords := [(plng, plat); (dlng, dlat)];
        eta_min := None;
        alt_routes := [] |}.

Definition mph_factor : Q := 160934 # 100000.

(** Lines 410-417, on the text of the tag. *)
Definition parse_speed_text (ms : string) : option Q :=
  let s := strip (lower (list_ascii_of_string ms)) in
  match search_number s with
  | None => None
  | Some (ds, fs) =>
      let val := number_value ds fs in
      if contains (list_ascii_of_string "mph") s then Some (val * mph_factor)
      else Some val
  end.

Definition _parse_maxspeed (ms : pyval) : option Q :=
  match ms with
  | VNone => None
  | VNum q => Some q
  | VBool b => Some (if b then 1 else 0)
  | VList (VStr s :: _) => parse_speed_text s
  | VList _ => None
  | VStr s => parse_speed_text s
  | VDict _ => None
  end.

(** [G.get_edge_data(u, v)]: the data of the edges from [u] to [v] by key. *)
Definition get_edge_data (G : MultiDiGraph) (u v : node) : list (Z * attrs) :=
  omap (fun e : node * node * Z * attrs =>
          let '(u', v', k, data) := e in
          if decide ((u', v') = (u, v)) then Some (k, data) else None)
       (mg_edges G).

(** Lines 427-435: one round of the search for the shortest parallel edge;
    [best_len] starts at [float('inf')], here [None]. *)
Definition shorter_edge (acc : option attrs * option Q) (kattr : Z * attrs)
    : option attrs * option Q :=
  let attr := snd kattr in
  let ln := get_or attr "length" VNone in
  let lnf := if is_none ln then None else try_float str_to_float ln in
  match lnf with
  | Some l =>
      let shorter := match snd acc with
                     | None => true
                     | Some best_len => Qltb l best_len
                     end in
      if shorter then (Some attr, Some l) else acc
  | None => acc
  end.

Definition _edge_first_data (G : MultiDiGraph) (u v : node) : attrs :=
  match get_edge_data G u v with
  | [] => []
  | ((_, first) :: _) as eds =>
      match fst (foldl shorter_edge (None, None) eds) with
      | Some best => best
      | None => first
      end
  end.

(** Lines 371-375. *)
Definition edge_length_m (attr : attrs) : Q :=
  match py_float str_to_float (get_or attr "length" (VNum 0)) with
  | Ok ln => ln
  | Raise _ => 0
  end.

(** Lines 377-385. *)
Definition edge_speed_kph (attr : attrs) : Q :=
  let sk := get_or attr "speed_kph" VNone in
  let sp := if truthy sk then sk
            else match _parse_maxspeed (get_or attr "maxspeed" VNone) with
                 | Some q => VNum q
                 | None => VNone
                 end in
  let sp := if is_none sp then VNum 40 else sp in
  match py_float str_to_float sp with
  | Ok q => if Qle_bool q 0 then 40 else q
  | Raise _ => 40
  end.

(** Lines 369-387: the body of the loop, on [(total_m, eta_min)]. *)
Definition eta_step (G_proj : MultiDiGraph) (acc : Q * Q) (uv : node * node) : Q * Q :=
  let '(total_m, eta) := acc in
  let attr := _edge_first_data G_proj (fst uv) (snd uv) in
  let ln := edge_length_m attr in
  let total_m := total_m + ln in
  let sp := edge_speed_kph attr in
  (total_m, if Qltb 0 ln then eta + (ln / 1000) / sp * 60 else eta).

(** [zip(main_nodes[:-1], main_nodes[1:])]. *)
Definition consecutive (nodes : list node) : list (node * node) :=
  zip (removelast nodes) (tail nodes).

Definition primary_eta (G_proj : MultiDiGraph) (main_nodes : list node) : Q :=
  snd (foldl (eta_step G_proj) (0, 0) (consecutive main_nodes)).

Definition node_data (G : MultiDiGraph) (n : node) : attrs :=
  match dict_get n (mg_nodes G) with
  | Some d => d
  | None => []
  end.

Fixpoint nodes_to_lonlat (G_unproj : MultiDiGraph) (nodes : list node)
    : outcome (list (Q * Q)) :=
  match nodes with
  | [] => Ok []
  | n :: rest =>
      let nd := node_data G_unproj n in
      lon <- py_float str_to_float (get_or nd "x" VNone);;
      lat <- py_float str_to_float (get_or nd "y" VNone);;
      coords <- nodes_to_lonlat G_unproj rest;;
      Ok ((lon, lat) :: coords)
  end.

Fixpoint all_lonlat (G_unproj : MultiDiGraph) (alts : list (list node))
    : outcome (list (list (Q * Q))) :=
  match alts with
  | [] => Ok []
  | alt_nodes :: rest =>
      c <- nodes_to_lonlat G_unproj alt_nodes;;
      cs <- all_lonlat G_unproj rest;;
      Ok (c :: cs)
  end.

(** Lines 345-349: the paths taken from the generator [gen], and how many of
    its items the loop asked for and received. *)
Fixpoint collect_paths (k : nat) (gen : list (list node))
    (paths : list (list node)) (received : nat) : list (list node) * nat :=
  match gen with
  | [] => (paths, received)
  | p :: gen' =>
      let paths' := paths ++ [p] in
      if (k <=? length paths')%nat then (paths', S received)
      else collect_paths k gen' paths' (S received)
  end.

(** Lines 351-393. *)
Definition route_from_paths (G_unproj G_proj : MultiDiGraph)
    (paths : list (list node)) (pickup dropoff : arg) : outcome route_result :=
  match paths with
  | [] => straight_line pickup dropoff
  | main_nodes :: alts =>
      coords <- nodes_to_lonlat G_unproj main_nodes;;
      let eta := primary_eta G_proj main_nodes in
      alt <- all_lonlat G_unproj alts;;
      Ok {| route_coords := coords; eta_min := Some eta; alt_routes := alt |}
  end.

(** [ox.distance.nearest_nodes(G, X=lng, Y=lat)]. *)
Variable nearest_nodes : MultiDiGraph -> Q -> Q -> outcome node.
(** [nx.shortest_simple_paths(G, source, target, weight='weight')]: the paths
    the generator yields, in order, or the exception of its first [next]. *)
Variable shortest_simple_paths : DiGraph -> node -> node -> outcome (list (list node)).

Definition has_node (G : MultiDiGraph) (n : node) : bool := dict_mem n (mg_nodes G).

(** Lines 336-393: the body of the [try]. *)
Definition route_on_graph (G_unproj G_proj : MultiDiGraph) (G_simple : DiGraph)
    (pickup dropoff : arg) (num_alternatives : Z) : outcome route_result :=
  plng <- subscript pickup "lng";;
  plat <- subscript pickup "lat";;
  orig_node <- nearest_nodes G_unproj plng plat;;
  dlng <- subscript dropoff "lng";;
  dlat <- subscript dropoff "lat";;
  dest_node <- nearest_nodes G_unproj dlng dlat;;
  if negb (has_node G_proj orig_node) || negb (has_node G_proj dest_node)
  then straight_line pickup dropoff
  else
    let k := Z.to_nat (Z.max 1 num_alternatives) in
    gen <- shortest_simple_paths G_simple orig_node dest_node;;
    route_from_paths G_unproj G_proj (fst (collect_paths k gen [] 0)) pickup dropoff.

(** The two subscripts [find_regions_for_points] takes of a dict point. *)
Definition as_point (a : arg) : outcome point :=
  lng <- subscript a "lng";;
  lat <- subscript a "lat";;
  Ok (PDict lat lng).

Definition get_route_on_roads (fs : fs_view) (now : Q) (pickup dropoff : arg)
    (num_alternatives : Z) (cache : loaded_cache)
    : outcome route_result * loaded_cache :=
  if negb (arg_truthy pickup) || negb (arg_truthy dropoff) then
    (straight_line pickup dropoff, cache)
  else
    let idx := fs_index fs in
    match (p <- as_point pickup;; d <- as_point dropoff;; Ok [p; d]) with
    | Raise e => (Raise e, cache)
    | Ok points =>
        match find_regions_for_points points idx with
        | [] => (straight_line pickup dropoff, cache)
        | selected =>
            match load_composed_subgraph_for_paths fs now selected true cache with
            | (Raise e, cache') => (Raise e, cache')
            | (Ok (Some G_unproj, Some G_proj, Some G_simple), cache') =>
                (match route_on_graph G_unproj G_proj G_simple
                         pickup dropoff num_alternatives with
                 | Ok r => Ok r
                 | Raise _ => straight_line pickup dropoff
                 end, cache')
            | (Ok _, cache') => (straight_line pickup dropoff, cache')
            end
        end
    end.

End GraphCache.

(** ** Bounding boxes and the region index *)

(** A child of a GraphML element: its tag, its [key] attribute and its
    text. *)
Record xml_data : Type := {
  d_tag : string;
  d_key : option string;
  d_text : option string
}.

(** An element as [ET.iterparse] hands it over at its end: its tag, its
    children ([findall("./")]) and the texts of its descendants
    ([findall(".//")]). *)
Record xml_elem : Type := {
  e_tag : string;
  e_children : list xml_data;
  e_descendant_texts : list (option string)
}.

(** [s.endswith(suffix)]. *)
Definition ends_with (suffix s : list ascii) : bool :=
  starts_with (rev suffix) (rev s).

(** [(t or "").strip()]. *)
Definition stripped (t : option string) : list ascii :=
  strip (list_ascii_of_string (match t with Some s => s | None => "" end)).

Definition nonempty (s : list ascii) : bool :=
  match s with [] => false | _ :: _ => true end.

Section RegionIndex.
Variable str_to_float : string -> option Q.

(** [float(txt)] under [try ... except: pass], keeping [old] on failure. *)
Definition float_or (txt : list ascii) (old : option Q) : option Q :=
  match str_to_float (string_of_list_ascii txt) with
  | Some q => Some q
  | None => old
  end.

(** Lines 57-74: one child of a node element. *)
Definition read_xy (xy : option Q * option Q) (data : xml_data)
    : option Q * option Q :=
  if ends_with (list_ascii_of_string "data") (list_ascii_of_string (d_tag data)) then
    let txt := stripped (d_text data) in
    match d_key data with
    | Some key =>
        if nonempty (list_ascii_of_string key) && nonempty txt then
          let k := lower (list_ascii_of_string key) in
          let x := if ends_with (list_ascii_of_string "x") k
                   then float_or txt (fst xy) else fst xy in
          let y := if ends_with (list_ascii_of_string "y") k
                   then float_or txt (snd xy) else snd xy in
          (x, y)
        else xy
    | None => xy
    end
  else xy.

Definition is_missing (o : option Q) : bool :=
  match o with None => true | Some _ => false end.

(** Lines 79-92: one descendant text of the fallback. *)
Definition guess_xy (xy : option Q * option Q) (t : option string)
    : option Q * option Q :=
  let t := stripped t in
  if nonempty t then
    match str_to_float (string_of_list_ascii t) with
    | Some v =>
        if Qle_bool (-180) v && Qle_bool v 180 && is_missing (fst xy)
        then (Some v, snd xy)
        else if Qle_bool (-90) v && Qle_bool v 90 && is_missing (snd xy)
        then (fst xy, Some v)
        else xy
    | None => xy
    end
  else xy.

(** The coordinates read off a node element, when both are found. *)
Definition node_xy (elem : xml_elem) : option (Q * Q) :=
  let xy := foldl read_xy (None, None) (e_children elem) in
  let xy := if is_missing (fst xy) || is_missing (snd xy)
            then foldl guess_xy xy (e_descendant_texts elem) else xy in
  match xy with
  | (Some x, Some y) => Some (x, y)
  | _ => None
  end.

(** Lines 93-97; the four bounds start at plus and minus infinity, here
    [None]. *)
Definition grow (acc : option bbox) (xy : Q * Q) : option bbox :=
  let '(x, y) := xy in
  match acc with
  | None => Some (x, y, x, y)
  | Some (minx, miny, maxx, maxy) =>
      Some (Qmin minx x, Qmin miny y, Qmax maxx x, Qmax maxy y)
  end.

Definition bbox_step (acc : option bbox) (elem : xml_elem) : option bbox :=
  if ends_with (list_ascii_of_string "node") (list_ascii_of_string (e_tag elem)) then
    match node_xy elem with
    | Some xy => grow acc xy
    | None => acc
    end
  else acc.

(** [doc] is the stream of elements [ET.iterparse] yields for the file, or
    [None] when opening or parsing the file raises. *)
Definition _compute_bbox_from_graphml (doc : option (list xml_elem)) : option bbox :=
  match doc with
  | None => None
  | Some elems => foldl bbox_step None elems
  end.

(** What [build_region_index] sees of the data directory: the saved index
    when the file exists and loads, the sorted matches of the two glob
    patterns as (name, path), the parse of each file, and whether the index
    file can be written. *)
Record index_dir : Type := {
  saved_index : option region_index;
  region_files : list (string * string);
  graphml_files : list (string * string);
  parse_graphml : string -> option (list xml_elem);
  writable : bool
}.

Definition index_file (dir : index_dir) (idx : region_index)
    (f : string * string) : region_index :=
  match _compute_bbox_from_graphml (parse_graphml dir (snd f)) with
  | Some b => dict_set (fst f) {| path := snd f; bbox_of := Some b |} idx
  | None => idx
  end.

(** The index returned, and the index written to [region_index.json], if
    any. *)
Definition build_region_index (force : bool) (dir : index_dir)
    : region_index * option region_index :=
  match (if force then None else saved_index dir) with
  | Some idx => (idx, None)
  | None =>
      let files := match region_files dir with
                   | [] => graphml_files dir
                   | _ :: _ => region_files dir
                   end in
      let idx := foldl (index_file dir) [] files in
      (idx, if writable dir then Some idx else None)
  end.

End RegionIndex.

End GraphML.

(* ================================================================== *)
(** * routing_service.py *)
(* ================================================================== *)

Module RoutingService.
Import Py GraphML.
Local Open Scope Q_scope.

Definition ROUTE_CACHE_TTL : Q := 60 * 60.
Definition ROUTE_CACHE_MAX : nat := 2000.
Definition COORD_ROUND_DECIMALS : Z := 7.
Definition LOCATION_RETENTION_SECONDS : Q := 60 * 60 * 6.

(** ** The route response cache *)

(** Rounding to the nearest integer, ties to the even one. *)
Definition round_half_even (x : Q) : Z :=
  let f := Qfloor x in
  match Qcompare (x - inject_Z f) (1 # 2) with
  | Lt => f
  | Gt => (f + 1)%Z
  | Eq => if Z.even f then f else (f + 1)%Z
  end.

(** [round(x, COORD_ROUND_DECIMALS)], in units of 1e-7. *)
Definition round_coord (x : Q) : Z :=
  round_half_even (x * inject_Z (10 ^ COORD_ROUND_DECIMALS)).

(** The key: the text of the f-string is determined by the four rounded
    coordinates and [int(alternatives)], which stand for it here. *)
Definition cache_key : Type := (Z * Z * Z * Z * Z)%type.

Definition _make_cache_key (pickup_lat pickup_lng drop_lat drop_lng : Q)
    (alternatives : Z) : cache_key :=
  (round_coord pickup_lat, round_coord pickup_lng,
   round_coord drop_lat, round_coord drop_lng, alternatives).

(** The two module-level dicts. *)
Record route_caches : Type := {
  _route_cache : list (cache_key * (Q * route_result));
  _route_cache_access_order : list (cache_key * Q)
}.

(** [now_check] and [now_touch] are the readings of the two [time.time()]
    calls, lines 67 and 71. *)
Definition _cache_get (key : cache_key) (now_check now_touch : Q)
    (st : route_caches) : option route_result * route_caches :=
  match dict_get key (_route_cache st) with
  | None => (None, st)
  | Some (ts, val) =>
      if Qltb ROUTE_CACHE_TTL (now_check - ts) then
        (None, {| _route_cache := dict_pop key (_route_cache st);
                  _route_cache_access_order :=
                    dict_pop key (_route_cache_access_order st) |})
      else
        (Some val, {| _route_cache := _route_cache st;
                      _route_cache_access_order :=
                        dict_set key now_touch (_route_cache_access_order st) |})
  end.

(** [max(1, int(0.1 * ROUTE_CACHE_MAX))]. *)
Definition evict_batch : nat := Nat.max 1 200.

Definition evict_oldest (st : route_caches) : route_caches :=
  let oldest := take evict_batch
                  (sorted_by (fun kv : cache_key * Q => snd kv)
                             (_route_cache_access_order st)) in
  foldl (fun s kv =>
           {| _route_cache := dict_pop (fst kv) (_route_cache s);
              _route_cache_access_order :=
                dict_pop (fst kv) (_route_cache_access_order s) |})
        st oldest.

(** [now_ts] and [now_touch] are the readings of the two [time.time()] calls
    of the branch that runs. *)
Definition _cache_set (key : cache_key) (value : route_result)
    (now_ts now_touch : Q) (st : route_caches) : route_caches :=
  if dict_mem key (_route_cache st) then
    {| _route_cache := dict_set key (now_ts, value) (_route_cache st);
       _route_cache_access_order :=
         dict_set key now_touch (_route_cache_access_order st) |}
  else
    let st := if (ROUTE_CACHE_MAX <=? length (_route_cache st))%nat
              then evict_oldest st else st in
    {| _route_cache := dict_set key (now_ts, value) (_route_cache st);
       _route_cache_access_order :=
         dict_set key now_touch (_route_cache_access_order st) |}.

(** ** The [/route] endpoint *)

Record service : Type := {
  caches : route_caches;
  loaded : loaded_cache
}.

(** The readings of the clock during one request. *)
Record route_clock : Type := {
  t_lookup : Q;
  t_lookup_touch : Q;
  t_load : Q;
  t_store : Q;
  t_store_touch : Q
}.

(** The query parameters, as FastAPI hands them to the handler. *)
Record route_query : Type := {
  pickup_lat : Q;
  pickup_lng : Q;
  drop_lat : Q;
  drop_lng : Q;
  alternatives : Z
}.

(** [{"from_cache": .., **result}]. *)
Record route_response : Type := {
  from_cache : bool;
  result : route_result
}.

Inductive http (A : Type) : Type :=
| Http200 (a : A)
| Http500.
Arguments Http200 {A} a.
Arguments Http500 {A}.

Section Service.
Variable str_to_float : string -> option Q.
Variable project_graph : MultiDiGraph -> option MultiDiGraph.
Variable compose_all : list MultiDiGraph -> MultiDiGraph.
Variable nearest_nodes : MultiDiGraph -> Q -> Q -> outcome node.
Variable shortest_simple_paths : DiGraph -> node -> node -> outcome (list (list node)).

Definition planner (fs : fs_view) (now : Q) (pickup dropoff : arg)
    (num_alternatives : Z) (cache : loaded_cache) :=
  get_route_on_roads str_to_float project_graph compose_all MAX_LOADED_COMPOSED
    nearest_nodes shortest_simple_paths fs now pickup dropoff num_alternatives cache.

Definition route (q : route_query) (fs : fs_view) (clk : route_clock)
    (s : service) : http route_response * service :=
  let key := _make_cache_key (pickup_lat q) (pickup_lng q)
                             (drop_lat q) (drop_lng q) (alternatives q) in
  match _cache_get key (t_lookup clk) (t_lookup_touch clk) (caches s) with
  | (Some cached, c) =>
      (Http200 {| from_cache := true; result := cached |},
       {| caches := c; loaded := loaded s |})
  | (None, c) =>
      match planner fs (t_load clk)
              (ArgDict [("lat", pickup_lat q); ("lng", pickup_lng q)])
              (ArgDict [("lat", drop_lat q); ("lng", drop_lng q)])
              (alternatives q) (loaded s) with
      | (Ok res, g) =>
          (Http200 {| from_cache := false; result := res |},
           {| caches := _cache_set key res (t_store clk) (t_store_touch clk) c;
              loaded := g |})
      | (Raise _, g) => (Http500, {| caches := c; loaded := g |})
      end
  end.

End Service.

(** ** The live-location hub *)

(** A value of [last_known]. *)
Record location_record : Type := {
  lk_lat : Q;
  lk_lng : Q;
  lk_ts : pyval;
  lk_meta : pyval;
  _received_at : Q
}.

(** The payload handed to the monitors. *)
Record location_payload : Type := {
  p_driver_id : string;
  p_lat : Q;
  p_lng : Q;
  p_ts : pyval;
  p_meta : pyval
}.

(** The [ConnectionManager]: sockets are numbered; [broadcasts] lists the
    payloads of the tasks created by [asyncio.create_task], oldest first. *)
Record hub : Type := {
  _drivers : gmap string nat;
  _monitors : gset nat;
  last_known : gmap string location_record;
  broadcasts : list location_payload
}.


Definition disconnect_driver (driver_id : string) (h : hub) : hub :=
  {| _drivers := delete driver_id (_drivers h);
     _monitors := _monitors h;
     last_known := last_known h;
     broadcasts := broadcasts h |}.

Section Hub.
Variable str_to_float : string -> option Q.

Definition receive_from_driver (driver_id : string) (data : attrs) (now_ts : Q)
    (h : hub) : outcome hub :=
  lat <- py_float str_to_float (get_or data "lat" VNone);;
  lng <- py_float str_to_float (get_or data "lng" VNone);;
  let ts := get_or data "ts" (VNum now_ts) in
  let meta := get_or data "meta" (VDict []) in
  Ok {| _drivers := _drivers h;
        _monitors := _monitors h;
        last_known := <[driver_id := {| lk_lat := lat; lk_lng := lng; lk_ts := ts;
                                        lk_meta := meta; _received_at := now_ts |}]>
                        (last_known h);
        broadcasts := broadcasts h ++
                      [{| p_driver_id := driver_id; p_lat := lat; p_lng := lng;
                          p_ts := ts; p_meta := meta |}] |}.

(** [k in msg]. *)
Definition py_in (k : string) (msg : pyval) : outcome bool :=
  match msg with
  | VDict d => Ok (dict_mem k d)
  | VList l => Ok (existsb (fun v => match v with
                                     | VStr s => String.eqb s k
                                     | _ => false
                                     end) l)
  | VStr s => Ok (contains (list_ascii_of_string k) (list_ascii_of_string s))
  | VNone | VBool _ | VNum _ => Raise TypeError
  end.

(** [msg[k]] for a string [k]. *)
Definition py_getitem (msg : pyval) (k : string) : outcome pyval :=
  match msg with
  | VDict d => match dict_get k d with
               | Some v => Ok v
               | None => Raise KeyError
               end
  | _ => Raise TypeError
  end.

(** [msg.get(k, default)]. *)
Definition py_get (msg : pyval) (k : string) (default : pyval) : outcome pyval :=
  match msg with
  | VDict d => Ok (get_or d k default)
  | _ => Raise TypeError
  end.

(** What the driver socket delivers to [receive_json]. *)
Inductive ws_event : Type :=
| RecvJson (msg : pyval)
| RecvInvalid
| RecvDisconnect.

Inductive loop_state : Type :=
| Running
| Closed.

(** Lines 235-248: one decoded message; [t_default] is the reading of
    [time.time()] at line 244 and [t_recv] the one at line 136. *)
Definition handle_message (driver_id : string) (msg : pyval)
    (t_default t_recv : Q) (h : hub) : outcome hub :=
  has_lat <- py_in "lat" msg;;
  has_both <- (if has_lat then py_in "lng" msg else Ok false);;
  if negb has_both then Ok h
  else
    lat_v <- py_getitem msg "lat";;
    lat <- py_float str_to_float lat_v;;
    lng_v <- py_getitem msg "lng";;
    lng <- py_float str_to_float lng_v;;
    ts <- py_get msg "ts" (VNum t_default);;
    meta <- py_get msg "meta" (VDict []);;
    receive_from_driver driver_id
      [("lat", VNum lat); ("lng", VNum lng); ("ts", ts); ("meta", meta)]
      t_recv h.

(** Lines 226-254: one turn of the [while True] loop with its handlers. *)
Definition ws_driver_step (driver_id : string) (ev : ws_event)
    (t_default t_recv : Q) (h : hub) : loop_state * hub :=
  match ev with
  | RecvDisconnect => (Closed, disconnect_driver driver_id h)
  | RecvInvalid => (Running, h)
  | RecvJson msg =>
      match handle_message driver_id msg t_default t_recv h with
      | Ok h' => (Running, h')
      | Raise _ => (Closed, disconnect_driver driver_id h)
      end
  end.



(** The body of [POST /location], after validation by the framework. *)
Record LocationPayload : Type := {
  driver_id : string;
  lat : Q;
  lng : Q;
  ts : option Q;
  meta : option (list (string * pyval))
}.

Definition post_location (payload : LocationPayload) (t_default t_recv : Q)
    (h : hub) : http bool * hub :=
  let ts := match ts payload with
            | Some t => VNum t
            | None => VNum t_default
            end in
  let meta := match meta payload with
              | Some ((_ :: _) as m) => VDict m
              | _ => VDict []
              end in
  match receive_from_driver (driver_id payload)
          [("lat", VNum (lat payload)); ("lng", VNum (lng payload));
           ("ts", ts); ("meta", meta)] t_recv h with
  | Ok h' => (Http200 true, h')
  | Raise _ => (Http500, h)
  end.

End Hub.

(** What [get_last_known] returns: one driver's record (or [None]), or a
    copy of the whole table. *)
Inductive last_known_view : Type :=
| OneDriver (r : option location_record)
| AllDrivers (m : gmap string location_record).

(** [if driver_id:] is false for [None] and for the empty string. *)
Definition get_last_known (driver_id : option string) (h : hub) : last_known_view :=
  match driver_id with
  | Some (String c d) => OneDriver (last_known h !! String c d)
  | Some EmptyString | None => AllDrivers (last_known h)
  end.

(** [GET /locations]: the count and the table. *)
Definition get_locations (h : hub) : last_known_view * last_known_view :=
  (get_last_known None h, get_last_known None h).

(** The answer of [GET /locations/{driver_id}]. *)
Inductive location_response : Type :=
| LocFound (r : location_record)
| LocTable (m : gmap string location_record)
| Loc404.

(** A record is a dict with five keys, hence truthy; the copy of the table
    is truthy when it is not empty. *)
Definition get_location_driver (driver_id : string) (h : hub) : location_response :=
  match get_last_known (Some driver_id) h with
  | OneDriver (Some r) => LocFound r
  | OneDriver None => Loc404
  | AllDrivers m => if decide (m = ∅) then Loc404 else LocTable m
  end.

(** ** Monitors *)

Definition connect_monitor (websocket : nat) (h : hub) : hub :=
  {| _drivers := _drivers h;
     _monitors := _monitors h ∪ {[ websocket ]};
     last_known := last_known h;
     broadcasts := broadcasts h |}.

Definition disconnect_monitor (websocket : nat) (h : hub) : hub :=
  {| _drivers := _drivers h;
     _monitors := _monitors h ∖ {[ websocket ]};
     last_known := last_known h;
     broadcasts := broadcasts h |}.

Section Broadcast.
(** [ws.send_json(data)]: whether the send to the socket goes through. *)
Variable send_json : nat -> location_payload -> bool.

(** [_safe_send], on the sends that went through so far and the hub. *)
Definition _safe_send (data : location_payload)
    (acc : list (nat * location_payload) * hub) (ws : nat)
    : list (nat * location_payload) * hub :=
  if send_json ws data then (fst acc ++ [(ws, data)], snd acc)
  else (fst acc, disconnect_monitor ws (snd acc)).

(** The sends of [asyncio.gather], taken in the order [monitors]. *)
Definition send_all (data : location_payload) (monitors : list nat) (h : hub)
    : list (nat * location_payload) * hub :=
  foldl (_safe_send data) ([], h) monitors.

Definition _broadcast_to_monitors_safe (data : location_payload) (h : hub)
    : list (nat * location_payload) * hub :=
  let monitors := elements (_monitors h) in
  match monitors with
  | [] => ([], h)
  | _ => send_all data monitors h
  end.

End Broadcast.

(** What the monitor socket delivers to [receive_text]. *)
Inductive monitor_event : Type :=
| RecvText (msg : string)
| MonitorDisconnect
| MonitorError.

Section Monitor.
(** [websocket.send_text(s)]: whether the send goes through. *)
Variable send_text : nat -> string -> bool.

(** Lines 268-281: one turn of the loop, on the acknowledgements sent. *)
Definition ws_monitor_step (websocket : nat) (ev : monitor_event)
    (acks : list string) (h : hub) : loop_state * list string * hub :=
  match ev with
  | RecvText msg =>
      if String.eqb msg "" then (Running, acks, h)
      else if String.prefix "subscribe:" msg then
        (Running,
         if send_text websocket "subscribed" then acks ++ ["subscribed"] else acks,
         h)
      else (Running, acks, h)
  | MonitorDisconnect | MonitorError => (Closed, acks, disconnect_monitor websocket h)
  end.

Fixpoint ws_monitor_loop (websocket : nat) (events : list monitor_event)
    (acks : list string) (h : hub) : loop_state * list string * hub :=
  match events with
  | [] => (Running, acks, h)
  | ev :: rest =>
      match ws_monitor_step websocket ev acks h with
      | (Running, acks', h') => ws_monitor_loop websocket rest acks' h'
      | (Closed, acks', h') => (Closed, acks', h')
      end
  end.

Definition ws_monitor (websocket : nat) (events : list monitor_event) (h : hub)
    : loop_state * list string * hub :=
  ws_monitor_loop websocket events [] (connect_monitor websocket h).

End Monitor.

Definition stale (cutoff : Q) (kv : string * location_record) : bool :=
  Qltb (_received_at (snd kv)) cutoff.

Definition cleanup_last_known (now : Q) (h : hub) : hub :=
  let cutoff := now - LOCATION_RETENTION_SECONDS in
  let to_remove := map fst (List.filter (stale cutoff) (map_to_list (last_known h))) in
  {| _drivers := _drivers h;
     _monitors := _monitors h;
     last_known := foldl (fun m k => delete k m) (last_known h) to_remove;
     broadcasts := broadcasts h |}.

End RoutingService.

(* ================================================================== *)
(** * driver_routes.py: the caller of the routing service *)
(* ================================================================== *)

Module DriverRoutes.
Import Py.
Local Open Scope Q_scope.

Definition FLASK_ROUTE_CACHE_TTL : Q := 60 * 5.
Definition FLASK_ROUTE_CACHE_MAX : nat := 500.

(** The key of [route_for_delivery]: the four coordinates rounded to five
    decimals, in units of 1e-5, and the constant last field. *)
Definition flask_key : Type := (Z * Z * Z * Z * Z)%type.

(** The two module-level dicts. *)
Record flask_caches : Type := {
  FLASK_ROUTE_CACHE : list (flask_key * pyval);
  FLASK_ROUTE_CACHE_META : list (flask_key * Q)
}.

(** [now_check] and [now_touch] are the readings of the two [time.time()]
    calls, lines 515 and 520. *)
Definition flask_cache_get (key : flask_key) (now_check now_touch : Q)
    (st : flask_caches) : option pyval * flask_caches :=
  match dict_get key (FLASK_ROUTE_CACHE st) with
  | None => (None, st)
  | Some item =>
      if negb (truthy item) then (None, st)
      else
        let ts := match dict_get key (FLASK_ROUTE_CACHE_META st) with
                  | Some t => t
                  | None => 0
                  end in
        if Qltb FLASK_ROUTE_CACHE_TTL (now_check - ts) then
          (None, {| FLASK_ROUTE_CACHE := dict_pop key (FLASK_ROUTE_CACHE st);
                    FLASK_ROUTE_CACHE_META := dict_pop key (FLASK_ROUTE_CACHE_META st) |})
        else
          (Some item, {| FLASK_ROUTE_CACHE := FLASK_ROUTE_CACHE st;
                         FLASK_ROUTE_CACHE_META :=
                           dict_set key now_touch (FLASK_ROUTE_CACHE_META st) |})
  end.

(** [max(1, int(0.1 * FLASK_ROUTE_CACHE_MAX))]. *)
Definition flask_evict_batch : nat := Nat.max 1 50.

Definition flask_evict_oldest (st : flask_caches) : flask_caches :=
  let oldest := take flask_evict_batch
                  (sorted_by (fun kv : flask_key * Q => snd kv)
                             (FLASK_ROUTE_CACHE_META st)) in
  foldl (fun s kv =>
           {| FLASK_ROUTE_CACHE := dict_pop (fst kv) (FLASK_ROUTE_CACHE s);
              FLASK_ROUTE_CACHE_META := dict_pop (fst kv) (FLASK_ROUTE_CACHE_META s) |})
        st oldest.

Definition flask_cache_set (key : flask_key) (value : pyval) (now : Q)
    (st : flask_caches) : flask_caches :=
  if dict_mem key (FLASK_ROUTE_CACHE st) then
    {| FLASK_ROUTE_CACHE := dict_set key value (FLASK_ROUTE_CACHE st);
       FLASK_ROUTE_CACHE_META := dict_set key now (FLASK_ROUTE_CACHE_META st) |}
  else
    let st := if (FLASK_ROUTE_CACHE_MAX <=? length (FLASK_ROUTE_CACHE st))%nat
              then flask_evict_oldest st else st in
    {| FLASK_ROUTE_CACHE := dict_set key value (FLASK_ROUTE_CACHE st);
       FLASK_ROUTE_CACHE_META := dict_set key now (FLASK_ROUTE_CACHE_META st) |}.

(** The coordinate columns of a [Delivery] row. *)
Record Delivery : Type := {
  pickup_lat : option Q;
  pickup_lng : option Q;
  dropoff_lat : option Q;
  dropoff_lng : option Q
}.

(** A coordinate that is [None] or zero is falsy. *)
Definition coordinate (c : option Q) : option Q :=
  match c with
  | Some q => if Qeq_bool q 0 then None else Some q
  | None => None
  end.

(** [round(x, 5)], in units of 1e-5, ties to even. *)
Definition round5 (x : Q) : Z :=
  let y := x * inject_Z (10 ^ 5) in
  let f := Qfloor y in
  match Qcompare (y - inject_Z f) (1 # 2) with
  | Lt => f
  | Gt => (f + 1)%Z
  | Eq => if Z.even f then f else (f + 1)%Z
  end.

(** What [requests.get], [raise_for_status] and [res.json()] give: the
    decoded body, a timeout, or any other failure. *)
Inductive service_reply : Type :=
| Reply (data : pyval)
| TimedOut
| Failed.

(** The answer of the view: a JSON body with status 200, one of the error
    answers, or the 500 of an exception that leaves the view. *)
Inductive flask_response : Type :=
| Json200 (body : list (string * pyval))
| Json400
| Json404
| Json502
| Json504
| Crash500.

(** [{'from_cache': flag, **data}]: the keys of [data] are set after the
    literal one. *)
Definition with_from_cache (flag : bool) (data : list (string * pyval))
    : list (string * pyval) :=
  foldl (fun acc kv => dict_set (fst kv) (snd kv) acc)
        [("from_cache", VBool flag)] data.

(** Lines 596-637.  [delivery] is [None] when the row does not exist;
    [call] is the request to the routing service; the third component tells
    whether the service was called. *)
Definition route_for_delivery (delivery : option Delivery)
    (call : Q -> Q -> Q -> Q -> service_reply)
    (t_check t_touch t_store : Q) (st : flask_caches)
    : flask_response * flask_caches * bool :=
  match delivery with
  | None => (Json404, st, false)
  | Some d =>
      match coordinate (pickup_lat d), coordinate (pickup_lng d),
            coordinate (dropoff_lat d), coordinate (dropoff_lng d) with
      | Some plat, Some plng, Some dlat, Some dlng =>
          let key := (round5 plat, round5 plng, round5 dlat, round5 dlng, 2%Z) in
          match flask_cache_get key t_check t_touch st with
          | (Some cached, st') =>
              match cached with
              | VDict c => (Json200 (with_from_cache true c), st', false)
              | _ => (Crash500, st', false)
              end
          | (None, st') =>
              match call plat plng dlat dlng with
              | Reply data =>
                  let st'' := flask_cache_set key data t_store st' in
                  match data with
                  | VDict c => (Json200 (with_from_cache false c), st'', true)
                  | _ => (Json502, st'', true)
                  end
              | TimedOut => (Json504, st', true)
              | Failed => (Json502, st', true)
              end
          end
      | _, _, _, _ => (Json400, st, false)
      end
  end.

End DriverRoutes.

(* ================================================================== *)
(** * Properties *)
(* ================================================================== *)

Import Py GraphML RoutingService.
Local Open Scope Q_scope.

(** ** Region selection *)



Definition demo_index : region_index :=
  [("Accra", {| path := "data/Accra.graphml"; bbox_of := Some (-1, 5, 0, 6) |});
   ("Kumasi", {| path := "data/Kumasi.graphml"; bbox_of := Some (-2, 6, -1, 7) |})].



(** ** The simplified graph *)

Lemma usable_lengths_le str_to_float weight_key es u v :
  (length (usable_lengths str_to_float weight_key es u v) <=
   length (parallel_weights str_to_float weight_key es u v))%nat.
Proof.
  induction es as [|[[[u' v'] k] data] r IH]; simpl; [lia|].
  destruct (decide ((u', v') = (u, v))); [|exact IH].
  destruct (is_none _); simpl; [lia|].
  destruct (try_float _ _); simpl; lia.
Qed.

Lemma usable_lengths_all str_to_float weight_key es u v :
  length (usable_lengths str_to_float weight_key es u v) =
  length (parallel_weights str_to_float weight_key es u v) ->
  parallel_weights str_to_float weight_key es u v =
  usable_lengths str_to_float weight_key es u v.
Proof.
  induction es as [|[[[u' v'] k] data] r IH]; simpl; [reflexivity|].
  pose proof (usable_lengths_le str_to_float weight_key r u v) as Hle.
  destruct (decide ((u', v') = (u, v))); [|exact IH].
  unfold edge_wnum.
  destruct (is_none _); simpl; [intros; lia|].
  destruct (try_float _ _); simpl; [|intros; lia].
  intros H. f_equal. apply IH. lia.
Qed.

Lemma usable_lengths_none str_to_float weight_key es u v :
  usable_lengths str_to_float weight_key es u v = [] ->
  Forall (fun w => w = 1) (parallel_weights str_to_float weight_key es u v).
Proof.
  induction es as [|[[[u' v'] k] data] r IH]; simpl; [constructor|].
  destruct (decide ((u', v') = (u, v))); [|exact IH].
  unfold edge_wnum.
  destruct (is_none _); simpl; [intros; constructor; auto|].
  destruct (try_float _ _); simpl; [discriminate|].
  intros; constructor; auto.
Qed.

(** Two parallel edges from 1 to 2: one of length 5.0, one without length. *)
Definition parallel_demo : MultiDiGraph :=
  {| mg_nodes := [(1%Z, []); (2%Z, [])];
     mg_edges := [(1%Z, 2%Z, 0%Z, [("length", VNum 5)]);
                  (1%Z, 2%Z, 1%Z, [])] |}.

Definition no_text_floats (s : string) : option Q := None.

(** C3, as stated, fails: with a parallel edge that has no length, the
    simplified edge weighs 1.0 although a usable length (5.0) exists. *)
Lemma simple_digraph_weight_not_min_usable :
  edge_weight (_multigraph_to_simple_digraph_min no_text_floats parallel_demo "length")
              1%Z 2%Z = Some 1 /\
  spec_min_usable_weight no_text_floats "length" parallel_demo 1%Z 2%Z = 5 /\
  ~ (1 == 5).
Proof.
  split; [reflexivity|]. split; [reflexivity|]. intros H. discriminate H.
Qed.

(** C3, amended.  The simplified graph has at most one edge per ordered node
    pair, exactly for the pairs joined in the multigraph.  Its weight is the
    minimum, over the parallel edges of the pair, of the effective weight of
    each edge: its length when usable, and 1.0 for an edge without a usable
    length.  So it is the minimum usable length when every parallel edge has
    one, and 1.0 when none has. *)
Theorem simple_digraph_min_effective_weight
    (str_to_float : string -> option Q) (weight_key : string) (G : MultiDiGraph) :
  let Gs := _multigraph_to_simple_digraph_min str_to_float G weight_key in
  List.NoDup (keys (dg_adj Gs)) /\
  forall u v,
    let ws := parallel_weights str_to_float weight_key (mg_edges G) u v in
    let usable := usable_lengths str_to_float weight_key (mg_edges G) u v in
    match edge_weight Gs u v with
    | None => ws = []
    | Some w =>
        w ∈ ws /\ Forall (fun w' => w <= w') ws /\
        (length usable = length ws -> w ∈ usable /\ Forall (fun w' => w <= w') usable) /\
        (usable = [] -> w = 1)
    end.
Proof.
  intros Gs. split.
  - apply simplify_wf, wf_nil.
  - intros u v ws usable. unfold edge_weight, Gs. simpl.
    pose proof (simplify_inv str_to_float weight_key (mg_edges G) u v) as H.
    destruct (dict_get (u, v) _) as [e|]; simpl; [|exact H].
    destruct H as [Hin Hall]. fold ws in Hin, Hall.
    split; [exact Hin|]. split; [exact Hall|]. split.
    + intros Hlen. apply usable_lengths_all in Hlen. fold ws usable in Hlen.
      rewrite <- Hlen. tauto.
    + intros Hnone. apply usable_lengths_none in Hnone. fold ws in Hnone.
      rewrite Forall_forall in Hnone. auto.
Qed.

Lemma simple_digraph_min_effective_weight_witness :
  edge_weight (_multigraph_to_simple_digraph_min no_text_floats parallel_demo "length")
              1%Z 2%Z = Some 1 /\
  1 ∈ parallel_weights no_text_floats "length" (mg_edges parallel_demo) 1%Z 2%Z.
Proof.
  split; [reflexivity|].
  exact (proj1 (proj2 (simple_digraph_min_effective_weight
                         no_text_floats "length" parallel_demo) 1%Z 2%Z)).
Defined.

(** ** The graph cache *)

(** C6.  Starting from the empty cache, after any sequence of calls to
    [load_composed_subgraph_for_paths] the cache holds at most the configured
    capacity of entries (2 for [MAX_LOADED_COMPOSED]).  When [_evict_if_needed]
    finds [n] entries too many, it removes exactly the first [n] entries in
    the order of their timestamps, oldest first: it leaves
    [min (length cache) capacity] entries, the removed ones are listed by
    nondecreasing timestamp, every removed entry is at most as recent as every
    entry that stays, and the entries that stay are unchanged. *)
Theorem loaded_cache_within_capacity
    (str_to_float : string -> option Q)
    (project_graph : MultiDiGraph -> option MultiDiGraph)
    (compose_all : list MultiDiGraph -> MultiDiGraph)
    (max_loaded : nat) (calls : list load_call) :
  (length (run_loads str_to_float project_graph compose_all max_loaded calls [])
   <= max_loaded)%nat /\
  (length (run_loads str_to_float project_graph compose_all
             MAX_LOADED_COMPOSED calls []) <= 2)%nat /\
  forall cache : loaded_cache,
    wf cache ->
    let n := (length cache - max_loaded)%nat in
    let victims := take n (sorted_by timestamp cache) in
    exists cache',
      _evict_if_needed max_loaded cache = (Ok (keys victims), cache') /\
      length cache' = Nat.min (length cache) max_loaded /\
      StronglySorted (fun a b => timestamp a <= timestamp b) victims /\
      (forall e e', e ∈ victims -> e' ∈ cache -> fst e' ∉ keys victims ->
         timestamp e <= timestamp e') /\
      (forall k, dict_get k cache' =
                 if decide (k ∈ keys victims) then None else dict_get k cache).
Proof.
  split; [|split].
  - apply run_loads_bound; [apply wf_nil | simpl; lia].
  - apply (run_loads_bound str_to_float project_graph compose_all
             MAX_LOADED_COMPOSED calls []); [apply wf_nil | simpl; lia].
  - intros cache Hwf n victims.
    destruct (_evict_if_needed_spec max_loaded cache Hwf) as (E & Hlen & _).
    fold n victims in E, Hlen.
    eexists. split; [exact E|]. split; [exact Hlen|]. split; [|split].
    + pose proof (sorted_by_sorted timestamp cache) as Hs.
      rewrite <- (take_drop n (sorted_by timestamp cache)) in Hs.
      exact (StronglySorted_app_1_l _ _ _ Hs).
    + intros e e' He He' Hk. apply (victims_oldest cache n); [exact He|].
      apply list_elem_of_In in He'. apply (sorted_by_In timestamp) in He'.
      apply list_elem_of_In in He'.
      rewrite <- (take_drop n (sorted_by timestamp cache)) in He'.
      apply elem_of_app in He'. destruct He' as [Ht|Hd]; [|exact Hd].
      exfalso. apply Hk. unfold keys. apply list_elem_of_fmap. eauto.
    + intros k. apply dict_get_pops.
Qed.

Definition empty_graphs : graphs := (None, None, None).

Definition three_entries : loaded_cache :=
  [("a", (30, empty_graphs)); ("b", (10, empty_graphs)); ("c", (20, empty_graphs))].

Lemma three_entries_wf : wf three_entries.
Proof.
  unfold wf, three_entries. simpl.
  repeat constructor; simpl; intuition discriminate.
Defined.

Lemma loaded_cache_within_capacity_witness :
  wf three_entries /\
  exists cache',
    _evict_if_needed MAX_LOADED_COMPOSED three_entries = (Ok ["b"], cache') /\
    length cache' = 2%nat.
Proof.
  split; [exact three_entries_wf|].
  destruct (proj2 (proj2 (loaded_cache_within_capacity
                            no_text_floats (fun g => Some g) (fun _ => parallel_demo)
                            MAX_LOADED_COMPOSED []))
              three_entries three_entries_wf) as (cache' & E & Hlen & _).
  exists cache'. split; [exact E | exact Hlen].
Defined.

(** ** The route planner *)

Section PlannerFacts.
Variable str_to_float : string -> option Q.
Variable project_graph : MultiDiGraph -> option MultiDiGraph.
Variable compose_all : list MultiDiGraph -> MultiDiGraph.
Variable max_loaded : nat.
Variable nearest_nodes : MultiDiGraph -> Q -> Q -> outcome node.
Variable shortest_simple_paths : DiGraph -> node -> node -> outcome (list (list node)).

(** Both coordinates can be read from the argument. *)
Definition has_coords (a : arg) : Prop :=
  exists lat lng, subscript a "lat" = Ok lat /\ subscript a "lng" = Ok lng.

Lemma has_coords_truthy a : has_coords a -> arg_truthy a = true.
Proof.
  intros (lat & lng & H & _). destruct a as [|[|x d]]; simpl in *;
    [discriminate | discriminate | reflexivity].
Qed.

Lemma straight_line_falsy pickup dropoff :
  arg_truthy pickup = false \/ arg_truthy dropoff = false ->
  exists e, straight_line pickup dropoff = Raise e.
Proof.
  intros H. unfold straight_line, bind.
  destruct pickup as [|[|x d]].
  - eexists; reflexivity.
  - eexists; reflexivity.
  - destruct H as [H|H]; [discriminate|].
    destruct (subscript (ArgDict (x :: d)) "lng"); [|eexists; reflexivity].
    destruct (subscript (ArgDict (x :: d)) "lat"); [|eexists; reflexivity].
    destruct dropoff as [|[|y d']];
      [eexists; reflexivity | eexists; reflexivity | discriminate].
Qed.

Lemma straight_line_ok pickup dropoff :
  has_coords pickup -> has_coords dropoff ->
  exists res, straight_line pickup dropoff = Ok res /\ alt_routes res = [] /\
              eta_min res = None /\ length (route_coords res) = 2%nat.
Proof.
  intros (a & b & Ha & Hb) (c & d & Hc & Hd). unfold straight_line, bind.
  rewrite Ha, Hb, Hc, Hd. eexists. repeat split.
Qed.




(** With both endpoints given, the planner returns a result: the straight
    line, or the route built from the paths collected from the generator. *)
Lemma get_route_on_roads_shape fs now pickup dropoff k cache :
  wf cache -> has_coords pickup -> has_coords dropoff ->
  exists res cache',
    get_route_on_roads str_to_float project_graph compose_all max_loaded
      nearest_nodes shortest_simple_paths fs now pickup dropoff k cache
    = (Ok res, cache') /\
    (straight_line pickup dropoff = Ok res \/
     exists paths Gu Gp Gs o d gen,
       fst (load_composed_subgraph_for_paths str_to_float project_graph
              compose_all max_loaded fs now paths true cache)
       = Ok (Some Gu, Some Gp, Some Gs) /\
       shortest_simple_paths Gs o d = Ok gen /\
       route_from_paths str_to_float Gu Gp
         (fst (collect_paths (Z.to_nat (Z.max 1 k)) gen [] 0)) pickup dropoff = Ok res).
Proof.
  intros Hwf Hp Hd. unfold get_route_on_roads.
  rewrite (has_coords_truthy _ Hp), (has_coords_truthy _ Hd). simpl.
  destruct (straight_line_ok _ _ Hp Hd) as (line & Eline & _).
  destruct Hp as (plat & plng & Hplat & Hplng).
  destruct Hd as (dlat & dlng & Hdlat & Hdlng).
  assert (Hline : forall c : loaded_cache, exists res cache',
             (Ok line, c) = (Ok res, cache') /\
             (Ok line = Ok res \/
              exists paths Gu Gp Gs o d gen,
                fst (load_composed_subgraph_for_paths str_to_float project_graph
                       compose_all max_loaded fs now paths true cache)
                = Ok (Some Gu, Some Gp, Some Gs) /\
                shortest_simple_paths Gs o d = Ok gen /\
                route_from_paths str_to_float Gu Gp
                  (fst (collect_paths (Z.to_nat (Z.max 1 k)) gen [] 0))
                  pickup dropoff = Ok res)).
  { intros c. exists line, c. split; [reflexivity | now left]. }
  unfold as_point, bind. rewrite Hplng, Hplat, Hdlng, Hdlat, Eline.
  destruct (find_regions_for_points _ _) as [|sel0 sel]; [apply Hline|].
  destruct (load_composed_subgraph_for_paths str_to_float project_graph
              compose_all max_loaded fs now (sel0 :: sel) true cache)
    as [[[[Gu Gp] Gs]|e] cache'] eqn:Eload.
  - destruct Gu as [Gu|]; [|apply Hline]. destruct Gp as [Gp|]; [|apply Hline].
    destruct Gs as [Gs|]; [|apply Hline].
    destruct (route_on_graph _ _ _ Gu Gp Gs pickup dropoff k) as [r|e] eqn:Er;
      [|apply Hline].
    exists r, cache'. split; [reflexivity|].
    unfold route_on_graph, bind in Er. rewrite Hplng, Hplat, Hdlng, Hdlat in Er.
    destruct (nearest_nodes Gu plng plat) as [o|]; [|discriminate].
    destruct (nearest_nodes Gu dlng dlat) as [d|]; [|discriminate].
    destruct (negb (has_node Gp o) || negb (has_node Gp d)).
    { left. rewrite <- Er. symmetry. exact Eline. }
    destruct (shortest_simple_paths Gs o d) as [gen|] eqn:Egen; [|discriminate].
    right. exists (sel0 :: sel), Gu, Gp, Gs, o, d, gen.
    rewrite Eload. repeat split; assumption.
  - exfalso. clear - Eload Hwf.
    unfold load_composed_subgraph_for_paths in Eload.
    assert (Hc : forall key c paths, wf c ->
              fst (compose_and_cache str_to_float project_graph compose_all
                     max_loaded fs now paths key c) <> Raise e).
    { intros key c paths Hc. unfold compose_and_cache.
      destruct (omap _ _); simpl; [discriminate|].
      match goal with |- context [_evict_if_needed _ (dict_set key ?v c)] =>
        destruct (_evict_if_needed_spec max_loaded (dict_set key v c)
                    (wf_dict_set key v c Hc)) as (E & _)
      end.
      rewrite E. simpl. discriminate. }
    destruct (dict_get _ cache) as [[? ?]|]; [discriminate|].
    destruct (fs_persisted fs _) as [[? Gu]|];
      [|eapply Hc; [exact Hwf | rewrite Eload; reflexivity]].
    destruct (project_graph Gu);
      [|eapply Hc; [exact Hwf | rewrite Eload; reflexivity]].
    match type of Eload with context [_evict_if_needed _ (dict_set ?key ?v cache)] =>
      destruct (_evict_if_needed_spec max_loaded (dict_set key v cache)
                  (wf_dict_set key v cache Hwf)) as (E & _)
    end.
    rewrite E in Eload. discriminate.
Qed.

End PlannerFacts.




(** A road graph with the paths 1-2-3 (2000 m + 3000 m) and 1-3 (6000 m),
    every edge tagged 50 km/h. *)
Definition road_demo : MultiDiGraph :=
  {| mg_nodes := [(1%Z, [("x", VNum (-1870 # 10000)); ("y", VNum (56037 # 10000))]);
                  (2%Z, [("x", VNum (-1960 # 10000)); ("y", VNum (55800 # 10000))]);
                  (3%Z, [("x", VNum (-2050 # 10000)); ("y", VNum (55600 # 10000))])];
     mg_edges := [(1%Z, 2%Z, 0%Z, [("length", VNum 2000); ("maxspeed", VStr "50")]);
                  (2%Z, 3%Z, 0%Z, [("length", VNum 3000); ("maxspeed", VStr "50")]);
                  (1%Z, 3%Z, 0%Z, [("length", VNum 6000); ("maxspeed", VStr "50")])] |}.

Definition demo_fs : fs_view :=
  {| fs_index := demo_index;
     fs_persisted := fun _ => None;
     fs_graphml := fun _ => Some road_demo |}.

Definition demo_project (g : MultiDiGraph) : option MultiDiGraph := Some g.

Definition demo_compose (gs : list MultiDiGraph) : MultiDiGraph := road_demo.

Definition demo_nearest (G : MultiDiGraph) (x y : Q) : outcome node :=
  Ok (if Qle_bool x (-2 # 10) then 3%Z else 1%Z).

Definition demo_paths (Gs : DiGraph) (o d : node) : outcome (list (list node)) :=
  Ok [[1%Z; 2%Z; 3%Z]; [1%Z; 3%Z]].

Definition nearby : arg := ArgDict [("lat", 55600 # 10000); ("lng", -2050 # 10000)].



(** C1 fails on the code.  When the pickup or the dropoff is missing
    ([None] or an empty dict), line 317 subscripts the missing value while it
    builds the straight line, so [get_route_on_roads] raises instead of
    returning it; the graph cache is left as it was. *)
Theorem missing_endpoint_fallback_raises
    (str_to_float : string -> option Q)
    (project_graph : MultiDiGraph -> option MultiDiGraph)
    (compose_all : list MultiDiGraph -> MultiDiGraph)
    (max_loaded : nat)
    (nearest_nodes : MultiDiGraph -> Q -> Q -> outcome node)
    (shortest_simple_paths : DiGraph -> node -> node -> outcome (list (list node)))
    (fs : fs_view) (now : Q) (pickup dropoff : arg) (k : Z) (cache : loaded_cache) :
  arg_truthy pickup = false \/ arg_truthy dropoff = false ->
  exists e,
    get_route_on_roads str_to_float project_graph compose_all max_loaded
      nearest_nodes shortest_simple_paths fs now pickup dropoff k cache
    = (Raise e, cache).
Proof.
  intros H. unfold get_route_on_roads.
  destruct (straight_line_falsy pickup dropoff H) as [e E].
  exists e. rewrite E.
  destruct H as [H|H]; rewrite H; simpl; [reflexivity|].
  now rewrite orb_true_r.
Qed.

Lemma missing_endpoint_fallback_raises_witness :
  arg_truthy ArgNone = false /\
  exists e,
    get_route_on_roads no_text_floats demo_project demo_compose MAX_LOADED_COMPOSED
      demo_nearest demo_paths demo_fs 0 ArgNone nearby 1 []
    = (Raise e, []).
Proof.
  split; [reflexivity|].
  apply missing_endpoint_fallback_raises. left. reflexivity.
Defined.



(** ** Speed and ETA of the primary path *)

(** The raw speed tag of an edge, when it is text. *)
Definition raw_speed_tag (attr : attrs) : option string :=
  match dict_get "maxspeed" attr with
  | Some (VStr s) => Some s
  | _ => None
  end.

(** The speed as the specification words it: the first numeric token of the
    raw tag, times 1.60934 when the tag has an mph marker, and 40 km/h when
    the tag is absent, has no number, or gives a speed that is not positive. *)
Definition spec_speed_kph (tag : option string) : Q :=
  match tag with
  | None => 40
  | Some s =>
      let t := strip (lower (list_ascii_of_string s)) in
      match search_number t with
      | None => 40
      | Some (ds, fs) =>
          let kph := if contains (list_ascii_of_string "mph") t
                     then number_value ds fs * mph_factor
                     else number_value ds fs in
          if Qle_bool kph 0 then 40 else kph
      end
  end.

(** The tag is text, or there is none. *)
Definition tag_text_or_absent (attr : attrs) : Prop :=
  match dict_get "maxspeed" attr with
  | None | Some VNone | Some (VStr _) => True
  | Some _ => False
  end.

Definition Qsum (l : list Q) : Q := foldr Qplus 0 l.

(** The data of the edges along a node path, as the ETA loop reads them. *)
Definition path_edges (str_to_float : string -> option Q)
    (G_proj : MultiDiGraph) (nodes : list node) : list attrs :=
  map (fun uv : node * node => _edge_first_data str_to_float G_proj (fst uv) (snd uv))
      (consecutive nodes).

(** The minutes one edge adds. *)
Definition edge_minutes (str_to_float : string -> option Q) (attr : attrs) : Q :=
  let ln := edge_length_m str_to_float attr in
  if Qltb 0 ln then ln / 1000 / edge_speed_kph str_to_float attr * 60 else 0.

Lemma eta_fold str_to_float Gp (l : list (node * node)) (t e : Q) :
  snd (foldl (eta_step str_to_float Gp) (t, e) l) ==
  e + Qsum (map (fun uv : node * node =>
                   edge_minutes str_to_float
                     (_edge_first_data str_to_float Gp (fst uv) (snd uv))) l).
Proof.
  revert t e. induction l as [|uv l IH]; intros t e.
  - simpl. lra.
  - cbn [foldl map].
    destruct (eta_step str_to_float Gp (t, e) uv) as [t' e'] eqn:E.
    rewrite IH. unfold eta_step in E. inversion E; subst t' e'. clear E.
    unfold Qsum at 2. cbn [foldr]. fold (Qsum (map (fun uv0 : node * node =>
      edge_minutes str_to_float
        (_edge_first_data str_to_float Gp (fst uv0) (snd uv0))) l)).
    unfold edge_minutes at 2.
    destruct (Qltb 0 _); lra.
Qed.

Lemma Qsum_scaled (c : Q) (f g : attrs -> Q) (l : list attrs) :
  Forall (fun a => f a == c * g a) l ->
  Qsum (map f l) == c * Qsum (map g l).
Proof.
  induction 1 as [|a l Ha _ IH]; simpl; [lra|].
  rewrite Ha, IH. lra.
Qed.

(** *** The first numeric token of a text *)

Definition starts_no_digit (s : list ascii) : Prop :=
  match s with
  | [] => True
  | c :: _ => is_digit c = false
  end.

Lemma span_digits_spec s ds rest :
  span_digits s = (ds, rest) ->
  s = ds ++ rest /\ Forall (fun c => is_digit c = true) ds /\ starts_no_digit rest.
Proof.
  revert ds rest. induction s as [|c r IH]; intros ds rest; simpl.
  - intros H. inversion H. repeat split. constructor.
  - destruct (is_digit c) eqn:Ec.
    + destruct (span_digits r) as [ds' rest'] eqn:Er.
      intros H. inversion H; subst.
      destruct (IH ds' rest eq_refl) as (E & Hd & Hr).
      split; [simpl; congruence|]. split; [constructor; assumption | exact Hr].
    + intros H. inversion H; subst. repeat split; [constructor | exact Ec].
Qed.

(** [ds], with the fraction digits [fs] when there are some, is the first
    numeric token of [s]: the first run of digits, in full, and the fraction
    that follows it, if a point and a digit do. *)
Definition is_first_numeric_token (s ds fs : list ascii) : Prop :=
  exists pre rest,
    s = pre ++ ds ++ rest /\
    Forall (fun c => is_digit c = false) pre /\
    ds <> [] /\ Forall (fun c => is_digit c = true) ds /\
    starts_no_digit rest /\
    match fs with
    | [] => forall c r, rest = "."%char :: c :: r -> is_digit c = false
    | _ => exists rest', rest = "."%char :: fs ++ rest' /\
                         Forall (fun c => is_digit c = true) fs /\
                         starts_no_digit rest'
    end.

Lemma search_number_first_token s :
  match search_number s with
  | None => Forall (fun c => is_digit c = false) s
  | Some (ds, fs) => is_first_numeric_token s ds fs
  end.
Proof.
  unfold is_first_numeric_token.
  induction s as [|c r IH]; [constructor|].
  cbn [search_number]. destruct (is_digit c) eqn:Ec.
  - destruct (span_digits (c :: r)) as [ds rest] eqn:Es.
    destruct (span_digits_spec _ _ _ Es) as (E & Hd & Hr).
    assert (Hne : ds <> []).
    { intros ->. simpl in E. subst rest. simpl in Hr. congruence. }
    assert (Hfront : forall fs,
              match fs with
              | [] => forall c r, rest = "."%char :: c :: r -> is_digit c = false
              | _ => exists rest', rest = "."%char :: fs ++ rest' /\
                                   Forall (fun c => is_digit c = true) fs /\
                                   starts_no_digit rest'
              end ->
              exists pre rest0,
                c :: r = pre ++ ds ++ rest0 /\
                Forall (fun c => is_digit c = false) pre /\
                ds <> [] /\ Forall (fun c => is_digit c = true) ds /\
                starts_no_digit rest0 /\
                match fs with
                | [] => forall c r, rest0 = "."%char :: c :: r -> is_digit c = false
                | _ => exists rest', rest0 = "."%char :: fs ++ rest' /\
                                     Forall (fun c => is_digit c = true) fs /\
                                     starts_no_digit rest'
                end).
    { intros fs Hfs. exists [], rest. split; [exact E|].
      split; [constructor|]. split; [exact Hne|]. split; [exact Hd|].
      split; [exact Hr | exact Hfs]. }
    destruct rest as [|x rest']; [|destruct (decide (x = "."%char)) as [->|Hx]].
    + apply (Hfront []). intros ? ? H. discriminate.
    + destruct (span_digits rest') as [fs rest''] eqn:Ef.
      destruct (span_digits_spec _ _ _ Ef) as (E' & Hd' & Hr').
      apply Hfront. destruct fs as [|f fs'].
      * intros c' r' H. injection H as H1. simpl in E'.
        rewrite <- E', H1 in Hr'. exact Hr'.
      * exists rest''. split; [congruence|]. split; [exact Hd' | exact Hr'].
    + assert (Hm : match x :: rest' with
                   | "."%char :: rest'0 =>
                       let '(fs, _) := span_digits rest'0 in Some (ds, fs)
                   | _ => Some (ds, [])
                   end = Some (ds, [])).
      { destruct x as [[] [] [] [] [] [] [] []]; try reflexivity.
        exfalso. apply Hx. reflexivity. }
      rewrite Hm. apply (Hfront []).
      intros c' r' H. inversion H. contradiction.
  - destruct (search_number r) as [[ds fs]|].
    + destruct IH as (pre & rest & E & Hp & Hrest).
      exists (c :: pre), rest. split; [simpl; congruence|].
      split; [constructor; assumption | exact Hrest].
    + constructor; assumption.
Qed.

(** An edge with a precomputed speed of 30 km/h and a raw tag of 50. *)
Definition edge_with_speed_kph : attrs :=
  [("length", VNum 1000); ("speed_kph", VNum 30); ("maxspeed", VStr "50")].

(** C2, as stated, fails: a [speed_kph] attribute takes precedence over the
    raw tag, here 30 km/h against the 50 of the tag. *)
Lemma speed_not_always_from_raw_tag :
  edge_speed_kph no_text_floats edge_with_speed_kph = 30 /\
  spec_speed_kph (raw_speed_tag edge_with_speed_kph) = 50 /\
  ~ (edge_speed_kph no_text_floats edge_with_speed_kph ==
     spec_speed_kph (raw_speed_tag edge_with_speed_kph)).
Proof.
  split; [reflexivity|]. split; [vm_compute; reflexivity|].
  vm_compute. discriminate.
Qed.

(** C2, amended.  [search_number] finds the first numeric token of a text,
    or nothing when the text has no digit.  An edge whose [speed_kph]
    attribute is absent or falsy and
    whose raw tag is text or absent gets the speed parsed from the first
    numeric token of the tag, times 1.60934 with an mph marker, and 40 km/h
    when the tag is absent, has no number or gives a non-positive speed (a
    numeric tag is taken as it is, a list tag stands for its first element
    when that is text); a truthy [speed_kph] attribute is used instead of
    the tag (40 km/h when it is not a positive number).  The ETA of the primary path is the sum, over
    its edges of positive length, of length_m / 1000 / speed_kph * 60; so a
    path of positive-length edges of total length 5000 m, all at 50 km/h, has
    an ETA of 6 minutes. *)
Theorem primary_eta_sums_edge_minutes (str_to_float : string -> option Q) :
  (forall s, match search_number s with
             | None => Forall (fun c => is_digit c = false) s
             | Some (ds, fs) => is_first_numeric_token s ds fs
             end) /\
  (forall attr,
     truthy (get_or attr "speed_kph" VNone) = false ->
     tag_text_or_absent attr ->
     edge_speed_kph str_to_float attr = spec_speed_kph (raw_speed_tag attr)) /\
  (forall attr,
     truthy (get_or attr "speed_kph" VNone) = false ->
     edge_speed_kph str_to_float attr =
     match _parse_maxspeed (get_or attr "maxspeed" VNone) with
     | Some v => if Qle_bool v 0 then 40 else v
     | None => 40
     end) /\
  (forall attr,
     truthy (get_or attr "speed_kph" VNone) = true ->
     edge_speed_kph str_to_float attr =
     match try_float str_to_float (get_or attr "speed_kph" VNone) with
     | Some q => if Qle_bool q 0 then 40 else q
     | None => 40
     end) /\
  (forall Gp nodes,
     primary_eta str_to_float Gp nodes ==
     Qsum (map (edge_minutes str_to_float) (path_edges str_to_float Gp nodes))) /\
  (forall Gp nodes,
     Forall (fun a => 0 < edge_length_m str_to_float a /\
                      edge_speed_kph str_to_float a == 50)
            (path_edges str_to_float Gp nodes) ->
     Qsum (map (edge_length_m str_to_float) (path_edges str_to_float Gp nodes)) == 5000 ->
     primary_eta str_to_float Gp nodes == 6).
Proof.
  assert (Hsum : forall Gp nodes,
            primary_eta str_to_float Gp nodes ==
            Qsum (map (edge_minutes str_to_float) (path_edges str_to_float Gp nodes))).
  { intros Gp nodes. unfold primary_eta, path_edges. rewrite eta_fold.
    rewrite map_map. lra. }
  split; [exact search_number_first_token|].
  split; [|split; [|split; [|split; [exact Hsum|]]]].
  - intros attr Hsk Htag. unfold edge_speed_kph, raw_speed_tag, tag_text_or_absent in *.
    rewrite Hsk. unfold get_or.
    destruct (dict_get "maxspeed" attr) as [[| | |s| |]|]; simpl in *;
      try contradiction; try reflexivity.
    unfold parse_speed_text.
    destruct (search_number _) as [[ds fs]|]; simpl; [|reflexivity].
    destruct (contains _ _); simpl; reflexivity.
  - intros attr Hsk. unfold edge_speed_kph. rewrite Hsk.
    destruct (_parse_maxspeed _) as [v|]; reflexivity.
  - intros attr Hsk. unfold edge_speed_kph. rewrite Hsk.
    destruct (get_or attr "speed_kph" VNone) eqn:E; simpl in *;
      try discriminate; unfold try_float; simpl; try reflexivity.
    destruct (str_to_float s); reflexivity.
  - intros Gp nodes Hall Hlen. rewrite Hsum.
    rewrite (Qsum_scaled (3 # 2500) _ (edge_length_m str_to_float)).
    + rewrite Hlen. reflexivity.
    + eapply Forall_impl; [exact Hall|]. simpl. intros a [Hpos Hsp].
      unfold edge_minutes. apply Qltb_lt in Hpos. rewrite Hpos, Hsp.
      field.
Qed.

Lemma primary_eta_sums_edge_minutes_witness :
  Forall (fun a => 0 < edge_length_m no_text_floats a /\
                   edge_speed_kph no_text_floats a == 50)
         (path_edges no_text_floats road_demo [1%Z; 2%Z; 3%Z]) /\
  Qsum (map (edge_length_m no_text_floats)
            (path_edges no_text_floats road_demo [1%Z; 2%Z; 3%Z])) == 5000 /\
  primary_eta no_text_floats road_demo [1%Z; 2%Z; 3%Z] == 6.
Proof.
  assert (H1 : Forall (fun a => 0 < edge_length_m no_text_floats a /\
                                edge_speed_kph no_text_floats a == 50)
                 (path_edges no_text_floats road_demo [1%Z; 2%Z; 3%Z])).
  { repeat constructor. }
  assert (H2 : Qsum (map (edge_length_m no_text_floats)
                        (path_edges no_text_floats road_demo [1%Z; 2%Z; 3%Z])) == 5000).
  { reflexivity. }
  split; [exact H1|]. split; [exact H2|].
  exact (proj2 (proj2 (proj2 (proj2 (proj2
           (primary_eta_sums_edge_minutes no_text_floats)))))
           road_demo [1%Z; 2%Z; 3%Z] H1 H2).
Defined.

(** ** The route response cache *)

Lemma cache_set_get key value now_ts now_touch st :
  dict_get key (_route_cache (_cache_set key value now_ts now_touch st))
  = Some (now_ts, value).
Proof.
  unfold _cache_set. destruct (dict_mem key (_route_cache st)); simpl;
    apply dict_get_set_eq.
Qed.

(** C10.  A lookup changes the cache.  When the entry of the key is older than
    the TTL, the lookup misses and removes the key from both tables, every
    other key keeps its entries, and a second lookup of the key misses
    whatever the time.  When the entry is not older than the TTL, the lookup
    returns its value, leaves the cache table as it is, sets the last-access
    time of the key and leaves the last-access time of every other key. *)
Theorem cache_get_not_read_only
    (key : cache_key) (now_check now_touch : Q) (st : route_caches)
    (ts : Q) (val : route_result) :
  dict_get key (_route_cache st) = Some (ts, val) ->
  let r := fst (_cache_get key now_check now_touch st) in
  let st' := snd (_cache_get key now_check now_touch st) in
  (ROUTE_CACHE_TTL < now_check - ts ->
   r = None /\
   dict_get key (_route_cache st') = None /\
   dict_get key (_route_cache_access_order st') = None /\
   (forall k, k <> key ->
      dict_get k (_route_cache st') = dict_get k (_route_cache st) /\
      dict_get k (_route_cache_access_order st') =
      dict_get k (_route_cache_access_order st)) /\
   (forall t1 t2, _cache_get key t1 t2 st' = (None, st'))) /\
  (now_check - ts <= ROUTE_CACHE_TTL ->
   r = Some val /\
   _route_cache st' = _route_cache st /\
   dict_get key (_route_cache_access_order st') = Some now_touch /\
   (forall k, k <> key ->
      dict_get k (_route_cache_access_order st') =
      dict_get k (_route_cache_access_order st))).
Proof.
  intros Hget r st'. subst r st'. unfold _cache_get. rewrite Hget. split.
  - intros Hold. apply Qltb_lt in Hold. rewrite Hold. simpl.
    split; [reflexivity|]. split; [apply dict_get_pop_eq|].
    split; [apply dict_get_pop_eq|]. split.
    + intros k Hk. split; apply dict_get_pop_ne; congruence.
    + intros t1 t2. simpl. now rewrite dict_get_pop_eq.
  - intros Hfresh. apply Qltb_ge in Hfresh. rewrite Hfresh. simpl.
    split; [reflexivity|]. split; [reflexivity|].
    split; [apply dict_get_set_eq|].
    intros k Hk. apply dict_get_set_ne. congruence.
Qed.

Definition demo_key : cache_key := (1, 2, 3, 4, 1)%Z.

Definition demo_result : route_result :=
  {| route_coords := [(0, 0); (1, 1)]; eta_min := None; alt_routes := [] |}.

Definition demo_caches : route_caches :=
  {| _route_cache := [(demo_key, (0, demo_result))];
     _route_cache_access_order := [(demo_key, 0)] |}.

Lemma cache_get_not_read_only_witness :
  dict_get demo_key (_route_cache demo_caches) = Some (0, demo_result) /\
  ROUTE_CACHE_TTL < 4000 - 0 /\
  fst (_cache_get demo_key 4000 4000 demo_caches) = None /\
  dict_get demo_key (_route_cache (snd (_cache_get demo_key 4000 4000 demo_caches)))
  = None.
Proof.
  assert (H : dict_get demo_key (_route_cache demo_caches) = Some (0, demo_result))
    by reflexivity.
  assert (Hold : ROUTE_CACHE_TTL < 4000 - 0) by reflexivity.
  split; [exact H|]. split; [exact Hold|].
  destruct (proj1 (cache_get_not_read_only demo_key 4000 4000 demo_caches
                     0 demo_result H) Hold) as (H1 & H2 & _).
  split; [exact H1 | exact H2].
Defined.






(** *** Requests for other routes in between *)

Section OtherRequests.
Variable str_to_float : string -> option Q.
Variable project_graph : MultiDiGraph -> option MultiDiGraph.
Variable compose_all : list MultiDiGraph -> MultiDiGraph.
Variable nearest_nodes : MultiDiGraph -> Q -> Q -> outcome node.
Variable shortest_simple_paths : DiGraph -> node -> node -> outcome (list (list node)).

Definition key_of (q : route_query) : cache_key :=
  _make_cache_key (pickup_lat q) (pickup_lng q) (drop_lat q) (drop_lng q)
                  (alternatives q).

(** The service after a sequence of requests. *)
Definition serve (requests : list (route_query * fs_view * route_clock))
    (s : service) : service :=
  foldl (fun s r =>
           snd (route str_to_float project_graph compose_all nearest_nodes
                  shortest_simple_paths (fst (fst r)) (snd (fst r)) (snd r) s))
        s requests.

Lemma length_dict_pop_le {V : Type} (k : cache_key) (d : list (cache_key * V)) :
  (length (dict_pop k d) <= length d)%nat.
Proof.
  induction d as [|[k' v] r IH]; simpl; [lia|].
  destruct (decide (k = k')); simpl; lia.
Qed.

Lemma length_dict_set_le {V : Type} (k : cache_key) (v : V) (d : list (cache_key * V)) :
  (length (dict_set k v d) <= S (length d))%nat.
Proof.
  induction d as [|[k' v'] r IH]; simpl; [lia|].
  destruct (decide (k = k')); simpl; lia.
Qed.

(** A request for another key, served while the cache is not full, keeps the
    entry of [key] and adds at most one entry. *)
Lemma route_keeps_other_entry key entry q fs clk s :
  key_of q <> key ->
  dict_get key (_route_cache (caches s)) = Some entry ->
  (length (_route_cache (caches s)) < ROUTE_CACHE_MAX)%nat ->
  let s' := snd (route str_to_float project_graph compose_all nearest_nodes
                   shortest_simple_paths q fs clk s) in
  dict_get key (_route_cache (caches s')) = Some entry /\
  (length (_route_cache (caches s')) <= S (length (_route_cache (caches s))))%nat.
Proof.
  intros Hne Hget Hlen. unfold route. fold (key_of q).
  assert (Hc : dict_get key
                 (_route_cache (snd (_cache_get (key_of q) (t_lookup clk)
                                       (t_lookup_touch clk) (caches s))))
               = Some entry /\
               (length (_route_cache (snd (_cache_get (key_of q) (t_lookup clk)
                                             (t_lookup_touch clk) (caches s))))
                <= length (_route_cache (caches s)))%nat).
  { unfold _cache_get. destruct (dict_get (key_of q) _) as [[ts v]|]; [|simpl; split; [exact Hget | lia]].
    destruct (Qltb _ _); simpl.
    - split; [now rewrite dict_get_pop_ne | apply length_dict_pop_le].
    - split; [exact Hget | lia]. }
  destruct (_cache_get (key_of q) (t_lookup clk) (t_lookup_touch clk) (caches s))
    as [[cached|] c]; simpl in Hc; destruct Hc as [Hc1 Hc2].
  - simpl. split; [exact Hc1 | lia].
  - destruct (planner _ _ _ _ _ _ _ _ _ _ _) as [[res|e] g]; cbn [snd caches];
      [|split; [exact Hc1 | lia]].
    unfold _cache_set. destruct (dict_mem (key_of q) (_route_cache c)) eqn:Em.
    + cbn [_route_cache].
      rewrite dict_get_set_ne by exact Hne. split; [exact Hc1|].
      rewrite length_dict_set_present by exact Em. lia.
    + assert (Hroom : (ROUTE_CACHE_MAX <=? length (_route_cache c))%nat = false)
        by (apply Nat.leb_gt; lia).
      rewrite Hroom. cbn [_route_cache].
      rewrite dict_get_set_ne by exact Hne. split; [exact Hc1|].
      pose proof (length_dict_set_le (key_of q) (t_store clk, res) (_route_cache c)).
      lia.
Qed.

Lemma serve_keeps_entry key entry requests s :
  Forall (fun r => key_of (fst (fst r)) <> key) requests ->
  dict_get key (_route_cache (caches s)) = Some entry ->
  (length (_route_cache (caches s)) + length requests <= ROUTE_CACHE_MAX)%nat ->
  dict_get key (_route_cache (caches (serve requests s))) = Some entry.
Proof.
  revert s. induction requests as [|[[q fs] clk] rest IH]; intros s Hall Hget Hlen;
    simpl; [exact Hget|].
  apply Forall_cons in Hall. destruct Hall as [Hq Hall]. simpl in Hq, Hlen.
  destruct (route_keeps_other_entry key entry q fs clk s Hq Hget) as [H1 H2]; [lia|].
  apply IH; [exact Hall | exact H1 | lia].
Qed.

(** The answer to the second of two identical requests is unchanged by the
    requests for other routes served in between, as long as these do not fill
    the cache. *)
Lemma identical_requests_hit_cache_between
    (q : route_query) (fs1 fs2 : fs_view) (clk1 clk2 : route_clock)
    (between : list (route_query * fs_view * route_clock)) (s : service) :
  wf (loaded s) ->
  fst (_cache_get (key_of q) (t_lookup clk1) (t_lookup_touch clk1) (caches s)) = None ->
  t_lookup clk2 - t_store clk1 <= ROUTE_CACHE_TTL ->
  Forall (fun r => key_of (fst (fst r)) <> key_of q) between ->
  (S (length (_route_cache (caches s))) + length between <= ROUTE_CACHE_MAX)%nat ->
  exists res s1 s2,
    route str_to_float project_graph compose_all nearest_nodes
      shortest_simple_paths q fs1 clk1 s
    = (Http200 {| from_cache := false; result := res |}, s1) /\
    route str_to_float project_graph compose_all nearest_nodes
      shortest_simple_paths q fs2 clk2 (serve between s1)
    = (Http200 {| from_cache := true; result := res |}, s2).
Proof.
  intros Hwf Hmiss Hfresh Hother Hroom.
  unfold route at 1. fold (key_of q).
  destruct (_cache_get (key_of q) (t_lookup clk1) (t_lookup_touch clk1) (caches s))
    as [r c] eqn:Eget.
  simpl in Hmiss. subst r.
  destruct (get_route_on_roads_shape str_to_float project_graph compose_all
              MAX_LOADED_COMPOSED nearest_nodes shortest_simple_paths fs1
              (t_load clk1)
              (ArgDict [("lat", pickup_lat q); ("lng", pickup_lng q)])
              (ArgDict [("lat", drop_lat q); ("lng", drop_lng q)])
              (alternatives q) (loaded s) Hwf)
    as (res & g & Eplan & _).
  { eexists; eexists; split; reflexivity. }
  { eexists; eexists; split; reflexivity. }
  unfold planner. rewrite Eplan.
  eexists res, _, _. split; [reflexivity|].
  assert (Hlenc : (length (_route_cache c) <= length (_route_cache (caches s)))%nat).
  { unfold _cache_get in Eget.
    destruct (dict_get (key_of q) (_route_cache (caches s))) as [[ts v]|];
      [|inversion Eget; subst; lia].
    destruct (Qltb _ _); inversion Eget; subst; simpl. apply length_dict_pop_le. }
  match goal with |- context [serve between ?s1] =>
    assert (Hkept : dict_get (key_of q) (_route_cache (caches (serve between s1)))
                    = Some (t_store clk1, res))
  end.
  { apply serve_keeps_entry; [exact Hother | apply cache_set_get |].
    cbn [caches]. unfold _cache_set.
    destruct (dict_mem (key_of q) (_route_cache c)) eqn:Em.
    - cbn [_route_cache]. rewrite length_dict_set_present by exact Em. lia.
    - assert (Hfull : (ROUTE_CACHE_MAX <=? length (_route_cache c))%nat = false)
        by (apply Nat.leb_gt; lia).
      rewrite Hfull. cbn [_route_cache].
      pose proof (length_dict_set_le (key_of q) (t_store clk1, res) (_route_cache c)).
      lia. }
  unfold route. fold (key_of q). unfold _cache_get.
  rewrite Hkept. apply Qltb_ge in Hfresh. rewrite Hfresh. reflexivity.
Qed.

End OtherRequests.

(** ** The live-location hub *)

Lemma lookup_foldl_delete (m : gmap string location_record) (ks : list string) k :
  foldl (fun m k => delete k m) m ks !! k =
  if decide (k ∈ ks) then None else m !! k.
Proof.
  revert m. induction ks as [|k0 r IH]; intros m; simpl.
  - destruct (decide (k ∈ [])) as [H|]; [inversion H | reflexivity].
  - rewrite IH. destruct (decide (k ∈ r)) as [Hr|Hr].
    + rewrite decide_True; [reflexivity | now right].
    + destruct (decide (k = k0)) as [->|Hne].
      * rewrite decide_True by left. apply lookup_delete_eq.
      * rewrite decide_False; [now apply lookup_delete_ne|].
        intros H. apply elem_of_cons in H. tauto.
Qed.

Lemma elem_of_to_remove cutoff (m : gmap string location_record) k :
  k ∈ map fst (List.filter (stale cutoff) (map_to_list m)) <->
  exists r, m !! k = Some r /\ _received_at r < cutoff.
Proof.
  rewrite list_elem_of_In, in_map_iff. split.
  - intros ([k' r] & <- & Hin). apply filter_In in Hin. destruct Hin as [Hin Hs].
    apply list_elem_of_In, elem_of_map_to_list in Hin.
    exists r. split; [exact Hin|]. now apply Qltb_lt.
  - intros (r & Hm & Hlt). exists (k, r). split; [reflexivity|].
    apply filter_In. split.
    + now apply list_elem_of_In, elem_of_map_to_list.
    + now apply Qltb_lt.
Qed.

(** C9.  After [cleanup_last_known] at time [now], a record received more
    than the retention window (6 hours) before [now] is absent, and a record
    received within the window is still there, unchanged.  The pass reads
    only the last-known table: hubs with the same table and any driver
    channels are cleaned alike, the channels are not touched, and
    [disconnect_driver] leaves the last-known table as it is. *)
Theorem cleanup_prunes_by_receipt_time
    (now : Q) (h : hub) (k : string) (r : location_record) :
  last_known h !! k = Some r ->
  (_received_at r < now - LOCATION_RETENTION_SECONDS ->
   last_known (cleanup_last_known now h) !! k = None) /\
  (now - LOCATION_RETENTION_SECONDS <= _received_at r ->
   last_known (cleanup_last_known now h) !! k = Some r) /\
  (forall h', last_known h' = last_known h ->
     last_known (cleanup_last_known now h') = last_known (cleanup_last_known now h)) /\
  _drivers (cleanup_last_known now h) = _drivers h /\
  (forall d, last_known (disconnect_driver d h) = last_known h /\
             last_known (cleanup_last_known now (disconnect_driver d h)) =
             last_known (cleanup_last_known now h)).
Proof.
  intros Hk. unfold cleanup_last_known. simpl.
  split; [|split; [|split; [|split]]].
  - intros Hold. rewrite lookup_foldl_delete, decide_True; [reflexivity|].
    apply elem_of_to_remove. eauto.
  - intros Hnew. rewrite lookup_foldl_delete, decide_False; [exact Hk|].
    intros Hin. apply elem_of_to_remove in Hin. destruct Hin as (r' & Hr' & Hlt).
    rewrite Hk in Hr'. inversion Hr'; subst r'. lra.
  - intros h' ->. reflexivity.
  - reflexivity.
  - intros d. split; reflexivity.
Qed.

Definition demo_record (received : Q) : location_record :=
  {| lk_lat := 56 # 10; lk_lng := -18 # 100; lk_ts := VNum received;
     lk_meta := VDict []; _received_at := received |}.

(** Driver D1 reported seven hours ago and has disconnected; driver D2
    reported one hour ago and is connected. *)
Definition demo_hub : hub :=
  {| _drivers := {[ "D2" := 2%nat ]};
     _monitors := ∅;
     last_known := {[ "D1" := demo_record 0; "D2" := demo_record 21600 ]};
     broadcasts := [] |}.

Lemma cleanup_prunes_by_receipt_time_witness :
  last_known demo_hub !! "D1" = Some (demo_record 0) /\
  _received_at (demo_record 0) < 25200 - LOCATION_RETENTION_SECONDS /\
  last_known (cleanup_last_known 25200 demo_hub) !! "D1" = None.
Proof.
  assert (H : last_known demo_hub !! "D1" = Some (demo_record 0))
    by (vm_compute; reflexivity).
  assert (Hold : _received_at (demo_record 0) < 25200 - LOCATION_RETENTION_SECONDS)
    by reflexivity.
  split; [exact H|]. split; [exact Hold|].
  exact (proj1 (cleanup_prunes_by_receipt_time 25200 demo_hub "D1"
                  (demo_record 0) H) Hold).
Defined.

(** A message that lacks [lat] or [lng] is skipped: the hub is unchanged and
    the loop goes on. *)
Lemma message_without_coordinates_ignored
    (str_to_float : string -> option Q) (driver_id : string)
    (d : list (string * pyval)) (t_default t_recv : Q) (h : hub) :
  dict_mem "lat" d = false \/ dict_mem "lng" d = false ->
  ws_driver_step str_to_float driver_id (RecvJson (VDict d)) t_default t_recv h
  = (Running, h).
Proof.
  intros H. unfold ws_driver_step, handle_message, bind, py_in.
  destruct (dict_mem "lat" d); [|reflexivity].
  destruct H as [H|H]; [discriminate|]. now rewrite H.
Qed.

(** A message with numeric [lat] and [lng] is recorded under the driver's
    id, with [ts] defaulting to the time of receipt and [meta] to the empty
    dict, and is handed to the monitors; the channel stays registered. *)
Lemma numeric_location_recorded
    (str_to_float : string -> option Q) (driver_id : string)
    (d : list (string * pyval)) (lat_v lng_v : pyval) (lat lng : Q)
    (t_default t_recv : Q) (h : hub) :
  dict_get "lat" d = Some lat_v ->
  dict_get "lng" d = Some lng_v ->
  py_float str_to_float lat_v = Ok lat ->
  py_float str_to_float lng_v = Ok lng ->
  let r := ws_driver_step str_to_float driver_id (RecvJson (VDict d))
             t_default t_recv h in
  fst r = Running /\
  last_known (snd r) !! driver_id =
    Some {| lk_lat := lat; lk_lng := lng;
            lk_ts := get_or d "ts" (VNum t_default);
            lk_meta := get_or d "meta" (VDict []);
            _received_at := t_recv |} /\
  broadcasts (snd r) =
    broadcasts h ++ [{| p_driver_id := driver_id; p_lat := lat; p_lng := lng;
                        p_ts := get_or d "ts" (VNum t_default);
                        p_meta := get_or d "meta" (VDict []) |}] /\
  _drivers (snd r) = _drivers h.
Proof.
  intros Hlat Hlng Hf1 Hf2 r. subst r.
  unfold ws_driver_step, handle_message, bind, py_in, py_getitem, py_get, dict_mem.
  rewrite Hlat, Hlng. simpl. rewrite Hf1, Hf2. simpl.
  repeat split. apply lookup_insert_eq.
Qed.





(* ================================================================== *)
(** * Further properties of the two services *)
(* ================================================================== *)

(** ** The order of [sorted] on strings *)

Lemma ascii_compare_lt_trans (a b c : ascii) :
  Ascii.compare a b = Lt -> Ascii.compare b c = Lt -> Ascii.compare a c = Lt.
Proof.
  unfold Ascii.compare. rewrite !N.compare_lt_iff. lia.
Qed.

Lemma string_compare_lt_trans (s t u : string) :
  String.compare s t = Lt -> String.compare t u = Lt -> String.compare s u = Lt.
Proof.
  revert t u. induction s as [|a s IH]; intros [|b t] [|c u]; simpl;
    try discriminate; try reflexivity.
  destruct (Ascii.compare a b) eqn:Eab; try discriminate;
    destruct (Ascii.compare b c) eqn:Ebc; try discriminate; intros H1 H2.
  - apply Ascii.compare_eq_iff in Eab, Ebc. subst.
    assert (Ascii.compare c c = Eq) as ->
      by (unfold Ascii.compare; apply N.compare_refl).
    eauto.
  - apply Ascii.compare_eq_iff in Eab. subst. now rewrite Ebc.
  - apply Ascii.compare_eq_iff in Ebc. subst. now rewrite Eab.
  - now rewrite (ascii_compare_lt_trans a b c).
Qed.

Lemma str_le_cases (s t : string) :
  str_le s t <-> String.compare s t = Lt \/ s = t.
Proof.
  unfold str_le, String.leb. split.
  - destruct (String.compare s t) eqn:E; [|now left|discriminate].
    right. now apply String.compare_eq_iff.
  - intros [->| ->]; [reflexivity|].
    assert (String.compare t t = Eq) as ->; [|reflexivity].
    induction t as [|a t IH]; simpl; [reflexivity|].
    assert (Ascii.compare a a = Eq) as ->
      by (unfold Ascii.compare; apply N.compare_refl).
    exact IH.
Qed.

#[export] Instance str_le_trans : Transitive str_le.
Proof.
  intros s t u. rewrite !str_le_cases.
  intros [H1| ->] [H2| ->]; auto.
  left. eapply string_compare_lt_trans; eassumption.
Qed.

#[export] Instance str_le_antisym : AntiSymm eq str_le.
Proof.
  intros s t H1 H2. now apply String.leb_antisym.
Qed.

(** Sorting forgets the order of its input. *)
Lemma sorted_strings_Permutation (l1 l2 : list string) :
  l1 ≡ₚ l2 -> sorted_strings l1 = sorted_strings l2.
Proof.
  intros H. apply (Sorted_unique str_le); try apply sorted_strings_Sorted.
  unfold sorted_strings. now rewrite !merge_sort_Permutation.
Qed.

(** A sorted list is left as it is. *)
Lemma sorted_strings_sorted (l : list string) :
  Sorted str_le l -> sorted_strings l = l.
Proof.
  intros H. apply (Sorted_unique str_le); [apply sorted_strings_Sorted | exact H |].
  unfold sorted_strings. apply merge_sort_Permutation.
Qed.

(** ** Region selection: what the result can contain *)







(** ** The key of the graph cache *)

Definition sanitize (s : string) : string :=
  replace_char " " "_" (replace_char ":" "_" (replace_char "/" "_" s)).

Lemma replace_char_removes (a b : ascii) (s : string) :
  a <> b -> ~ In a (list_ascii_of_string (replace_char a b s)).
Proof.
  intros Hne. induction s as [|c s IH]; simpl; [tauto|].
  intros [H|H]; [|contradiction].
  destruct (decide (c = a)); congruence.
Qed.

Lemma replace_char_keeps_out (a b c : ascii) (s : string) :
  b <> c -> ~ In c (list_ascii_of_string s) ->
  ~ In c (list_ascii_of_string (replace_char a b s)).
Proof.
  intros Hne. induction s as [|x s IH]; simpl; [tauto|].
  intros Hs [H|H]; [|tauto].
  destruct (decide (x = a)); [congruence | tauto].
Qed.

Lemma replace_char_idem (a b : ascii) (s : string) :
  a <> b -> replace_char a b (replace_char a b s) = replace_char a b s.
Proof.
  intros Hne. induction s as [|c s IH]; simpl; [reflexivity|].
  rewrite IH. f_equal.
  destruct (decide (c = a)) as [->|Hc].
  - rewrite decide_False by congruence. reflexivity.
  - rewrite decide_False by exact Hc. reflexivity.
Qed.

Lemma cache_key_single (p : string) : _cache_key_for_paths [p] = sanitize p.
Proof.
  unfold _cache_key_for_paths, sanitize.
  rewrite sorted_strings_sorted by (repeat constructor). reflexivity.
Qed.

(** X2.  The cache key of a list of region files does not depend on their
    order, and it contains no path separator, colon or space.  It is not
    injective: a single path and the same path with its spaces already
    replaced by underscores get the same key, so the two files would share
    one cache entry. *)
Theorem cache_key_for_paths_facts (paths : list string) :
  (forall paths', paths ≡ₚ paths' ->
     _cache_key_for_paths paths' = _cache_key_for_paths paths) /\
  (forall c, In c (list_ascii_of_string (_cache_key_for_paths paths)) ->
     c <> "/"%char /\ c <> ":"%char /\ c <> " "%char) /\
  (forall p, _cache_key_for_paths [replace_char " " "_" p] = _cache_key_for_paths [p]).
Proof.
  split; [|split].
  - intros paths' Hperm. unfold _cache_key_for_paths.
    now rewrite (sorted_strings_Permutation paths paths').
  - intros c Hc. unfold _cache_key_for_paths in Hc.
    set (base := String.concat "|" (sorted_strings paths)) in Hc.
    repeat split; intros ->; revert Hc.
    + apply replace_char_keeps_out; [discriminate|].
      apply replace_char_keeps_out; [discriminate|].
      apply replace_char_removes. discriminate.
    + apply replace_char_keeps_out; [discriminate|].
      apply replace_char_removes. discriminate.
    + apply replace_char_removes. discriminate.
  - intros p. rewrite !cache_key_single. unfold sanitize.
    assert (Hcomm : forall a b s, a <> "_"%char -> b <> "_"%char ->
              replace_char a "_" (replace_char b "_" s) =
              replace_char b "_" (replace_char a "_" s)).
    { intros a b s Ha Hb. induction s as [|c s IH]; simpl; [reflexivity|].
      rewrite IH. f_equal. repeat case_decide; congruence. }
    rewrite (Hcomm "/"%char " "%char) by discriminate.
    rewrite (Hcomm ":"%char " "%char) by discriminate.
    rewrite replace_char_idem by discriminate.
    rewrite <- (Hcomm ":"%char " "%char) by discriminate.
    rewrite <- (Hcomm "/"%char " "%char) by discriminate.
    reflexivity.
Qed.

Lemma cache_key_for_paths_facts_witness :
  ["data/b.graphml"; "data/a.graphml"] ≡ₚ ["data/a.graphml"; "data/b.graphml"] /\
  _cache_key_for_paths ["data/a.graphml"; "data/b.graphml"] =
  _cache_key_for_paths ["data/b.graphml"; "data/a.graphml"].
Proof.
  assert (H : ["data/b.graphml"; "data/a.graphml"] ≡ₚ
              ["data/a.graphml"; "data/b.graphml"]) by apply Permutation_swap.
  split; [exact H|].
  exact (proj1 (cache_key_for_paths_facts ["data/b.graphml"; "data/a.graphml"]) _ H).
Defined.

(** ** Loading and caching composed graphs *)

Lemma dict_set_absent_app {V : Type} (k : string) (v : V) (d : list (string * V)) :
  dict_get k d = None -> dict_set k v d = d ++ [(k, v)].
Proof.
  induction d as [|[k' v'] r IH]; simpl; [reflexivity|].
  destruct (decide (k = k')); [discriminate|]. intros H. now rewrite IH.
Qed.

Lemma insert_by_app_last {A : Type} (key : A -> Q) (a x : A) (s : list A) :
  key a <= key x ->
  insert_by key a (s ++ [x]) = insert_by key a s ++ [x].
Proof.
  intros Hle. induction s as [|y s IH]; simpl.
  - apply Qle_bool_iff in Hle. now rewrite Hle.
  - destruct (Qle_bool (key a) (key y)); [reflexivity|]. now rewrite IH.
Qed.

(** An entry at the end of the dict that is at least as recent as all others
    is the last one in the order of eviction. *)
Lemma sorted_by_app_last {A : Type} (key : A -> Q) (x : A) (l : list A) :
  (forall y, y ∈ l -> key y <= key x) ->
  sorted_by key (l ++ [x]) = sorted_by key l ++ [x].
Proof.
  induction l as [|a l IH]; intros Hall; [reflexivity|].
  simpl. rewrite IH by (intros y Hy; apply Hall; now right).
  apply insert_by_app_last. apply Hall. left.
Qed.

Section LoadFacts.
Variable str_to_float : string -> option Q.
Variable project_graph : MultiDiGraph -> option MultiDiGraph.
Variable compose_all : list MultiDiGraph -> MultiDiGraph.
Variable max_loaded : nat.

Abbreviation load := (load_composed_subgraph_for_paths str_to_float project_graph
                        compose_all max_loaded).

(** Inserting a new, most recent entry and evicting keeps that entry. *)
Lemma new_entry_survives (key : string) (now : Q) (g : graphs) (cache : loaded_cache) :
  wf cache -> (1 <= max_loaded)%nat ->
  dict_get key cache = None ->
  (forall e, e ∈ cache -> timestamp e <= now) ->
  exists evicted cache',
    _evict_if_needed max_loaded (dict_set key (now, g) cache) = (Ok evicted, cache') /\
    dict_get key cache' = Some (now, g) /\
    (length cache' <= max_loaded)%nat.
Proof.
  intros Hwf Hcap Habs Hts.
  destruct (_evict_if_needed_spec max_loaded (dict_set key (now, g) cache)
              (wf_dict_set key (now, g) cache Hwf)) as (E & Hlen & _).
  eexists _, _. split; [exact E|]. split; [|rewrite Hlen; lia].
  rewrite dict_get_pops, dict_get_set_eq.
  rewrite decide_False; [reflexivity|].
  rewrite dict_set_absent_app by exact Habs.
  rewrite sorted_by_app_last by (intros y Hy; apply (Hts y Hy)).
  rewrite length_app. simpl.
  rewrite take_app_le by (rewrite length_sorted_by; lia).
  intros Hin. unfold keys in Hin. apply list_elem_of_fmap in Hin.
  destruct Hin as ([k' v'] & Hk & Hin). simpl in Hk. subst k'.
  apply elem_of_take in Hin. destruct Hin as (i & Hi & _).
  apply list_elem_of_lookup_2 in Hi.
  apply list_elem_of_In, sorted_by_In in Hi.
  apply dict_get_None_keys in Habs. apply Habs.
  unfold keys. apply in_map_iff. exists (key, v'). auto.
Qed.

Lemma load_hit
    (fs : fs_view) (now : Q) (paths paths' : list string) (persist : bool)
    (cache : loaded_cache) (ts : Q) (g : graphs) :
  paths ≡ₚ paths' ->
  dict_get (_cache_key_for_paths paths) cache = Some (ts, g) ->
  let key := _cache_key_for_paths paths in
  let r := load fs now paths' persist cache in
  fst r = Ok g /\
  dict_get key (snd r) = Some (now, g) /\
  length (snd r) = length cache /\
  keys (snd r) = keys cache /\
  (forall k, k <> key -> dict_get k (snd r) = dict_get k cache).
Proof.
  intros Hperm Hget key r. subst r.
  unfold load_composed_subgraph_for_paths.
  assert (Hkey : _cache_key_for_paths (sorted_strings paths') = key).
  { subst key. unfold _cache_key_for_paths.
    rewrite (sorted_strings_sorted (sorted_strings paths'))
      by apply sorted_strings_Sorted.
    now rewrite (sorted_strings_Permutation paths paths'). }
  rewrite Hkey. fold key in Hget. rewrite Hget. simpl.
  assert (Hmem : dict_mem key cache = true) by (unfold dict_mem; now rewrite Hget).
  split; [reflexivity|]. split; [apply dict_get_set_eq|].
  split; [now apply length_dict_set_present|]. split.
  - apply keys_dict_set_present. apply dict_get_Some_In in Hget.
    unfold keys. apply in_map_iff. exists (key, (ts, g)). auto.
  - intros k Hk. apply dict_get_set_ne. congruence.
Qed.

(** X3.  A path set whose key is in the memory cache is served from it: the
    call returns the cached graphs whatever the file system holds and in
    whatever order the paths are given, refreshes only the timestamp of that
    entry, and leaves the number of entries and every other entry as they
    are. *)
Theorem load_memory_hit
    (fs : fs_view) (now : Q) (paths paths' : list string) (persist : bool)
    (cache : loaded_cache) (ts : Q) (g : graphs) :
  paths ≡ₚ paths' ->
  dict_get (_cache_key_for_paths paths) cache = Some (ts, g) ->
  let key := _cache_key_for_paths paths in
  let r := load fs now paths' persist cache in
  fst r = Ok g /\
  dict_get key (snd r) = Some (now, g) /\
  length (snd r) = length cache /\
  keys (snd r) = keys cache /\
  (forall k, k <> key -> dict_get k (snd r) = dict_get k cache).
Proof.
  exact (load_hit fs now paths paths' persist cache ts g).
Qed.

(** X4.  With a capacity of at least one and a clock that has not gone back,
    a load that produces graphs leaves them in the memory cache under the key
    of the path set, stamped with the time of the call; so the next load of
    these paths is a memory hit.  A load that finds no persisted copy and
    cannot read any region file returns [(None, None, None)] and leaves the
    cache as it is. *)
Theorem load_caches_what_it_built
    (fs : fs_view) (now : Q) (paths : list string) (persist : bool)
    (cache : loaded_cache) :
  wf cache -> (1 <= max_loaded)%nat ->
  (forall e, e ∈ cache -> timestamp e <= now) ->
  let key := _cache_key_for_paths paths in
  let r := load fs now paths persist cache in
  (forall g, fst r = Ok g -> g <> (None, None, None) ->
     dict_get key (snd r) = Some (now, g) /\
     (forall fs' now' persist',
        fst (load fs' now' paths persist' (snd r)) = Ok g)) /\
  (dict_get key cache = None ->
   fs_persisted fs key = None ->
   (forall p, p ∈ paths -> fs_graphml fs p = None) ->
   r = (Ok (None, None, None), cache)).
Proof.
  intros Hwf Hcap Hts key r.
  assert (Hkey : _cache_key_for_paths (sorted_strings paths) = key).
  { subst key. unfold _cache_key_for_paths.
    now rewrite (sorted_strings_sorted (sorted_strings paths))
      by apply sorted_strings_Sorted. }
  assert (Hk0 : key = _cache_key_for_paths paths) by reflexivity.
  clearbody key.
  assert (Hcompose : forall c, wf c -> dict_get key c = None ->
            (forall e, e ∈ c -> timestamp e <= now) ->
            forall g,
              fst (compose_and_cache str_to_float project_graph compose_all
                     max_loaded fs now (sorted_strings paths) key c) = Ok g ->
              g <> (None, None, None) ->
              dict_get key (snd (compose_and_cache str_to_float project_graph
                                   compose_all max_loaded fs now
                                   (sorted_strings paths) key c)) = Some (now, g)).
  { intros c Hc Habs Hcts g. unfold compose_and_cache.
    destruct (omap (fs_graphml fs) (sorted_strings paths)) as [|g0 rest].
    - simpl. intros H. inversion H. congruence.
    - cbv zeta.
      match goal with |- context [_evict_if_needed _ (dict_set key (now, ?v) c)] =>
        destruct (new_entry_survives key now v c Hc Hcap Habs Hcts)
          as (ev & c' & E & Hg & _)
      end.
      match goal with |- context [_evict_if_needed ?m ?d] =>
        destruct (_evict_if_needed m d) as [o c''] eqn:E0
      end.
      assert (E1 : (o, c'') = (Ok ev, c')) by (rewrite <- E0; exact E).
      inversion E1; subst. simpl. intros H _. inversion H; subst. exact Hg. }
  split.
  - intros g Hg Hne.
    assert (Hin : dict_get key (snd r) = Some (now, g)).
    { subst r. revert Hg. unfold load_composed_subgraph_for_paths. rewrite Hkey.
      destruct (dict_get key cache) as [[ts g']|] eqn:Eget.
      - simpl. intros H. inversion H; subst. apply dict_get_set_eq.
      - destruct (fs_persisted fs key) as [[Gs Gu]|];
          [|intros H; now apply Hcompose].
        destruct (project_graph Gu) as [Gp|]; [|intros H; now apply Hcompose].
        cbv zeta.
        match goal with |- context [_evict_if_needed _ (dict_set key (now, ?v) cache)] =>
          destruct (new_entry_survives key now v cache Hwf Hcap Eget Hts)
            as (ev & c' & E & Hg' & _)
        end.
        match goal with |- context [_evict_if_needed ?m ?d] =>
          destruct (_evict_if_needed m d) as [o c''] eqn:E0
        end.
        assert (E1 : (o, c'') = (Ok ev, c')) by (rewrite <- E0; exact E).
        inversion E1; subst. simpl. intros H. inversion H; subst. exact Hg'. }
    split; [exact Hin|]. intros fs' now' persist'. rewrite Hk0 in Hin.
    exact (proj1 (load_hit fs' now' paths paths persist' (snd r) now g
                    (Permutation_refl _) Hin)).
  - intros Habs Hpers Hnone. subst r.
    unfold load_composed_subgraph_for_paths. rewrite Hkey, Habs, Hpers.
    unfold compose_and_cache.
    assert (omap (fs_graphml fs) (sorted_strings paths) = []) as ->; [|reflexivity].
    destruct (omap (fs_graphml fs) (sorted_strings paths)) as [|g0 rest] eqn:E;
      [reflexivity|].
    assert (Hg0 : g0 ∈ omap (fs_graphml fs) (sorted_strings paths))
      by (rewrite E; left).
    apply list_elem_of_omap in Hg0. destruct Hg0 as (p & Hp & Hload).
    rewrite elem_of_sorted_strings in Hp. rewrite (Hnone p Hp) in Hload. discriminate.
Qed.

End LoadFacts.

Definition road_graphs : graphs := (Some road_demo, Some road_demo, None).

Definition one_loaded : loaded_cache :=
  [(_cache_key_for_paths ["data/Accra.graphml"; "data/Kumasi.graphml"], (5, road_graphs))].

Definition offline_fs : fs_view :=
  {| fs_index := demo_index;
     fs_persisted := fun _ => None;
     fs_graphml := fun _ => None |}.

Lemma load_memory_hit_witness :
  ["data/Accra.graphml"; "data/Kumasi.graphml"] ≡ₚ
  ["data/Kumasi.graphml"; "data/Accra.graphml"] /\
  fst (load_composed_subgraph_for_paths no_text_floats demo_project demo_compose
         MAX_LOADED_COMPOSED offline_fs 9
         ["data/Kumasi.graphml"; "data/Accra.graphml"] true one_loaded)
  = Ok road_graphs.
Proof.
  assert (H : ["data/Accra.graphml"; "data/Kumasi.graphml"] ≡ₚ
              ["data/Kumasi.graphml"; "data/Accra.graphml"]) by apply Permutation_swap.
  split; [exact H|].
  refine (proj1 (load_memory_hit no_text_floats demo_project demo_compose
                   MAX_LOADED_COMPOSED offline_fs 9
                   ["data/Accra.graphml"; "data/Kumasi.graphml"]
                   ["data/Kumasi.graphml"; "data/Accra.graphml"] true one_loaded
                   5 road_graphs H _)).
  unfold one_loaded. apply dict_get_set_eq with (d := []).
Defined.

Lemma load_caches_what_it_built_witness :
  wf ([] : loaded_cache) /\ (1 <= MAX_LOADED_COMPOSED)%nat /\
  load_composed_subgraph_for_paths no_text_floats demo_project demo_compose
    MAX_LOADED_COMPOSED offline_fs 9 ["data/Accra.graphml"] true []
  = (Ok (None, None, None), []).
Proof.
  split; [apply wf_nil|]. split; [unfold MAX_LOADED_COMPOSED; lia|].
  refine (proj2 (load_caches_what_it_built no_text_floats demo_project demo_compose
                   MAX_LOADED_COMPOSED offline_fs 9 ["data/Accra.graphml"] true []
                   wf_nil _ _) eq_refl eq_refl _).
  - unfold MAX_LOADED_COMPOSED. lia.
  - intros e He. inversion He.
  - reflexivity.
Defined.

(** ** The edge data read by the ETA loop *)

Section EdgeFacts.
Variable str_to_float : string -> option Q.

(** The usable length of an edge's data: present, not [None], accepted by
    [float]. *)
Definition usable_length (attr : attrs) : option Q :=
  let ln := get_or attr "length" VNone in
  if is_none ln then None else try_float str_to_float ln.

Definition shortest_inv (seen : list (Z * attrs)) (acc : option attrs * option Q) : Prop :=
  match snd acc with
  | None => fst acc = None /\ forall ka, ka ∈ seen -> usable_length (snd ka) = None
  | Some l =>
      exists a, fst acc = Some a /\ a ∈ map snd seen /\ usable_length a = Some l /\
                forall ka l', ka ∈ seen -> usable_length (snd ka) = Some l' -> l <= l'
  end.

Lemma shorter_edge_inv seen acc ka :
  shortest_inv seen acc ->
  shortest_inv (seen ++ [ka]) (shorter_edge str_to_float acc ka).
Proof.
  unfold shortest_inv, shorter_edge. fold (usable_length (snd ka)).
  destruct acc as [best best_len]. simpl.
  destruct (usable_length (snd ka)) as [l|] eqn:El.
  - destruct best_len as [bl|]; simpl.
    + intros (a & Ha & Hin & Hu & Hmin).
      destruct (Qltb l bl) eqn:Elt; simpl.
      * apply Qltb_lt in Elt. exists (snd ka). split; [reflexivity|].
        split; [rewrite map_app; apply elem_of_app; right; left|].
        split; [exact El|]. intros ka' l' Hka' Hl'.
        apply elem_of_app in Hka'. destruct Hka' as [Hs|Hs].
        -- specialize (Hmin ka' l' Hs Hl'). lra.
        -- apply list_elem_of_singleton in Hs. subst ka'.
           rewrite El in Hl'. inversion Hl'. lra.
      * apply Qltb_ge in Elt. exists a. split; [exact Ha|].
        split; [rewrite map_app; apply elem_of_app; now left|].
        split; [exact Hu|]. intros ka' l' Hka' Hl'.
        apply elem_of_app in Hka'. destruct Hka' as [Hs|Hs]; [eauto|].
        apply list_elem_of_singleton in Hs. subst ka'.
        rewrite El in Hl'. inversion Hl'; subst. exact Elt.
    + intros [_ Hnone]. exists (snd ka). split; [reflexivity|].
      split; [rewrite map_app; apply elem_of_app; right; left|].
      split; [exact El|]. intros ka' l' Hka' Hl'.
      apply elem_of_app in Hka'. destruct Hka' as [Hs|Hs].
      * rewrite (Hnone ka' Hs) in Hl'. discriminate.
      * apply list_elem_of_singleton in Hs. subst ka'.
        rewrite El in Hl'. inversion Hl'. lra.
  - destruct best_len as [bl|]; simpl.
    + intros (a & Ha & Hin & Hu & Hmin). exists a. split; [exact Ha|].
      split; [rewrite map_app; apply elem_of_app; now left|].
      split; [exact Hu|]. intros ka' l' Hka' Hl'.
      apply elem_of_app in Hka'. destruct Hka' as [Hs|Hs]; [eauto|].
      apply list_elem_of_singleton in Hs. subst ka'. congruence.
    + intros [Hb Hnone]. split; [exact Hb|]. intros ka' Hka'.
      apply elem_of_app in Hka'. destruct Hka' as [Hs|Hs]; [eauto|].
      apply list_elem_of_singleton in Hs. now subst ka'.
Qed.

Lemma shortest_fold eds :
  shortest_inv eds (foldl (shorter_edge str_to_float) (None, None) eds).
Proof.
  induction eds as [|ka r IH] using rev_ind.
  - simpl. split; [reflexivity|]. intros ka H. inversion H.
  - rewrite foldl_app. simpl. now apply shorter_edge_inv.
Qed.

Lemma edge_first_data_min (G : MultiDiGraph) (u v : node) ka l :
  ka ∈ get_edge_data G u v -> usable_length (snd ka) = Some l ->
  exists la, usable_length (_edge_first_data str_to_float G u v) = Some la /\
             la <= l /\
             la ∈ omap (fun ka : Z * attrs => usable_length (snd ka))
                       (get_edge_data G u v).
Proof.
  intros Hka Hl. unfold _edge_first_data.
  pose proof (shortest_fold (get_edge_data G u v)) as Hinv. unfold shortest_inv in Hinv.
  destruct (get_edge_data G u v) as [|[k0 first] rest] eqn:E; [inversion Hka|].
  destruct (foldl (shorter_edge str_to_float) (None, None) ((k0, first) :: rest))
    as [best bl].
  cbn [fst snd] in Hinv. cbn [fst]. destruct bl as [l0|].
  - destruct Hinv as (a & -> & Hin & Hu & Hmin).
    exists l0. split; [exact Hu|]. split; [eauto|].
    apply list_elem_of_fmap in Hin. destruct Hin as (ka' & -> & Hka').
    apply list_elem_of_omap. eauto.
  - destruct Hinv as [_ Hnone]. rewrite (Hnone ka Hka) in Hl. discriminate.
Qed.

(** X5.  [_edge_first_data] answers with the empty dict when there is no edge
    from [u] to [v]; otherwise with the data of one of the parallel edges.
    When some parallel edge has a usable length, the chosen edge has one too
    and none has a smaller one; when none has, it is the first edge. *)
Theorem edge_first_data_shortest (G : MultiDiGraph) (u v : node) :
  let eds := get_edge_data G u v in
  let a := _edge_first_data str_to_float G u v in
  (eds = [] -> a = []) /\
  (eds <> [] -> a ∈ map snd eds) /\
  (forall ka l, ka ∈ eds -> usable_length (snd ka) = Some l ->
     exists la, usable_length a = Some la /\ la <= l) /\
  ((forall ka, ka ∈ eds -> usable_length (snd ka) = None) ->
   Some a = snd <$> head eds \/ eds = []).
Proof.
  intros eds a. subst a. unfold _edge_first_data. fold eds.
  pose proof (shortest_fold eds) as Hinv. unfold shortest_inv in Hinv.
  destruct eds as [|[k0 first] rest] eqn:E.
  - split; [reflexivity|]. split; [congruence|]. split.
    + intros ka l H. inversion H.
    + now right.
  - rewrite <- E in *.
    destruct (foldl (shorter_edge str_to_float) (None, None) eds) as [best bl].
    simpl in Hinv. simpl fst.
    split; [rewrite E; discriminate|].
    destruct bl as [l0|].
    + destruct Hinv as (a & -> & Hin & Hu & Hmin).
      split; [intros _; exact Hin|]. split.
      * intros ka l Hka Hl. exists l0. split; [exact Hu | eauto].
      * intros Hnone. exfalso.
        apply list_elem_of_fmap in Hin. destruct Hin as (ka & -> & Hka).
        rewrite (Hnone ka Hka) in Hu. discriminate.
    + destruct Hinv as [-> Hnone].
      split; [intros _; rewrite E; left|]. split.
      * intros ka l Hka Hl. rewrite (Hnone ka Hka) in Hl. discriminate.
      * intros _. left. rewrite E. reflexivity.
Qed.

Lemma usable_lengths_get_edge_data (G : MultiDiGraph) (u v : node) :
  usable_lengths str_to_float "length" (mg_edges G) u v =
  omap (fun ka : Z * attrs => usable_length (snd ka)) (get_edge_data G u v).
Proof.
  unfold usable_lengths, get_edge_data.
  induction (mg_edges G) as [|[[[u' v'] k] data] r IH]; simpl; [reflexivity|].
  destruct (decide ((u', v') = (u, v))); simpl; [|exact IH].
  unfold usable_length. simpl.
  destruct (is_none _); [exact IH|].
  destruct (try_float _ _); [f_equal; exact IH | exact IH].
Qed.

Lemma length_parallel_get_edge_data (G : MultiDiGraph) (u v : node) :
  length (parallel_weights str_to_float "length" (mg_edges G) u v) =
  length (get_edge_data G u v).
Proof.
  unfold parallel_weights, get_edge_data.
  induction (mg_edges G) as [|[[[u' v'] k] data] r IH]; simpl; [reflexivity|].
  destruct (decide ((u', v') = (u, v))); simpl; [f_equal|]; exact IH.
Qed.

Lemma edge_length_m_usable (attr : attrs) (l : Q) :
  usable_length attr = Some l -> edge_length_m str_to_float attr = l.
Proof.
  unfold usable_length, edge_length_m, get_or, try_float.
  destruct (dict_get "length" attr) as [w|]; simpl; [|discriminate].
  destruct (is_none w); [discriminate|].
  destruct (py_float str_to_float w); congruence.
Qed.

(** X6.  Search weight and ETA length agree on well-formed data: when every
    parallel edge from [u] to [v] has a usable length, the length the ETA loop
    reads for the pair equals the weight of the pair in the simplified graph
    built from the same graph. *)
Theorem eta_length_matches_search_weight (G : MultiDiGraph) (u v : node) (w : Q) :
  (forall ka, ka ∈ get_edge_data G u v -> usable_length (snd ka) <> None) ->
  edge_weight (_multigraph_to_simple_digraph_min str_to_float G "length") u v = Some w ->
  edge_length_m str_to_float (_edge_first_data str_to_float G u v) == w.
Proof.
  intros Hall Hw. unfold edge_weight in Hw. simpl in Hw.
  pose proof (simplify_inv str_to_float "length" (mg_edges G) u v) as Hinv.
  destruct (dict_get (u, v) _) as [e|]; [|discriminate].
  simpl in Hw. inversion Hw; subst w. clear Hw. destruct Hinv as [Hin Hmin].
  assert (Hlen : length (usable_lengths str_to_float "length" (mg_edges G) u v) =
                 length (parallel_weights str_to_float "length" (mg_edges G) u v)).
  { rewrite usable_lengths_get_edge_data, length_parallel_get_edge_data.
    induction (get_edge_data G u v) as [|ka r IH]; [reflexivity|].
    simpl. destruct (usable_length (snd ka)) eqn:Eu.
    - simpl. f_equal. apply IH. intros ka' Hk. apply Hall. now right.
    - exfalso. apply (Hall ka); [left | exact Eu]. }
  apply usable_lengths_all in Hlen. rewrite Hlen in Hin, Hmin.
  rewrite usable_lengths_get_edge_data in Hin, Hmin.
  apply list_elem_of_omap in Hin. destruct Hin as (ka & Hka & Hu).
  destruct (edge_first_data_min G u v ka (weight e) Hka Hu) as (la & Ha & Hle & Hla).
  rewrite (edge_length_m_usable _ la Ha).
  rewrite Forall_forall in Hmin. specialize (Hmin la Hla). lra.
Qed.

End EdgeFacts.

(** Two parallel edges from 1 to 2, of 5000 m and of 2000 m. *)
Definition twin_demo : MultiDiGraph :=
  {| mg_nodes := [(1%Z, []); (2%Z, [])];
     mg_edges := [(1%Z, 2%Z, 0%Z, [("length", VNum 5000)]);
                  (1%Z, 2%Z, 1%Z, [("length", VNum 2000)])] |}.

Lemma edge_first_data_shortest_witness :
  (1%Z, [("length", VNum 2000)]) ∈ get_edge_data twin_demo 1%Z 2%Z /\
  usable_length no_text_floats [("length", VNum 2000)] = Some 2000 /\
  exists la,
    usable_length no_text_floats (_edge_first_data no_text_floats twin_demo 1%Z 2%Z)
    = Some la /\ la <= 2000.
Proof.
  assert (H : (1%Z, [("length", VNum 2000)]) ∈ get_edge_data twin_demo 1%Z 2%Z)
    by (right; left).
  split; [exact H|]. split; [reflexivity|].
  exact (proj1 (proj2 (proj2 (edge_first_data_shortest no_text_floats twin_demo 1%Z 2%Z)))
           (1%Z, [("length", VNum 2000)]) 2000 H eq_refl).
Defined.

Lemma eta_length_matches_search_weight_witness :
  edge_weight (_multigraph_to_simple_digraph_min no_text_floats twin_demo "length")
              1%Z 2%Z = Some 2000 /\
  edge_length_m no_text_floats (_edge_first_data no_text_floats twin_demo 1%Z 2%Z)
  == 2000.
Proof.
  split; [reflexivity|].
  refine (eta_length_matches_search_weight no_text_floats twin_demo 1%Z 2%Z 2000 _ eq_refl).
  intros ka Hka. unfold get_edge_data in Hka. simpl in Hka.
  apply elem_of_cons in Hka. destruct Hka as [->|Hka]; [discriminate|].
  apply list_elem_of_singleton in Hka. subst ka. discriminate.
Defined.

(** ** Speeds and ETA are well behaved *)

Lemma edge_speed_kph_pos (str_to_float : string -> option Q) (attr : attrs) :
  0 < edge_speed_kph str_to_float attr.
Proof.
  unfold edge_speed_kph.
  destruct (py_float str_to_float _) as [q|]; [|reflexivity].
  destruct (Qle_bool q 0) eqn:E; [reflexivity|].
  destruct (Qlt_le_dec 0 q) as [H|H]; [exact H|].
  apply Qle_bool_iff in H. congruence.
Qed.

Lemma edge_minutes_scaled (str_to_float : string -> option Q) (attr : attrs) :
  0 < edge_length_m str_to_float attr ->
  edge_minutes str_to_float attr ==
  edge_length_m str_to_float attr * ((60 # 1000) / edge_speed_kph str_to_float attr).
Proof.
  intros Hpos. unfold edge_minutes. apply Qltb_lt in Hpos. rewrite Hpos.
  pose proof (edge_speed_kph_pos str_to_float attr) as Hs.
  field. intros H. rewrite H in Hs. discriminate Hs.
Qed.

Lemma edge_minutes_nonneg (str_to_float : string -> option Q) (attr : attrs) :
  0 <= edge_minutes str_to_float attr.
Proof.
  destruct (Qlt_le_dec 0 (edge_length_m str_to_float attr)) as [Hpos|Hle].
  - rewrite (edge_minutes_scaled _ _ Hpos).
    pose proof (edge_speed_kph_pos str_to_float attr) as Hs.
    apply Qmult_le_0_compat; [lra|].
    apply Qlt_le_weak, Qlt_shift_div_l; [exact Hs | lra].
  - unfold edge_minutes. apply Qltb_ge in Hle. rewrite Hle. lra.
Qed.

Lemma primary_eta_sum (str_to_float : string -> option Q) Gp nodes :
  primary_eta str_to_float Gp nodes ==
  Qsum (map (edge_minutes str_to_float) (path_edges str_to_float Gp nodes)).
Proof.
  unfold primary_eta, path_edges. rewrite eta_fold, map_map. lra.
Qed.

Lemma primary_eta_nonneg (str_to_float : string -> option Q) Gp nodes :
  0 <= primary_eta str_to_float Gp nodes.
Proof.
  rewrite primary_eta_sum.
  induction (path_edges str_to_float Gp nodes) as [|a l IH];
    unfold Qsum in *; cbn [map foldr]; [lra|].
  pose proof (edge_minutes_nonneg str_to_float a). lra.
Qed.

(** One edge is at most as long as the other and as fast. *)
Definition no_longer (str_to_float : string -> option Q) (a a' : attrs) : Prop :=
  edge_length_m str_to_float a <= edge_length_m str_to_float a' /\
  edge_speed_kph str_to_float a == edge_speed_kph str_to_float a'.

Lemma edge_minutes_mono (str_to_float : string -> option Q) (a a' : attrs) :
  no_longer str_to_float a a' ->
  edge_minutes str_to_float a <= edge_minutes str_to_float a'.
Proof.
  intros [Hlen Hsp].
  destruct (Qlt_le_dec 0 (edge_length_m str_to_float a)) as [Hpos|Hle].
  - rewrite (edge_minutes_scaled _ a Hpos).
    rewrite (edge_minutes_scaled _ a') by lra.
    rewrite Hsp. apply Qmult_le_compat_r; [exact Hlen|].
    pose proof (edge_speed_kph_pos str_to_float a') as Hs.
    apply Qlt_le_weak, Qlt_shift_div_l; [exact Hs | lra].
  - unfold edge_minutes at 1. apply Qltb_ge in Hle. rewrite Hle.
    apply edge_minutes_nonneg.
Qed.

(** X7.  The speed the ETA loop divides by is always positive, so the loop
    never divides by zero and the ETA is never negative.  The ETA is
    monotone: a path whose edges are, one by one, at least as long at equal
    speed has an ETA at least as large. *)
Theorem eta_positive_speed_and_monotone (str_to_float : string -> option Q) :
  (forall attr, 0 < edge_speed_kph str_to_float attr) /\
  (forall Gp nodes, 0 <= primary_eta str_to_float Gp nodes) /\
  (forall Gp nodes Gp' nodes',
     Forall2 (no_longer str_to_float)
       (path_edges str_to_float Gp nodes) (path_edges str_to_float Gp' nodes') ->
     primary_eta str_to_float Gp nodes <= primary_eta str_to_float Gp' nodes').
Proof.
  split; [apply edge_speed_kph_pos|]. split.
  - apply primary_eta_nonneg.
  - intros Gp nodes Gp' nodes' H. rewrite !primary_eta_sum.
    induction H as [|a a' l l' Ha _ IH];
      unfold Qsum in *; cbn [map foldr]; [lra|].
    pose proof (edge_minutes_mono str_to_float a a' Ha). lra.
Qed.

(** The road of [road_demo] with its first edge stretched to 2500 m. *)
Definition longer_road_demo : MultiDiGraph :=
  {| mg_nodes := mg_nodes road_demo;
     mg_edges := [(1%Z, 2%Z, 0%Z, [("length", VNum 2500); ("maxspeed", VStr "50")]);
                  (2%Z, 3%Z, 0%Z, [("length", VNum 3000); ("maxspeed", VStr "50")])] |}.

Lemma eta_positive_speed_and_monotone_witness :
  Forall2 (no_longer no_text_floats)
    (path_edges no_text_floats road_demo [1%Z; 2%Z; 3%Z])
    (path_edges no_text_floats longer_road_demo [1%Z; 2%Z; 3%Z]) /\
  primary_eta no_text_floats road_demo [1%Z; 2%Z; 3%Z] <=
  primary_eta no_text_floats longer_road_demo [1%Z; 2%Z; 3%Z].
Proof.
  assert (H : Forall2 (no_longer no_text_floats)
                (path_edges no_text_floats road_demo [1%Z; 2%Z; 3%Z])
                (path_edges no_text_floats longer_road_demo [1%Z; 2%Z; 3%Z])).
  { repeat constructor; vm_compute; discriminate. }
  split; [exact H|].
  exact (proj2 (proj2 (eta_positive_speed_and_monotone no_text_floats))
           road_demo [1%Z; 2%Z; 3%Z] longer_road_demo [1%Z; 2%Z; 3%Z] H).
Defined.

(** ** The route cache keeps its two tables in step *)

Section PopFacts.
Context {K V : Type} `{EqDecision K}.

Lemma In_keys_pops (ks : list K) (k : K) (d : list (K * V)) :
  In k (keys (foldl (fun c k' => dict_pop k' c) d ks)) <-> In k (keys d) /\ k ∉ ks.
Proof.
  revert d. induction ks as [|k0 r IH]; intros d; simpl.
  - split; [intros H; split; [exact H | apply not_elem_of_nil] | tauto].
  - rewrite IH, In_keys_dict_pop, not_elem_of_cons. tauto.
Qed.

Lemma length_pops (ks : list K) (d : list (K * V)) :
  wf d -> NoDup ks -> (forall k, k ∈ ks -> In k (keys d)) ->
  (length (foldl (fun c k' => dict_pop k' c) d ks) + length ks = length d)%nat.
Proof.
  revert d. induction ks as [|k0 r IH]; intros d Hwf Hnd Hsub; simpl; [lia|].
  apply NoDup_cons in Hnd. destruct Hnd as [Hk0 Hnd].
  rewrite <- (length_dict_pop_present k0 d Hwf) by (apply Hsub; left).
  rewrite <- (IH (dict_pop k0 d)); [lia | now apply wf_dict_pop | exact Hnd |].
  intros k Hk. apply In_keys_dict_pop. split; [apply Hsub; now right|].
  intros ->. contradiction.
Qed.

Lemma wf_In_dict_get (k : K) (v : V) (d : list (K * V)) :
  wf d -> In (k, v) d -> dict_get k d = Some v.
Proof.
  unfold wf. induction d as [|[k' v'] r IH]; simpl; [tauto|].
  intros Hwf Hin. inversion Hwf as [|? ? Hn Hr]; subst.
  destruct (decide (k = k')) as [->|Hne].
  - destruct Hin as [E|Hin]; [congruence|].
    exfalso. apply Hn. apply in_map_iff. now exists (k', v).
  - destruct Hin as [E|Hin]; [congruence|]. now apply IH.
Qed.

Lemma length_dict_pop_bound (k : K) (d : list (K * V)) :
  (length (dict_pop k d) <= length d)%nat.
Proof.
  induction d as [|[k' v'] r IH]; simpl; [lia|].
  destruct (decide (k = k')); simpl; lia.
Qed.

End PopFacts.

Lemma In_take {A : Type} (n : nat) (l : list A) (x : A) : In x (take n l) -> In x l.
Proof.
  intros H. rewrite <- (take_drop n l). apply in_app_iff. now left.
Qed.

(** The two module-level tables hold the same keys, each once. *)
Definition caches_inv (st : route_caches) : Prop :=
  wf (_route_cache st) /\ wf (_route_cache_access_order st) /\
  forall k, In k (keys (_route_cache st)) <-> In k (keys (_route_cache_access_order st)).

(** The keys the eviction of [_cache_set] removes. *)
Definition evicted_keys (st : route_caches) : list cache_key :=
  keys (take evict_batch (sorted_by (fun kv : cache_key * Q => snd kv)
                                    (_route_cache_access_order st))).

Lemma evict_oldest_pops (st : route_caches) :
  evict_oldest st =
  {| _route_cache := foldl (fun c k => dict_pop k c) (_route_cache st) (evicted_keys st);
     _route_cache_access_order :=
       foldl (fun c k => dict_pop k c) (_route_cache_access_order st) (evicted_keys st) |}.
Proof.
  unfold evict_oldest, evicted_keys.
  generalize (take evict_batch (sorted_by (fun kv : cache_key * Q => snd kv)
                                          (_route_cache_access_order st))).
  intros l. destruct st as [c o]. cbn [_route_cache _route_cache_access_order].
  revert c o. induction l as [|kv l IH]; intros c o; [reflexivity|].
  cbn [foldl keys map _route_cache _route_cache_access_order]. apply IH.
Qed.

Lemma evicted_keys_NoDup (st : route_caches) :
  wf (_route_cache_access_order st) -> NoDup (evicted_keys st).
Proof.
  intros Hwf. unfold evicted_keys, keys.
  change (map fst) with (fmap (M := list) (@fst cache_key Q)).
  rewrite fmap_take. eapply sublist_NoDup; [|apply sublist_take].
  rewrite (fmap_Permutation _ _ _ (sorted_by_Permutation _ _)).
  now apply NoDup_ListNoDup.
Qed.

Lemma evicted_keys_present (st : route_caches) (k : cache_key) :
  k ∈ evicted_keys st -> In k (keys (_route_cache_access_order st)).
Proof.
  unfold evicted_keys, keys. intros Hk.
  apply list_elem_of_In in Hk. apply in_map_iff in Hk.
  destruct Hk as ([k' t] & <- & Hin). apply in_map_iff. exists (k', t).
  split; [reflexivity|].
  apply (sorted_by_In (fun kv : cache_key * Q => snd kv)).
  exact (In_take _ _ _ Hin).
Qed.

Lemma length_evicted_keys (st : route_caches) :
  length (evicted_keys st) = Nat.min evict_batch (length (_route_cache_access_order st)).
Proof.
  unfold evicted_keys, keys. now rewrite length_map, length_take, length_sorted_by.
Qed.

Lemma caches_inv_length (st : route_caches) :
  caches_inv st -> length (_route_cache st) = length (_route_cache_access_order st).
Proof.
  intros (Hc & Ho & Hk).
  rewrite <- (length_map fst (_route_cache st)),
          <- (length_map fst (_route_cache_access_order st)).
  apply Permutation_length, NoDup_Permutation;
    [now apply NoDup_ListNoDup | now apply NoDup_ListNoDup |].
  intros k. rewrite !list_elem_of_In. apply Hk.
Qed.

Lemma evict_oldest_inv (st : route_caches) :
  caches_inv st ->
  caches_inv (evict_oldest st) /\
  (length (_route_cache (evict_oldest st)) + Nat.min evict_batch (length (_route_cache st))
   = length (_route_cache st))%nat.
Proof.
  intros Hinv. pose proof (caches_inv_length st Hinv) as Hlen.
  destruct Hinv as (Hc & Ho & Hk).
  rewrite evict_oldest_pops. cbn [_route_cache _route_cache_access_order].
  split; [split; [|split]|].
  - now apply wf_pops.
  - now apply wf_pops.
  - intros k. cbn [_route_cache _route_cache_access_order].
    rewrite In_keys_pops. rewrite In_keys_pops. specialize (Hk k). tauto.
  - replace (Nat.min evict_batch (length (_route_cache st)))
      with (length (evicted_keys st)) by (now rewrite length_evicted_keys, Hlen).
    apply length_pops.
    + exact Hc.
    + now apply evicted_keys_NoDup.
    + intros k Hin. apply Hk. now apply evicted_keys_present.
Qed.

Lemma cache_get_inv key t1 t2 st :
  caches_inv st ->
  caches_inv (snd (_cache_get key t1 t2 st)) /\
  (length (_route_cache (snd (_cache_get key t1 t2 st))) <= length (_route_cache st))%nat.
Proof.
  intros (Hc & Ho & Hk). unfold _cache_get.
  destruct (dict_get key (_route_cache st)) as [[ts val]|] eqn:E.
  - destruct (Qltb ROUTE_CACHE_TTL (t1 - ts)); cbn [snd _route_cache _route_cache_access_order].
    + split; [|apply length_dict_pop_bound].
      split; [now apply wf_dict_pop|]. split; [now apply wf_dict_pop|].
      intros k. cbn [_route_cache _route_cache_access_order].
      rewrite In_keys_dict_pop. rewrite In_keys_dict_pop. specialize (Hk k). tauto.
    + split; [|lia]. split; [exact Hc|]. split; [now apply wf_dict_set|].
      intros k. cbn [_route_cache _route_cache_access_order].
      rewrite keys_dict_set_present; [apply Hk|].
      apply Hk. apply dict_get_Some_In in E.
      apply in_map_iff. now exists (key, (ts, val)).
  - cbn [snd]. split; [|lia]. split; [exact Hc|]. split; [exact Ho | exact Hk].
Qed.

Lemma set_both_inv key (v : Q * route_result) (t : Q) st :
  caches_inv st ->
  caches_inv {| _route_cache := dict_set key v (_route_cache st);
                _route_cache_access_order :=
                  dict_set key t (_route_cache_access_order st) |}.
Proof.
  intros (Hc & Ho & Hk).
  split; [now apply wf_dict_set|]. split; [now apply wf_dict_set|].
  intros k. cbn [_route_cache _route_cache_access_order].
  destruct (in_dec (fun a b => decide (a = b)) key (keys (_route_cache st))) as [Hin|Hin].
  - rewrite keys_dict_set_present by exact Hin.
    rewrite keys_dict_set_present by now apply Hk.
    apply Hk.
  - rewrite keys_dict_set_absent by exact Hin.
    rewrite keys_dict_set_absent by now rewrite <- Hk.
    rewrite !in_app_iff. specialize (Hk k). tauto.
Qed.

Lemma evict_batch_bounds : (1 <= evict_batch <= ROUTE_CACHE_MAX)%nat.
Proof. split; apply Nat.leb_le; vm_compute; reflexivity. Qed.

Lemma cache_set_inv key value t1 t2 st :
  caches_inv st -> (length (_route_cache st) <= ROUTE_CACHE_MAX)%nat ->
  caches_inv (_cache_set key value t1 t2 st) /\
  (length (_route_cache (_cache_set key value t1 t2 st)) <= ROUTE_CACHE_MAX)%nat.
Proof.
  intros Hinv Hlen. unfold _cache_set.
  destruct (dict_mem key (_route_cache st)) eqn:Em.
  - split; [now apply set_both_inv|]. cbn [_route_cache].
    now rewrite length_dict_set_present.
  - destruct (ROUTE_CACHE_MAX <=? length (_route_cache st))%nat eqn:Efull.
    + apply Nat.leb_le in Efull.
      destruct (evict_oldest_inv st Hinv) as [Hinv' Hl].
      split; [now apply set_both_inv|]. cbn [_route_cache].
      pose proof (length_dict_set_le key (t1, value) (_route_cache (evict_oldest st))).
      pose proof evict_batch_bounds. lia.
    + apply Nat.leb_gt in Efull.
      split; [now apply set_both_inv|]. cbn [_route_cache].
      pose proof (length_dict_set_le key (t1, value) (_route_cache st)). lia.
Qed.

(** A [_cache_get] or a [_cache_set], with the readings of its clock. *)
Inductive cache_op : Type :=
| OpGet (key : cache_key) (now_check now_touch : Q)
| OpSet (key : cache_key) (value : route_result) (now_ts now_touch : Q).

Definition run_op (st : route_caches) (op : cache_op) : route_caches :=
  match op with
  | OpGet key t1 t2 => snd (_cache_get key t1 t2 st)
  | OpSet key value t1 t2 => _cache_set key value t1 t2 st
  end.

Definition empty_caches : route_caches :=
  {| _route_cache := []; _route_cache_access_order := [] |}.

Lemma run_ops_inv ops st :
  caches_inv st -> (length (_route_cache st) <= ROUTE_CACHE_MAX)%nat ->
  caches_inv (foldl run_op st ops) /\
  (length (_route_cache (foldl run_op st ops)) <= ROUTE_CACHE_MAX)%nat.
Proof.
  revert st. induction ops as [|op ops IH]; intros st Hinv Hlen; [now split|].
  cbn [foldl]. destruct op as [key t1 t2|key value t1 t2]; cbn [run_op].
  - destruct (cache_get_inv key t1 t2 st Hinv) as [H1 H2]. apply IH; [exact H1 | lia].
  - destruct (cache_set_inv key value t1 t2 st Hinv Hlen) as [H1 H2]. now apply IH.
Qed.

(** X8.  From the empty tables, after any sequence of [_cache_get] and
    [_cache_set] calls the response table and the access-time table hold the
    same keys, each once, and at most [ROUTE_CACHE_MAX] of them.  A
    [_cache_set] of a new key into full tables first removes
    [evict_batch] = 200 entries, among them no entry accessed later than an
    entry that stays, and stores the new one. *)
Theorem route_cache_tables_in_step (ops : list cache_op) :
  let st := foldl run_op empty_caches ops in
  caches_inv st /\
  (length (_route_cache st) <= ROUTE_CACHE_MAX)%nat /\
  length (_route_cache_access_order st) = length (_route_cache st) /\
  forall key value t1 t2,
    dict_mem key (_route_cache st) = false ->
    length (_route_cache st) = ROUTE_CACHE_MAX ->
    let st' := _cache_set key value t1 t2 st in
    (length (_route_cache st') + evict_batch = S ROUTE_CACHE_MAX)%nat /\
    evict_batch = 200%nat /\
    dict_get key (_route_cache st') = Some (t1, value) /\
    (forall k, k ∈ evicted_keys st -> dict_get k (_route_cache st') = None) /\
    (forall k, k <> key -> k ∉ evicted_keys st ->
       dict_get k (_route_cache st') = dict_get k (_route_cache st)) /\
    (forall k t k' t',
       k ∈ evicted_keys st -> dict_get k (_route_cache_access_order st) = Some t ->
       k' ∉ evicted_keys st -> dict_get k' (_route_cache_access_order st) = Some t' ->
       t <= t').
Proof.
  intros st.
  assert (H0 : caches_inv empty_caches) by (repeat split; try apply wf_nil; tauto).
  destruct (run_ops_inv ops empty_caches H0) as [Hinv Hlen]; [cbn; lia|].
  fold st in Hinv, Hlen.
  split; [exact Hinv|]. split; [exact Hlen|].
  split; [symmetry; now apply caches_inv_length|].
  intros key value t1 t2 Hnew Hfull st'.
  assert (Est' : st' = {| _route_cache := dict_set key (t1, value)
                                            (_route_cache (evict_oldest st));
                          _route_cache_access_order :=
                            dict_set key t2
                              (_route_cache_access_order (evict_oldest st)) |}).
  { unfold st', _cache_set. rewrite Hnew, Hfull, Nat.leb_refl. reflexivity. }
  destruct (evict_oldest_inv st Hinv) as [Hinv' Hl].
  assert (Hkey : key ∉ evicted_keys st).
  { intros Hin. apply evicted_keys_present in Hin.
    apply (proj2 (proj2 Hinv)) in Hin. unfold dict_mem in Hnew.
    destruct (dict_get key (_route_cache st)) eqn:E; [discriminate|].
    now apply dict_get_None_keys in E. }
  assert (Hget : forall k, dict_get k (_route_cache (evict_oldest st)) =
                           if decide (k ∈ evicted_keys st) then None
                           else dict_get k (_route_cache st)).
  { intros k. rewrite evict_oldest_pops. cbn [_route_cache]. apply dict_get_pops. }
  split; [|split; [|split; [|split; [|split]]]].
  - rewrite Est'. cbn [_route_cache]. rewrite length_dict_set_absent.
    + pose proof evict_batch_bounds. rewrite Hfull in Hl. lia.
    + rewrite Hget. destruct (decide (key ∈ evicted_keys st)); [reflexivity|].
      unfold dict_mem in Hnew. now destruct (dict_get key (_route_cache st)).
  - reflexivity.
  - rewrite Est'. cbn [_route_cache]. apply dict_get_set_eq.
  - intros k Hk. rewrite Est'. cbn [_route_cache].
    rewrite dict_get_set_ne by (intros ->; contradiction).
    rewrite Hget. now destruct (decide (k ∈ evicted_keys st)).
  - intros k Hne Hk. rewrite Est'. cbn [_route_cache].
    rewrite dict_get_set_ne by congruence.
    rewrite Hget. now destruct (decide (k ∈ evicted_keys st)).
  - intros k t k' t' Hk Ht Hk' Ht'.
    set (f := fun kv : cache_key * Q => snd kv).
    assert (Hin : (k, t) ∈ take evict_batch (sorted_by f (_route_cache_access_order st))).
    { unfold evicted_keys, keys in Hk. apply list_elem_of_In, in_map_iff in Hk.
      destruct Hk as ([k0 t0] & E & Hin). cbn in E. subst k0.
      assert (t0 = t); [|subst; now apply list_elem_of_In].
      apply In_take in Hin. apply (proj1 (sorted_by_In f _ _)) in Hin.
      apply (wf_In_dict_get _ _ _ (proj1 (proj2 Hinv))) in Hin. congruence. }
    assert (Hin' : (k', t') ∈ drop evict_batch (sorted_by f (_route_cache_access_order st))).
    { apply dict_get_Some_In in Ht'. apply (proj2 (sorted_by_In f _ _)) in Ht'.
      rewrite <- (take_drop evict_batch (sorted_by f _)) in Ht'.
      apply in_app_iff in Ht'. destruct Ht' as [H|H]; [|now apply list_elem_of_In].
      exfalso. apply Hk'. unfold evicted_keys, keys. apply list_elem_of_In.
      apply in_map_iff. now exists (k', t'). }
    pose proof (sorted_by_sorted f (_route_cache_access_order st)) as Hs.
    rewrite <- (take_drop evict_batch (sorted_by f _)) in Hs.
    exact (StronglySorted_app_1_elem_of _ _ _ _ _ Hs Hin Hin').
Qed.

(** [n] stores under [n] different keys, at times 0, 1, ... *)
Definition fill_key (i : nat) : cache_key := (Z.of_nat i, 0, 0, 0, 1)%Z.

Definition fill_op (i : nat) : cache_op :=
  OpSet (fill_key i) demo_result (inject_Z (Z.of_nat i)) (inject_Z (Z.of_nat i)).

Definition fill_ops (n : nat) : list cache_op := map fill_op (seq 0 n).

Lemma fill_key_fresh (n : nat) : ~ In (fill_key n) (map fill_key (seq 0 n)).
Proof.
  intros H. apply in_map_iff in H. destruct H as (i & E & Hi).
  apply in_seq in Hi. unfold fill_key in E. inversion E. lia.
Qed.

Lemma fill_ops_keys (n : nat) :
  (n <= ROUTE_CACHE_MAX)%nat ->
  (keys (_route_cache (foldl run_op empty_caches (fill_ops n)))
   = map fill_key (seq 0 n)) /\
  (keys (_route_cache_access_order (foldl run_op empty_caches (fill_ops n)))
   = map fill_key (seq 0 n)).
Proof.
  induction n as [|n IH]; intros Hn; [split; reflexivity|].
  destruct IH as [IH1 IH2]; [lia|].
  unfold fill_ops. rewrite seq_S, !map_app, foldl_app. fold (fill_ops n).
  cbn [map foldl Nat.add run_op fill_op].
  set (st := foldl run_op empty_caches (fill_ops n)) in *.
  pose proof (fill_key_fresh n) as Hfresh.
  assert (Hget : dict_get (fill_key n) (_route_cache st) = None)
    by (apply dict_get_None_keys; now rewrite IH1).
  assert (Hlen : length (_route_cache st) = n).
  { rewrite <- (length_map fst (_route_cache st)). fold (keys (_route_cache st)).
    now rewrite IH1, length_map, length_seq. }
  unfold _cache_set, dict_mem. rewrite Hget.
  assert (E : (ROUTE_CACHE_MAX <=? length (_route_cache st))%nat = false)
    by (apply Nat.leb_gt; lia).
  rewrite E. cbn [_route_cache _route_cache_access_order].
  rewrite keys_dict_set_absent by now rewrite IH1.
  rewrite keys_dict_set_absent by now rewrite IH2.
  now rewrite IH1, IH2.
Qed.

Lemma fill_ops_full (n : nat) :
  (n <= ROUTE_CACHE_MAX)%nat ->
  dict_mem (fill_key n) (_route_cache (foldl run_op empty_caches (fill_ops n))) = false /\
  length (_route_cache (foldl run_op empty_caches (fill_ops n))) = n.
Proof.
  intros Hn. destruct (fill_ops_keys n Hn) as [Hk _].
  set (st := foldl run_op empty_caches (fill_ops n)) in *. split.
  - unfold dict_mem.
    assert (E : dict_get (fill_key n) (_route_cache st) = None)
      by (apply dict_get_None_keys; rewrite Hk; apply fill_key_fresh).
    now rewrite E.
  - rewrite <- (length_map fst (_route_cache st)). fold (keys (_route_cache st)).
    now rewrite Hk, length_map, length_seq.
Qed.

Lemma route_cache_tables_in_step_witness :
  dict_mem (fill_key ROUTE_CACHE_MAX)
    (_route_cache (foldl run_op empty_caches (fill_ops ROUTE_CACHE_MAX))) = false /\
  (length (_route_cache (foldl run_op empty_caches (fill_ops ROUTE_CACHE_MAX)))
   = ROUTE_CACHE_MAX) /\
  (length (_route_cache
             (_cache_set (fill_key ROUTE_CACHE_MAX) demo_result 0 0
                (foldl run_op empty_caches (fill_ops ROUTE_CACHE_MAX))))
   + evict_batch = S ROUTE_CACHE_MAX)%nat.
Proof.
  destruct (fill_ops_full ROUTE_CACHE_MAX (Nat.le_refl _)) as [H1 H2].
  split; [exact H1|]. split; [exact H2|].
  exact (proj1 (proj2 (proj2 (proj2 (route_cache_tables_in_step
                                       (fill_ops ROUTE_CACHE_MAX))))
                  (fill_key ROUTE_CACHE_MAX) demo_result 0 0 H1 H2)).
Defined.

(** ** The lifetime of a cached response *)

Definition get_op (g : cache_key * Q * Q) : cache_op :=
  let '(k, now_check, now_touch) := g in OpGet k now_check now_touch.

Lemma cache_set_stores key value t1 t2 st :
  dict_get key (_route_cache (_cache_set key value t1 t2 st)) = Some (t1, value).
Proof.
  unfold _cache_set. destruct (dict_mem key (_route_cache st));
    cbn [_route_cache]; apply dict_get_set_eq.
Qed.

(** A lookup leaves the stored entry of [key] as it is, or removes it. *)
Lemma cache_get_entry key k t1 t2 st :
  dict_get key (_route_cache (snd (_cache_get k t1 t2 st))) =
  match dict_get k (_route_cache st) with
  | Some (ts, _) =>
      if decide (k = key) then
        if Qltb ROUTE_CACHE_TTL (t1 - ts) then None else dict_get key (_route_cache st)
      else dict_get key (_route_cache st)
  | None => dict_get key (_route_cache st)
  end.
Proof.
  unfold _cache_get. destruct (dict_get k (_route_cache st)) as [[ts v]|] eqn:E;
    [|reflexivity].
  destruct (Qltb ROUTE_CACHE_TTL (t1 - ts)) eqn:Et; cbn [snd _route_cache].
  - destruct (decide (k = key)) as [->|Hne];
      [apply dict_get_pop_eq | now apply dict_get_pop_ne].
  - now destruct (decide (k = key)).
Qed.

Lemma gets_entry_or_gone key e gets st :
  dict_get key (_route_cache st) = None \/ dict_get key (_route_cache st) = Some e ->
  dict_get key (_route_cache (foldl run_op st (map get_op gets))) = None \/
  dict_get key (_route_cache (foldl run_op st (map get_op gets))) = Some e.
Proof.
  revert st. induction gets as [|[[k t1] t2] gets IH]; intros st H; [exact H|].
  cbn [map foldl get_op run_op]. apply IH. rewrite cache_get_entry.
  destruct (dict_get k (_route_cache st)) as [[ts v]|]; [|exact H].
  destruct (decide (k = key)); [|exact H].
  destruct (Qltb ROUTE_CACHE_TTL (t1 - ts)); [now left | exact H].
Qed.

Lemma gets_entry_kept key t0 value gets st :
  dict_get key (_route_cache st) = Some (t0, value) ->
  (forall k t1 t2, (k, t1, t2) ∈ gets -> k = key -> t1 - t0 <= ROUTE_CACHE_TTL) ->
  dict_get key (_route_cache (foldl run_op st (map get_op gets))) = Some (t0, value).
Proof.
  revert st. induction gets as [|[[k t1] t2] gets IH]; intros st H Hall; [exact H|].
  cbn [map foldl get_op run_op]. apply IH.
  - rewrite cache_get_entry.
    destruct (dict_get k (_route_cache st)) as [[ts v]|] eqn:E; [|exact H].
    destruct (decide (k = key)) as [->|]; [|exact H].
    assert (ts = t0) by congruence. subst ts.
    rewrite (proj2 (Qltb_ge _ _)); [exact H|].
    apply (Hall key t1 t2); [left | reflexivity].
  - intros k' t1' t2' Hin. apply (Hall k' t1' t2'). now right.
Qed.

(** X9.  The lifetime of a cached response runs from the time it was stored,
    not from its last use: after [_cache_set] at time [t0] and any number of
    lookups of any keys, a lookup of the key later than [t0 + ROUTE_CACHE_TTL]
    misses, however recently the entry was used; a lookup not later than
    that hits with the stored value when no earlier lookup of the key came
    after the deadline.  Storing the key again restarts the lifetime and
    replaces the value. *)
Theorem route_cache_lifetime_from_store
    (key : cache_key) (value value' : route_result) (t0 t0' t1 t1' now now' : Q)
    (gets : list (cache_key * Q * Q)) (st0 : route_caches) :
  let st := foldl run_op (_cache_set key value t0 t0' st0) (map get_op gets) in
  (ROUTE_CACHE_TTL < now - t0 -> fst (_cache_get key now now' st) = None) /\
  ((forall k tc tt, (k, tc, tt) ∈ gets -> k = key -> tc - t0 <= ROUTE_CACHE_TTL) ->
   now - t0 <= ROUTE_CACHE_TTL ->
   fst (_cache_get key now now' st) = Some value) /\
  (now - t1 <= ROUTE_CACHE_TTL ->
   fst (_cache_get key now now' (_cache_set key value' t1 t1' st)) = Some value').
Proof.
  intros st. split; [|split].
  - intros Hlate.
    destruct (gets_entry_or_gone key (t0, value) gets (_cache_set key value t0 t0' st0))
      as [E|E]; [right; apply cache_set_stores | |];
      fold st in E; unfold _cache_get; rewrite E; [reflexivity|].
    now rewrite (proj2 (Qltb_lt _ _) Hlate).
  - intros Hall Hfresh.
    pose proof (gets_entry_kept key t0 value gets (_cache_set key value t0 t0' st0)
                  (cache_set_stores _ _ _ _ _) Hall) as E.
    fold st in E. unfold _cache_get. rewrite E.
    now rewrite (proj2 (Qltb_ge _ _) Hfresh).
  - intros Hfresh. unfold _cache_get at 1. rewrite cache_set_stores.
    now rewrite (proj2 (Qltb_ge _ _) Hfresh).
Qed.

Lemma route_cache_lifetime_from_store_witness :
  let st := foldl run_op (_cache_set demo_key demo_result 0 0 empty_caches)
              (map get_op [(demo_key, 3000, 3000)]) in
  (ROUTE_CACHE_TTL < 3601 - 0 /\ fst (_cache_get demo_key 3601 3601 st) = None) /\
  ((forall k tc tt, (k, tc, tt) ∈ [(demo_key, 3000, 3000)] -> k = demo_key ->
      tc - 0 <= ROUTE_CACHE_TTL) /\
   3500 - 0 <= ROUTE_CACHE_TTL /\
   fst (_cache_get demo_key 3500 3500 st) = Some demo_result) /\
  (3900 - 3500 <= ROUTE_CACHE_TTL /\
   fst (_cache_get demo_key 3900 3900 (_cache_set demo_key demo_result 3500 3500 st))
   = Some demo_result).
Proof.
  intros st.
  assert (Hlate : ROUTE_CACHE_TTL < 3601 - 0) by reflexivity.
  assert (Hall : forall k tc tt, (k, tc, tt) ∈ [(demo_key, 3000, 3000)] -> k = demo_key ->
                   tc - 0 <= ROUTE_CACHE_TTL).
  { intros k tc tt Hin _. apply list_elem_of_singleton in Hin.
    inversion Hin; subst. vm_compute. discriminate. }
  assert (Hfresh : 3500 - 0 <= ROUTE_CACHE_TTL) by (vm_compute; discriminate).
  assert (Hagain : 3900 - 3500 <= ROUTE_CACHE_TTL) by (vm_compute; discriminate).
  split; [split; [exact Hlate|]|split; [split; [exact Hall|split; [exact Hfresh|]]|
                                         split; [exact Hagain|]]].
  - exact (proj1 (route_cache_lifetime_from_store demo_key demo_result demo_result
                    0 0 3500 3500 3601 3601 [(demo_key, 3000, 3000)] empty_caches) Hlate).
  - exact (proj1 (proj2 (route_cache_lifetime_from_store demo_key demo_result demo_result
                           0 0 3500 3500 3500 3500 [(demo_key, 3000, 3000)] empty_caches))
             Hall Hfresh).
  - exact (proj2 (proj2 (route_cache_lifetime_from_store demo_key demo_result demo_result
                           0 0 3500 3500 3900 3900 [(demo_key, 3000, 3000)] empty_caches))
             Hagain).
Defined.

(** ** The planner's fallback and the [/route] endpoint *)


Section FallbackFacts.
Variable str_to_float : string -> option Q.
Variable project_graph : MultiDiGraph -> option MultiDiGraph.
Variable compose_all : list MultiDiGraph -> MultiDiGraph.
Variable max_loaded : nat.
Variable nearest_nodes : MultiDiGraph -> Q -> Q -> outcome node.
Variable shortest_simple_paths : DiGraph -> node -> node -> outcome (list (list node)).




End FallbackFacts.



Section EndpointFacts.
Variable str_to_float : string -> option Q.
Variable project_graph : MultiDiGraph -> option MultiDiGraph.
Variable compose_all : list MultiDiGraph -> MultiDiGraph.
Variable nearest_nodes : MultiDiGraph -> Q -> Q -> outcome node.
Variable shortest_simple_paths : DiGraph -> node -> node -> outcome (list (list node)).





End EndpointFacts.


(** ** A driver's channel touches that driver only *)





Section DriverFacts.
Variable str_to_float : string -> option Q.






End DriverFacts.



(** ** Broadcasting to the monitors *)

Lemma send_fold (send_json : nat -> location_payload -> bool)
    (data : location_payload) (l : list nat)
    (acc : list (nat * location_payload) * hub) :
  let r := foldl (_safe_send send_json data) acc l in
  fst r = fst acc ++ map (fun ws => (ws, data))
                         (List.filter (fun ws => send_json ws data) l) /\
  (forall ws, ws ∈ _monitors (snd r) <->
              ws ∈ _monitors (snd acc) /\ (ws ∈ l -> send_json ws data = true)) /\
  _drivers (snd r) = _drivers (snd acc) /\
  last_known (snd r) = last_known (snd acc) /\
  broadcasts (snd r) = broadcasts (snd acc).
Proof.
  revert acc. induction l as [|ws0 l IH]; intros acc; cbn [foldl].
  - cbn. rewrite app_nil_r. split; [reflexivity|]. split; [|now repeat split].
    intros ws. split; [intros H; split; [exact H | intros Hin; inversion Hin] | tauto].
  - destruct (IH (_safe_send send_json data acc ws0)) as (Hf & Hm & Hd & Hl & Hb).
    cbv zeta. rewrite Hf, Hd, Hl, Hb. clear Hf Hd Hl Hb.
    unfold _safe_send in *. cbn [List.filter].
    destruct (send_json ws0 data) eqn:E; cbn [fst snd] in *.
    + split; [now rewrite <- app_assoc|]. split; [|now repeat split].
      intros ws. rewrite Hm. split; intros [H1 H2]; (split; [exact H1|]).
      * intros Hin. apply elem_of_cons in Hin. destruct Hin as [->|Hin]; auto.
      * intros Hin. apply H2. now right.
    + split; [reflexivity|]. split; [|now repeat split].
      intros ws. rewrite Hm. cbn [disconnect_monitor _monitors].
      rewrite elem_of_difference, elem_of_singleton. split.
      * intros [[H1 Hne] H2]. split; [exact H1|].
        intros Hin. apply elem_of_cons in Hin. destruct Hin as [->|Hin]; [contradiction|auto].
      * intros [H1 H2]. split; [split; [exact H1|]|].
        -- intros ->. rewrite H2 in E; [discriminate | left].
        -- intros Hin. apply H2. now right.
Qed.

Lemma broadcast_is_send_all send_json data h :
  _broadcast_to_monitors_safe send_json data h =
  send_all send_json data (elements (_monitors h)) h.
Proof.
  unfold _broadcast_to_monitors_safe. now destruct (elements (_monitors h)).
Qed.

(** X13.  A broadcast sends the payload once to every registered monitor
    whose socket accepts it, and to nobody else; it deregisters exactly the
    monitors whose send failed and keeps the others; drivers, last-known
    records and pending broadcasts are not touched.  The monitors left and
    the sends made do not depend on the order in which the concurrent sends
    are taken. *)
Theorem broadcast_prunes_failed_monitors
    (send_json : nat -> location_payload -> bool)
    (data : location_payload) (h : hub) :
  let r := _broadcast_to_monitors_safe send_json data h in
  (forall ws, ws ∈ _monitors (snd r) <->
              ws ∈ _monitors h /\ send_json ws data = true) /\
  (forall ws d, (ws, d) ∈ fst r <->
                d = data /\ ws ∈ _monitors h /\ send_json ws data = true) /\
  NoDup (fst r) /\
  _drivers (snd r) = _drivers h /\
  last_known (snd r) = last_known h /\
  broadcasts (snd r) = broadcasts h /\
  (forall monitors, monitors ≡ₚ elements (_monitors h) ->
     let r' := send_all send_json data monitors h in
     fst r' ≡ₚ fst r /\
     (forall ws, ws ∈ _monitors (snd r') <-> ws ∈ _monitors (snd r)) /\
     _drivers (snd r') = _drivers h /\
     last_known (snd r') = last_known h /\
     broadcasts (snd r') = broadcasts h).
Proof.
  intros r.
  assert (Hgen : forall monitors, monitors ≡ₚ elements (_monitors h) ->
            let r' := send_all send_json data monitors h in
            (forall ws, ws ∈ _monitors (snd r') <->
                        ws ∈ _monitors h /\ send_json ws data = true) /\
            (forall ws d, (ws, d) ∈ fst r' <->
                          d = data /\ ws ∈ _monitors h /\ send_json ws data = true) /\
            NoDup (fst r') /\
            _drivers (snd r') = _drivers h /\
            last_known (snd r') = last_known h /\
            broadcasts (snd r') = broadcasts h).
  { intros monitors Hperm r'.
    destruct (send_fold send_json data monitors ([], h)) as (Hf & Hm & Hd & Hl & Hb).
    fold (send_all send_json data monitors h) in Hf, Hm, Hd, Hl, Hb. fold r' in Hf, Hm, Hd, Hl, Hb.
    cbn [fst snd app] in Hf, Hm, Hd, Hl, Hb.
    assert (Hin : forall ws, ws ∈ monitors <-> ws ∈ _monitors h).
    { intros ws. rewrite Hperm. apply elem_of_elements. }
    split; [|split; [|split; [|now repeat split]]].
    - intros ws. rewrite Hm, <- Hin. tauto.
    - intros ws d. rewrite Hf, list_elem_of_In, in_map_iff. split.
      + intros (ws' & E & Hf'). inversion E; subst ws' d.
        apply filter_In in Hf'. destruct Hf' as [H1 H2].
        split; [reflexivity|]. split; [|exact H2].
        now apply Hin, list_elem_of_In.
      + intros (-> & H1 & H2). exists ws. split; [reflexivity|].
        apply filter_In. split; [|exact H2]. now apply list_elem_of_In, Hin.
    - rewrite Hf.
      apply (NoDup_fmap_2 (fun ws : nat => (ws, data))).
      apply NoDup_ListNoDup, List.NoDup_filter, NoDup_ListNoDup.
      rewrite Hperm. apply NoDup_elements. }
  destruct (Hgen (elements (_monitors h)) (reflexivity _)) as (H1 & H2 & H3 & H4 & H5 & H6).
  rewrite <- broadcast_is_send_all in H1, H2, H3, H4, H5, H6. fold r in H1, H2, H3, H4, H5, H6.
  split; [exact H1|]. split; [exact H2|]. split; [exact H3|].
  split; [exact H4|]. split; [exact H5|]. split; [exact H6|].
  intros monitors Hperm r'.
  destruct (Hgen monitors Hperm) as (G1 & G2 & G3 & G4 & G5 & G6). fold r' in G1, G2, G3, G4, G5, G6.
  split; [|split; [|now repeat split]].
  - apply NoDup_Permutation; [exact G3 | exact H3|].
    intros [ws d]. rewrite G2, H2. tauto.
  - intros ws. rewrite G1, H1. tauto.
Qed.

(** Driver D2 is connected; monitors 1 and 2 listen. *)
Definition monitored_hub : hub :=
  {| _drivers := {[ "D2" := 7%nat ]};
     _monitors := {[ 1%nat; 2%nat ]};
     last_known := ∅;
     broadcasts := [] |}.

Definition demo_payload : location_payload :=
  {| p_driver_id := "D2"; p_lat := 5; p_lng := 1; p_ts := VNum 10; p_meta := VDict [] |}.

Lemma broadcast_prunes_failed_monitors_witness :
  [1%nat; 2%nat] ≡ₚ elements (_monitors monitored_hub) /\
  fst (send_all (fun ws _ => Nat.eqb ws 1) demo_payload [1%nat; 2%nat] monitored_hub)
  ≡ₚ fst (_broadcast_to_monitors_safe (fun ws _ => Nat.eqb ws 1) demo_payload
            monitored_hub).
Proof.
  assert (H : [1%nat; 2%nat] ≡ₚ elements (_monitors monitored_hub)).
  { replace (elements (_monitors monitored_hub)) with [2%nat; 1%nat]
      by (vm_compute; reflexivity).
    apply Permutation_swap. }
  split; [exact H|].
  exact (proj1 (proj2 (proj2 (proj2 (proj2 (proj2 (proj2
           (broadcast_prunes_failed_monitors (fun ws _ => Nat.eqb ws 1) demo_payload
              monitored_hub)))))) [1%nat; 2%nat] H)).
Defined.

(** The message is a subscription request. *)
Definition is_subscribe (ev : monitor_event) : bool :=
  match ev with
  | RecvText msg => String.prefix "subscribe:" msg
  | _ => false
  end.

Lemma ws_monitor_loop_spec (send_text : nat -> string -> bool) (websocket : nat)
    (events : list monitor_event) (acks0 : list string) (h0 : hub) :
  let r := ws_monitor_loop send_text websocket events acks0 h0 in
  (forall ws, ws <> websocket -> (ws ∈ _monitors (snd r) <-> ws ∈ _monitors h0)) /\
  (fst (fst r) = Running -> _monitors (snd r) = _monitors h0) /\
  (fst (fst r) = Closed -> websocket ∉ _monitors (snd r)) /\
  _drivers (snd r) = _drivers h0 /\ last_known (snd r) = last_known h0 /\
  broadcasts (snd r) = broadcasts h0 /\
  (Forall (fun a => a = "subscribed") acks0 ->
   Forall (fun a => a = "subscribed") (snd (fst r))) /\
  (length (snd (fst r)) <= length acks0 + length (List.filter is_subscribe events))%nat.
Proof.
  cbv zeta. revert acks0 h0. induction events as [|ev rest IH]; intros acks0 h0.
  - cbn. repeat split; try tauto; try discriminate. lia.
  - destruct ev as [msg| |]; cbn [ws_monitor_loop ws_monitor_step List.filter is_subscribe].
    + destruct (String.eqb msg "") eqn:Emp.
      * apply String.eqb_eq in Emp. subst msg. cbn [String.prefix]. apply IH.
      * destruct (String.prefix "subscribe:" msg) eqn:Ep; [|apply IH].
        destruct (IH (if send_text websocket "subscribed"
                      then acks0 ++ ["subscribed"] else acks0) h0)
          as (I1 & I2 & I3 & I4 & I5 & I6 & I7 & I8).
        split; [exact I1|]. split; [exact I2|]. split; [exact I3|].
        split; [exact I4|]. split; [exact I5|]. split; [exact I6|]. split.
        -- intros Hall. apply I7. destruct (send_text websocket "subscribed");
             [apply Forall_app; split; [exact Hall | now repeat constructor]
             | exact Hall].
        -- etransitivity; [exact I8|]. cbn [length].
           destruct (send_text websocket "subscribed");
             [rewrite length_app; cbn [length]; lia | lia].
    + cbn [fst snd disconnect_monitor _monitors _drivers last_known broadcasts].
      split; [intros ws Hne; rewrite elem_of_difference, elem_of_singleton; tauto|].
      split; [discriminate|].
      split; [intros _; rewrite elem_of_difference, elem_of_singleton; tauto|].
      repeat split; try tauto. lia.
    + cbn [fst snd disconnect_monitor _monitors _drivers last_known broadcasts].
      split; [intros ws Hne; rewrite elem_of_difference, elem_of_singleton; tauto|].
      split; [discriminate|].
      split; [intros _; rewrite elem_of_difference, elem_of_singleton; tauto|].
      repeat split; try tauto. lia.
Qed.

(** X14.  A monitor's handler registers its socket and keeps it registered
    while it runs; it deregisters that socket, and no other, when the client
    disconnects or the receive fails.  It never changes drivers, last-known
    records or pending broadcasts, and it answers nothing but [subscribed],
    at most once per received message that starts with [subscribe:]. *)
Theorem ws_monitor_registers_own_socket_only
    (send_text : nat -> string -> bool) (websocket : nat)
    (events : list monitor_event) (h : hub) :
  let r := ws_monitor send_text websocket events h in
  let st := fst (fst r) in
  let acks := snd (fst r) in
  let h' := snd r in
  (forall ws, ws <> websocket -> (ws ∈ _monitors h' <-> ws ∈ _monitors h)) /\
  (st = Running -> websocket ∈ _monitors h') /\
  (st = Closed -> websocket ∉ _monitors h') /\
  _drivers h' = _drivers h /\ last_known h' = last_known h /\
  broadcasts h' = broadcasts h /\
  Forall (fun a => a = "subscribed") acks /\
  (length acks <= length (List.filter is_subscribe events))%nat.
Proof.
  intros r st acks h'. subst st acks h' r. unfold ws_monitor.
  destruct (ws_monitor_loop_spec send_text websocket events []
              (connect_monitor websocket h))
    as (I1 & I2 & I3 & I4 & I5 & I6 & I7 & I8).
  cbn [connect_monitor _monitors _drivers last_known broadcasts] in I1, I2, I4, I5, I6.
  split.
  { intros ws Hne. rewrite (I1 ws Hne), elem_of_union, elem_of_singleton. tauto. }
  split.
  { intros Hrun. rewrite (I2 Hrun), elem_of_union, elem_of_singleton. tauto. }
  split; [exact I3|]. split; [exact I4|]. split; [exact I5|]. split; [exact I6|].
  split; [apply I7; constructor | exact I8].
Qed.

Lemma ws_monitor_registers_own_socket_only_witness :
  fst (fst (ws_monitor (fun _ _ => true) 3 [RecvText "subscribe:D2"; MonitorDisconnect]
              monitored_hub)) = Closed /\
  3%nat ∉ _monitors (snd (ws_monitor (fun _ _ => true) 3
                            [RecvText "subscribe:D2"; MonitorDisconnect] monitored_hub)).
Proof.
  assert (H : fst (fst (ws_monitor (fun _ _ => true) 3
                          [RecvText "subscribe:D2"; MonitorDisconnect] monitored_hub))
              = Closed) by reflexivity.
  split; [exact H|].
  exact (proj1 (proj2 (proj2 (ws_monitor_registers_own_socket_only (fun _ _ => true) 3
                                [RecvText "subscribe:D2"; MonitorDisconnect]
                                monitored_hub))) H).
Defined.

(** ** How long a reported position can be queried *)

Lemma cleanup_lookup (now : Q) (h : hub) (k : string) :
  last_known (cleanup_last_known now h) !! k =
  match last_known h !! k with
  | Some r => if Qltb (_received_at r) (now - LOCATION_RETENTION_SECONDS)
              then None else Some r
  | None => None
  end.
Proof.
  unfold cleanup_last_known. cbn [last_known]. rewrite lookup_foldl_delete.
  destruct (last_known h !! k) as [r|] eqn:E.
  - destruct (Qltb (_received_at r) (now - LOCATION_RETENTION_SECONDS)) eqn:Es.
    + rewrite decide_True; [reflexivity|].
      apply elem_of_to_remove. exists r. split; [exact E | now apply Qltb_lt].
    + rewrite decide_False; [reflexivity|].
      intros Hin. apply elem_of_to_remove in Hin. destruct Hin as (r' & Hr' & Hlt).
      assert (r' = r) by congruence. subst r'.
      apply Qltb_lt in Hlt. congruence.
  - now destruct (decide _).
Qed.

Lemma hub_eq (h1 h2 : hub) :
  _drivers h1 = _drivers h2 -> _monitors h1 = _monitors h2 ->
  last_known h1 = last_known h2 -> broadcasts h1 = broadcasts h2 -> h1 = h2.
Proof. destruct h1, h2. cbn. intros -> -> -> ->. reflexivity. Qed.

(** X15.  Cleanup passes compose: a pass at [t2] after a pass at an earlier
    time [t1] leaves the hub exactly as the pass at [t2] alone, so repeating
    a pass changes nothing.  A pass only removes records: what it keeps is
    unchanged, and it is the identity when no record is older than the
    retention window. *)
Theorem cleanup_last_known_composes (t1 t2 : Q) (h : hub) :
  (t1 <= t2 ->
   cleanup_last_known t2 (cleanup_last_known t1 h) = cleanup_last_known t2 h) /\
  cleanup_last_known t2 (cleanup_last_known t2 h) = cleanup_last_known t2 h /\
  (forall k r, last_known (cleanup_last_known t2 h) !! k = Some r ->
     last_known h !! k = Some r) /\
  ((forall k r, last_known h !! k = Some r ->
      t2 - LOCATION_RETENTION_SECONDS <= _received_at r) ->
   cleanup_last_known t2 h = h).
Proof.
  assert (Hcomp : forall a b, a <= b ->
            cleanup_last_known b (cleanup_last_known a h) = cleanup_last_known b h).
  { intros a b Hab. apply hub_eq; try reflexivity.
    apply map_eq. intros k. rewrite !cleanup_lookup.
    destruct (last_known h !! k) as [r|]; [|reflexivity].
    destruct (Qltb (_received_at r) (a - LOCATION_RETENTION_SECONDS)) eqn:Ea;
      [|reflexivity].
    apply Qltb_lt in Ea.
    rewrite (proj2 (Qltb_lt _ _)); [reflexivity | lra]. }
  split; [apply Hcomp|]. split; [apply Hcomp; lra|]. split.
  - intros k r. rewrite cleanup_lookup.
    destruct (last_known h !! k) as [r'|]; [|discriminate].
    now destruct (Qltb _ _).
  - intros Hfresh. apply hub_eq; try reflexivity.
    apply map_eq. intros k. rewrite cleanup_lookup.
    destruct (last_known h !! k) as [r|] eqn:E; [|reflexivity].
    now rewrite (proj2 (Qltb_ge _ _) (Hfresh k r E)).
Qed.

Lemma cleanup_last_known_composes_witness :
  (25200 <= 30000 /\
   cleanup_last_known 30000 (cleanup_last_known 25200 demo_hub)
   = cleanup_last_known 30000 demo_hub) /\
  last_known (cleanup_last_known 30000 demo_hub) !! "D2" = Some (demo_record 21600) /\
  last_known demo_hub !! "D2" = Some (demo_record 21600).
Proof.
  assert (H : 25200 <= 30000) by (vm_compute; discriminate).
  assert (H2 : last_known (cleanup_last_known 30000 demo_hub) !! "D2"
               = Some (demo_record 21600)) by (vm_compute; reflexivity).
  split; [split; [exact H|]|split; [exact H2|]].
  - exact (proj1 (cleanup_last_known_composes 25200 30000 demo_hub) H).
  - exact (proj1 (proj2 (proj2 (cleanup_last_known_composes 25200 30000 demo_hub)))
             "D2" (demo_record 21600) H2).
Defined.

(** The record [POST /location] stores. *)
Definition posted_record (payload : LocationPayload) (t_default t_recv : Q)
    : location_record :=
  {| lk_lat := lat payload; lk_lng := lng payload;
     lk_ts := VNum (match ts payload with Some t => t | None => t_default end);
     lk_meta := VDict (match meta payload with Some m => m | None => [] end);
     _received_at := t_recv |}.

Lemma post_location_result (str_to_float : string -> option Q)
    (payload : LocationPayload) (t_default t_recv : Q) (h : hub) :
  fst (post_location str_to_float payload t_default t_recv h) = Http200 true /\
  _drivers (snd (post_location str_to_float payload t_default t_recv h)) = _drivers h /\
  _monitors (snd (post_location str_to_float payload t_default t_recv h)) = _monitors h /\
  last_known (snd (post_location str_to_float payload t_default t_recv h))
  = <[driver_id payload := posted_record payload t_default t_recv]> (last_known h).
Proof.
  unfold post_location, receive_from_driver, bind, posted_record. simpl.
  destruct (ts payload); destruct (meta payload) as [[|x m]|]; now repeat split.
Qed.

(** X16.  A position posted over HTTP is always accepted; from then on
    [GET /locations/{driver_id}] answers with that position, with the given
    timestamp (or the time of the post when none was given) and the time of
    receipt, and the answers for the other drivers are as before.  After a
    cleanup pass the position is still answered when it was received within
    the retention window of six hours, and the answer is 404 when it was
    received earlier. *)
Theorem posted_location_kept_six_hours
    (str_to_float : string -> option Q) (payload : LocationPayload)
    (t_default t_recv now : Q) (h : hub) :
  driver_id payload <> "" ->
  let r := post_location str_to_float payload t_default t_recv h in
  let rec := posted_record payload t_default t_recv in
  fst r = Http200 true /\
  (forall d', d' <> driver_id payload -> d' <> "" ->
     get_location_driver d' (snd r) = get_location_driver d' h) /\
  get_location_driver (driver_id payload) (snd r) = LocFound rec /\
  (now - LOCATION_RETENTION_SECONDS <= t_recv ->
   get_location_driver (driver_id payload) (cleanup_last_known now (snd r))
   = LocFound rec) /\
  (t_recv < now - LOCATION_RETENTION_SECONDS ->
   get_location_driver (driver_id payload) (cleanup_last_known now (snd r))
   = Loc404).
Proof.
  intros Hid r rec. subst r.
  destruct (post_location_result str_to_float payload t_default t_recv h)
    as (H1 & _ & _ & H2).
  split; [exact H1|].
  assert (Hget : forall d' h', d' <> "" ->
            get_location_driver d' h' =
            match last_known h' !! d' with Some x => LocFound x | None => Loc404 end).
  { intros [|c d'] h' Hne; [contradiction | reflexivity]. }
  split.
  { intros d' Hne Hne'. rewrite !Hget by exact Hne'. rewrite H2.
    now rewrite lookup_insert_ne by congruence. }
  rewrite !Hget by exact Hid. rewrite cleanup_lookup, H2, lookup_insert_eq.
  split; [reflexivity|]. fold rec. change (_received_at rec) with t_recv.
  split; intros Ht.
  - now rewrite (proj2 (Qltb_ge _ _) Ht).
  - now rewrite (proj2 (Qltb_lt _ _) Ht).
Qed.

Definition demo_post : LocationPayload :=
  {| driver_id := "D3"; lat := 5; lng := 1; ts := None; meta := None |}.

Lemma posted_location_kept_six_hours_witness :
  driver_id demo_post <> "" /\
  fst (post_location no_text_floats demo_post 100 100 demo_hub) = Http200 true.
Proof.
  assert (H : driver_id demo_post <> "") by discriminate.
  split; [exact H|].
  exact (proj1 (posted_location_kept_six_hours no_text_floats demo_post 100 100 0
                  demo_hub H)).
Defined.

(** ** The simplified digraph connects what the multigraph connects *)

Section SimplifyFacts.
Variable str_to_float : string -> option Q.

Lemma parallel_weights_get_edge_data weight_key G u v :
  parallel_weights str_to_float weight_key (mg_edges G) u v =
  map (fun kd : Z * attrs => edge_wnum str_to_float weight_key (snd kd))
      (get_edge_data G u v).
Proof.
  unfold parallel_weights, get_edge_data.
  induction (mg_edges G) as [|[[[u' v'] k] data] es IH]; [reflexivity|].
  cbn [omap list_omap]. fold (@omap list _).
  destruct (decide ((u', v') = (u, v))); cbn [map snd]; [f_equal|]; exact IH.
Qed.

(** The sample stored with an edge is one of the parallel edges read so
    far, and the stored weight is that edge's. *)
Definition sample_inv (weight_key : string) (es : list (node * node * Z * attrs))
    (adj : list ((node * node) * simple_edge)) : Prop :=
  forall u v e, dict_get (u, v) adj = Some e ->
    weight e = edge_wnum str_to_float weight_key (orig_edge_sample e) /\
    exists k, (u, v, k, orig_edge_sample e) ∈ es.

Lemma simple_step_sample weight_key es adj e :
  sample_inv weight_key es adj ->
  sample_inv weight_key (es ++ [e]) (simple_step str_to_float weight_key adj e).
Proof.
  destruct e as [[[u0 v0] k0] data]. intros Hinv u v e.
  assert (Hold : dict_get (u, v) adj = Some e ->
            weight e = edge_wnum str_to_float weight_key (orig_edge_sample e) /\
            exists k, (u, v, k, orig_edge_sample e) ∈ es ++ [(u0, v0, k0, data)]).
  { intros H. destruct (Hinv u v e H) as [Hw [k Hk]]. split; [exact Hw|].
    exists k. apply elem_of_app. now left. }
  assert (Hnew : dict_get (u, v)
                   (dict_set (u0, v0)
                      {| weight := edge_wnum str_to_float weight_key data;
                         orig_edge_sample := data |} adj) = Some e ->
            weight e = edge_wnum str_to_float weight_key (orig_edge_sample e) /\
            exists k, (u, v, k, orig_edge_sample e) ∈ es ++ [(u0, v0, k0, data)]).
  { destruct (decide ((u0, v0) = (u, v))) as [E|Hne].
    - rewrite E, dict_get_set_eq. intros H. inversion H; subst e. cbn.
      split; [reflexivity|]. exists k0. apply elem_of_app. right.
      inversion E; subst. left.
    - rewrite dict_get_set_ne by exact Hne. exact Hold. }
  unfold simple_step.
  destruct (dict_get (u0, v0) adj) as [cur|]; [|exact Hnew].
  destruct (Qltb _ _); [exact Hnew | exact Hold].
Qed.

Lemma simplify_sample weight_key es :
  sample_inv weight_key es (foldl (simple_step str_to_float weight_key) [] es).
Proof.
  induction es as [|e r IH] using rev_ind.
  - intros u v e H. discriminate.
  - rewrite foldl_app. cbn [foldl]. now apply simple_step_sample.
Qed.

End SimplifyFacts.

(** X17.  The simplified digraph has the nodes of the multigraph, with their
    data, and one entry per connected pair: it has an edge from [u] to [v]
    exactly when the multigraph has at least one, so that the two graphs
    have the same paths.  The sample stored with an edge is the data of one
    of the parallel edges from [u] to [v], and the weight of the edge is the
    effective weight of that sample. *)
Theorem simple_digraph_same_connectivity
    (str_to_float : string -> option Q) (G : MultiDiGraph) (weight_key : string) :
  let S := _multigraph_to_simple_digraph_min str_to_float G weight_key in
  dg_nodes S = mg_nodes G /\
  wf (dg_adj S) /\
  forall u v,
    (dict_get (u, v) (dg_adj S) = None <-> get_edge_data G u v = []) /\
    (forall e, dict_get (u, v) (dg_adj S) = Some e ->
       (exists k, (k, orig_edge_sample e) ∈ get_edge_data G u v) /\
       weight e = edge_wnum str_to_float weight_key (orig_edge_sample e)).
Proof.
  intros S. split; [reflexivity|]. split; [apply simplify_wf, wf_nil|].
  intros u v. subst S. cbn [dg_adj _multigraph_to_simple_digraph_min].
  pose proof (simplify_inv str_to_float weight_key (mg_edges G) u v) as Hmin.
  pose proof (simplify_sample str_to_float weight_key (mg_edges G) u v) as Hs.
  rewrite parallel_weights_get_edge_data in Hmin.
  destruct (dict_get (u, v) (foldl (simple_step str_to_float weight_key) []
                                   (mg_edges G))) as [e|].
  - split.
    + split; [discriminate|]. intros Hnil. rewrite Hnil in Hmin.
      destruct Hmin as [Hin _]. inversion Hin.
    + intros e' He'. inversion He'; subst e'.
      destruct (Hs e eq_refl) as [Hw [k Hk]]. split; [|exact Hw].
      exists k. unfold get_edge_data. apply list_elem_of_omap.
      exists (u, v, k, orig_edge_sample e). split; [exact Hk|].
      cbn. now rewrite decide_True.
  - split; [|discriminate]. split; [|reflexivity]. intros _.
    destruct (get_edge_data G u v); [reflexivity | discriminate].
Qed.

Lemma simple_digraph_same_connectivity_witness :
  dict_get (1%Z, 2%Z)
    (dg_adj (_multigraph_to_simple_digraph_min no_text_floats twin_demo "length"))
  = Some {| weight := 2000; orig_edge_sample := [("length", VNum 2000)] |} /\
  exists k, (k, [("length", VNum 2000)]) ∈ get_edge_data twin_demo 1%Z 2%Z.
Proof.
  assert (H : dict_get (1%Z, 2%Z)
                (dg_adj (_multigraph_to_simple_digraph_min no_text_floats twin_demo
                           "length"))
              = Some {| weight := 2000; orig_edge_sample := [("length", VNum 2000)] |})
    by reflexivity.
  split; [exact H|].
  exact (proj1 (proj2 (proj2 (proj2 (simple_digraph_same_connectivity no_text_floats
                                       twin_demo "length")) 1%Z 2%Z) _ H)).
Defined.

(** ** The bounding box of a region file *)

Section BboxFacts.
Variable str_to_float : string -> option Q.

Definition is_node (elem : xml_elem) : bool :=
  ends_with (list_ascii_of_string "node") (list_ascii_of_string (e_tag elem)).

(** The coordinates of the node elements from which both could be read. *)
Definition node_points (elems : list xml_elem) : list (Q * Q) :=
  omap (fun e => if is_node e then node_xy str_to_float e else None) elems.

Lemma bbox_fold_points elems acc :
  foldl (bbox_step str_to_float) acc elems = foldl grow acc (node_points elems).
Proof.
  revert acc. induction elems as [|e r IH]; intros acc; [reflexivity|].
  cbn [foldl node_points omap list_omap]. fold (@omap list _).
  fold (node_points r). rewrite IH. unfold bbox_step. fold (is_node e).
  destruct (is_node e); [|reflexivity].
  now destruct (node_xy str_to_float e).
Qed.

(** [b] bounds the points [pts] and each of its four bounds is attained. *)
Definition tight_bbox (pts : list (Q * Q)) (b : bbox) : Prop :=
  let '(minx, miny, maxx, maxy) := b in
  (forall p, p ∈ pts -> in_bbox p b) /\
  (exists p, p ∈ pts /\ fst p == minx) /\
  (exists p, p ∈ pts /\ snd p == miny) /\
  (exists p, p ∈ pts /\ fst p == maxx) /\
  (exists p, p ∈ pts /\ snd p == maxy).

Lemma grow_tight pts b p :
  tight_bbox pts b ->
  exists b', grow (Some b) p = Some b' /\ tight_bbox (pts ++ [p]) b'.
Proof.
  destruct b as [[[minx miny] maxx] maxy], p as [x y].
  intros (Hall & (p1 & H1 & E1) & (p2 & H2 & E2) & (p3 & H3 & E3) & (p4 & H4 & E4)).
  eexists. split; [reflexivity|].
  pose proof (Q.le_min_l minx x). pose proof (Q.le_min_r minx x).
  pose proof (Q.le_min_l miny y). pose proof (Q.le_min_r miny y).
  pose proof (Q.le_max_l maxx x). pose proof (Q.le_max_r maxx x).
  pose proof (Q.le_max_l maxy y). pose proof (Q.le_max_r maxy y).
  assert (Hin : forall q, q ∈ pts -> q ∈ pts ++ [(x, y)])
    by (intros q Hq; apply elem_of_app; now left).
  assert (Hnew : (x, y) ∈ pts ++ [(x, y)]) by (apply elem_of_app; right; left).
  split; [|split; [|split; [|split]]].
  - intros q Hq. apply elem_of_app in Hq. destruct Hq as [Hq|Hq].
    + specialize (Hall q Hq). unfold in_bbox in *. lra.
    + apply list_elem_of_singleton in Hq. subst q. unfold in_bbox. cbn [fst snd]. lra.
  - destruct (Q.min_spec minx x) as [[_ E]|[_ E]].
    + exists p1. split; [auto|]. rewrite E. exact E1.
    + exists (x, y). split; [exact Hnew|]. cbn [fst]. now rewrite E.
  - destruct (Q.min_spec miny y) as [[_ E]|[_ E]].
    + exists p2. split; [auto|]. rewrite E. exact E2.
    + exists (x, y). split; [exact Hnew|]. cbn [snd]. now rewrite E.
  - destruct (Q.max_spec maxx x) as [[_ E]|[_ E]].
    + exists (x, y). split; [exact Hnew|]. cbn [fst]. now rewrite E.
    + exists p3. split; [auto|]. rewrite E. exact E3.
  - destruct (Q.max_spec maxy y) as [[_ E]|[_ E]].
    + exists (x, y). split; [exact Hnew|]. cbn [snd]. now rewrite E.
    + exists p4. split; [auto|]. rewrite E. exact E4.
Qed.

Lemma grow_fold_tight more pts b :
  tight_bbox pts b ->
  exists b', foldl grow (Some b) more = Some b' /\ tight_bbox (pts ++ more) b'.
Proof.
  revert pts b. induction more as [|p more IH]; intros pts b Hb.
  - exists b. split; [reflexivity|]. now rewrite app_nil_r.
  - destruct (grow_tight pts b p Hb) as (b1 & E1 & H1).
    destruct (IH (pts ++ [p]) b1 H1) as (b' & E' & H').
    exists b'. cbn [foldl]. rewrite E1. split; [exact E'|].
    now rewrite <- app_assoc in H'.
Qed.

Lemma grow_first_tight p :
  exists b, grow None p = Some b /\ tight_bbox [p] b.
Proof.
  destruct p as [x y]. eexists. split; [reflexivity|].
  split; [|repeat split; exists (x, y); (split; [left | reflexivity])].
  intros q Hq. apply list_elem_of_singleton in Hq. subst q.
  unfold in_bbox. cbn [fst snd]. lra.
Qed.

Lemma compute_bbox_spec elems :
  match _compute_bbox_from_graphml str_to_float (Some elems) with
  | Some b => tight_bbox (node_points elems) b
  | None => node_points elems = []
  end.
Proof.
  cbn [_compute_bbox_from_graphml]. rewrite bbox_fold_points.
  destruct (node_points elems) as [|p pts]; [reflexivity|].
  cbn [foldl]. destruct (grow_first_tight p) as (b & E & Hb). rewrite E.
  destruct (grow_fold_tight pts [p] b Hb) as (b' & E' & Hb').
  rewrite E'. exact Hb'.
Qed.

End BboxFacts.

(** X18.  The bounding box computed for a region file contains every node of
    the file whose coordinates could be read, so [_point_in_bbox] accepts
    each of them, and it is the smallest such box: each of its four bounds is
    the coordinate of some node.  The answer is [None] exactly when the file
    cannot be parsed or no node of it yields both coordinates. *)
Theorem bbox_contains_every_node
    (str_to_float : string -> option Q) (doc : option (list xml_elem)) :
  (forall p elems,
     p ∈ node_points str_to_float elems <->
     exists e, e ∈ elems /\ is_node e = true /\ node_xy str_to_float e = Some p) /\
  match _compute_bbox_from_graphml str_to_float doc with
  | Some (minx, miny, maxx, maxy) =>
      exists elems, doc = Some elems /\
        (forall x y, (x, y) ∈ node_points str_to_float elems ->
           _point_in_bbox x y (minx, miny, maxx, maxy) = true) /\
        (exists p, p ∈ node_points str_to_float elems /\ fst p == minx) /\
        (exists p, p ∈ node_points str_to_float elems /\ snd p == miny) /\
        (exists p, p ∈ node_points str_to_float elems /\ fst p == maxx) /\
        (exists p, p ∈ node_points str_to_float elems /\ snd p == maxy)
  | None => forall elems, doc = Some elems -> node_points str_to_float elems = []
  end.
Proof.
  split.
  - intros p elems. unfold node_points. rewrite list_elem_of_omap. split.
    + intros (e & He & Hp). exists e. split; [exact He|].
      destruct (is_node e); [now split | discriminate].
    + intros (e & He & Hn & Hp). exists e. split; [exact He|]. now rewrite Hn.
  - destruct doc as [elems|]; [|intros elems; discriminate].
    pose proof (compute_bbox_spec str_to_float elems) as H.
    destruct (_compute_bbox_from_graphml str_to_float (Some elems))
      as [[[[minx miny] maxx] maxy]|].
    + destruct H as (Hall & H1 & H2 & H3 & H4).
      exists elems. split; [reflexivity|]. split; [|now repeat split].
      intros x y Hin. apply _point_in_bbox_spec. now apply Hall.
    + intros elems' E. inversion E; subst elems'. exact H.
Qed.

(** A file with two nodes, at (-0.2, 5.5) and (-0.1, 5.7), and an edge. *)
Definition demo_doc : list xml_elem :=
  [ {| e_tag := "{http://graphml.graphdrawing.org/xmlns}node";
       e_children := [ {| d_tag := "data"; d_key := Some "y"; d_text := Some "5.5" |};
                       {| d_tag := "data"; d_key := Some "x"; d_text := Some "-0.2" |} ];
       e_descendant_texts := [Some "5.5"; Some "-0.2"] |};
    {| e_tag := "{http://graphml.graphdrawing.org/xmlns}node";
       e_children := [ {| d_tag := "data"; d_key := Some "y"; d_text := Some "5.7" |};
                       {| d_tag := "data"; d_key := Some "x"; d_text := Some "-0.1" |} ];
       e_descendant_texts := [Some "5.7"; Some "-0.1"] |};
    {| e_tag := "{http://graphml.graphdrawing.org/xmlns}edge";
       e_children := [ {| d_tag := "data"; d_key := Some "length";
                          d_text := Some "12.5" |} ];
       e_descendant_texts := [Some "12.5"] |} ].

(** [float] on the four coordinate texts of [demo_doc]. *)
Definition demo_float (s : string) : option Q :=
  if String.eqb s "5.5" then Some (55 # 10)
  else if String.eqb s "-0.2" then Some (-2 # 10)
  else if String.eqb s "5.7" then Some (57 # 10)
  else if String.eqb s "-0.1" then Some (-1 # 10)
  else if String.eqb s "12.5" then Some (125 # 10)
  else None.

Lemma bbox_contains_every_node_witness :
  _compute_bbox_from_graphml demo_float (Some demo_doc)
  = Some (-2 # 10, 55 # 10, -1 # 10, 57 # 10) /\
  (-1 # 10, 57 # 10) ∈ node_points demo_float demo_doc /\
  _point_in_bbox (-1 # 10) (57 # 10) (-2 # 10, 55 # 10, -1 # 10, 57 # 10) = true.
Proof.
  assert (E : _compute_bbox_from_graphml demo_float (Some demo_doc)
              = Some (-2 # 10, 55 # 10, -1 # 10, 57 # 10)) by (vm_compute; reflexivity).
  assert (Hin : (-1 # 10, 57 # 10) ∈ node_points demo_float demo_doc)
    by (right; left).
  split; [exact E|]. split; [exact Hin|].
  destruct (bbox_contains_every_node demo_float (Some demo_doc)) as [_ H].
  rewrite E in H. destruct H as (elems & Ed & Hall & _).
  inversion Ed; subst elems. exact (Hall _ _ Hin).
Defined.

(** ** Building the region index *)

Section IndexFacts.
Variable str_to_float : string -> option Q.

(** The files [build_region_index] indexes: the matches of the region
    pattern, or every GraphML file when there is none. *)
Definition indexed_files (dir : index_dir) : list (string * string) :=
  match region_files dir with
  | [] => graphml_files dir
  | _ :: _ => region_files dir
  end.

(** Every entry comes from a listed file that has a bounding box. *)
Definition from_files (dir : index_dir) (files : list (string * string))
    (idx : region_index) : Prop :=
  forall name meta, (name, meta) ∈ idx ->
    (name, path meta) ∈ files /\
    exists b, bbox_of meta = Some b /\
      _compute_bbox_from_graphml str_to_float (parse_graphml dir (path meta)) = Some b.

Lemma elem_of_dict_set {V : Type} (k : string) (v : V) (d : list (string * V)) k' v' :
  (k', v') ∈ dict_set k v d -> (k', v') = (k, v) \/ (k', v') ∈ d.
Proof.
  induction d as [|[k0 v0] r IH]; cbn [dict_set].
  - intros H. apply list_elem_of_singleton in H. now left.
  - destruct (decide (k = k0)) as [->|Hne]; intros H; apply elem_of_cons in H;
      destruct H as [H|H]; auto.
    + right. now right.
    + right. rewrite H. left.
    + destruct (IH H) as [E|E]; [now left | right; now right].
Qed.

Lemma index_files_spec dir files done idx :
  wf idx -> from_files dir done idx ->
  (forall name pth b, (name, pth) ∈ done ->
     _compute_bbox_from_graphml str_to_float (parse_graphml dir pth) = Some b ->
     In name (keys idx)) ->
  let idx' := foldl (index_file str_to_float dir) idx files in
  wf idx' /\ from_files dir (done ++ files) idx' /\
  (forall name pth b, (name, pth) ∈ done ++ files ->
     _compute_bbox_from_graphml str_to_float (parse_graphml dir pth) = Some b ->
     In name (keys idx')).
Proof.
  revert done idx. induction files as [|[name0 pth0] files IH];
    intros done idx Hwf Hfrom Hall; cbv zeta.
  - rewrite app_nil_r. cbn [foldl]. split; [exact Hwf|]. split; [exact Hfrom | exact Hall].
  - cbn [foldl].
    replace (done ++ (name0, pth0) :: files) with ((done ++ [(name0, pth0)]) ++ files)
      by now rewrite <- app_assoc.
    apply IH; unfold index_file; cbn [fst snd];
      destruct (_compute_bbox_from_graphml str_to_float (parse_graphml dir pth0))
        as [b0|] eqn:Eb.
    + now apply wf_dict_set.
    + exact Hwf.
    + intros name meta Hin. apply elem_of_dict_set in Hin. destruct Hin as [E|Hin].
      * inversion E; subst name meta. cbn [path bbox_of]. split.
        -- apply elem_of_app. right. left.
        -- exists b0. now split.
      * destruct (Hfrom name meta Hin) as [H1 H2]. split; [|exact H2].
        apply elem_of_app. now left.
    + intros name meta Hin. destruct (Hfrom name meta Hin) as [H1 H2].
      split; [|exact H2]. apply elem_of_app. now left.
    + intros name pth b Hin Hb. apply elem_of_app in Hin. destruct Hin as [Hin|Hin].
      * specialize (Hall name pth b Hin Hb).
        destruct (decide (name0 = name)) as [->|Hne].
        -- rewrite keys_dict_set_present; [exact Hall | exact Hall].
        -- destruct (in_dec (fun a b => decide (a = b)) name0 (keys idx)) as [Hk|Hk].
           ++ now rewrite keys_dict_set_present.
           ++ rewrite keys_dict_set_absent by exact Hk. apply in_app_iff. now left.
      * apply list_elem_of_singleton in Hin. inversion Hin; subst name pth.
        assert (Hg : dict_get name0
                       (dict_set name0 {| path := pth0; bbox_of := Some b0 |} idx)
                     <> None) by (rewrite dict_get_set_eq; discriminate).
        destruct (in_dec (fun a b => decide (a = b)) name0
                    (keys (dict_set name0 {| path := pth0; bbox_of := Some b0 |} idx)))
          as [Hk|Hk]; [exact Hk|].
        apply dict_get_None_keys in Hk. contradiction.
    + intros name pth b Hin Hb. apply elem_of_app in Hin. destruct Hin as [Hin|Hin].
      * exact (Hall name pth b Hin Hb).
      * apply list_elem_of_singleton in Hin. inversion Hin; subst name pth. congruence.
Qed.

End IndexFacts.

(** X19.  Without [force], a saved index that loads is returned as it is and
    nothing is written.  Otherwise the index is built from the files of the
    region pattern, or from all GraphML files when the pattern matches none:
    it has exactly one entry for each file name whose file has a bounding
    box, every entry carries the path and the bounding box of such a file,
    and files without a bounding box are left out.  The index built is
    written when the index file is writable, and the next call without
    [force] then returns the same index. *)
Theorem build_region_index_entries
    (str_to_float : string -> option Q) (force : bool) (dir : index_dir) :
  let r := build_region_index str_to_float force dir in
  (forall idx, force = false -> saved_index dir = Some idx -> r = (idx, None)) /\
  (force = true \/ saved_index dir = None ->
   wf (fst r) /\
   from_files str_to_float dir (indexed_files dir) (fst r) /\
   (forall name pth b, (name, pth) ∈ indexed_files dir ->
      _compute_bbox_from_graphml str_to_float (parse_graphml dir pth) = Some b ->
      In name (keys (fst r))) /\
   snd r = (if writable dir then Some (fst r) else None) /\
   (writable dir = true ->
    build_region_index str_to_float false
      {| saved_index := snd r; region_files := region_files dir;
         graphml_files := graphml_files dir; parse_graphml := parse_graphml dir;
         writable := writable dir |} = (fst r, None))).
Proof.
  intros r. split.
  - intros idx -> E. unfold r, build_region_index. now rewrite E.
  - intros Hbuild.
    assert (E : r = (foldl (index_file str_to_float dir) [] (indexed_files dir),
                     if writable dir
                     then Some (foldl (index_file str_to_float dir) []
                                  (indexed_files dir))
                     else None)).
    { unfold r, build_region_index, indexed_files.
      destruct Hbuild as [->|Hs]; [reflexivity|].
      rewrite Hs. now destruct force. }
    rewrite E. cbn [fst snd].
    destruct (index_files_spec str_to_float dir (indexed_files dir) [] [] wf_nil)
      as (H1 & H2 & H3).
    + intros name meta Hin. inversion Hin.
    + intros name pth b Hin. inversion Hin.
    + cbn [app] in H2, H3. split; [exact H1|]. split; [exact H2|].
      split; [exact H3|]. split; [reflexivity|].
      intros Hw. rewrite Hw. reflexivity.
Qed.

Definition demo_dir : index_dir :=
  {| saved_index := None;
     region_files := [("Greater_Accra_Region_Ghana.graphml",
                       "data/Greater_Accra_Region_Ghana.graphml");
                      ("Volta_Region_Ghana.graphml", "data/Volta_Region_Ghana.graphml")];
     graphml_files := [];
     parse_graphml := fun p => if String.eqb p "data/Greater_Accra_Region_Ghana.graphml"
                               then Some demo_doc else None;
     writable := true |}.

Lemma build_region_index_entries_witness :
  (false = true \/ saved_index demo_dir = None) /\
  wf (fst (build_region_index demo_float false demo_dir)) /\
  keys (fst (build_region_index demo_float false demo_dir))
  = ["Greater_Accra_Region_Ghana.graphml"].
Proof.
  assert (H : false = true \/ saved_index demo_dir = None) by (right; reflexivity).
  split; [exact H|]. split; [|vm_compute; reflexivity].
  exact (proj1 (proj2 (build_region_index_entries demo_float false demo_dir) H)).
Defined.

(** ** The precision of the route cache key *)

Lemma round_half_even_near (x : Q) :
  inject_Z (round_half_even x) - (1 # 2) <= x <= inject_Z (round_half_even x) + (1 # 2).
Proof.
  unfold round_half_even.
  pose proof (Qfloor_le x) as Hlo. pose proof (Qlt_floor x) as Hhi.
  rewrite inject_Z_plus in Hhi. change (inject_Z 1) with 1 in Hhi.
  destruct (Qcompare (x - inject_Z (Qfloor x)) (1 # 2)) eqn:E.
  - apply Qeq_alt in E.
    destruct (Z.even (Qfloor x)); [|rewrite inject_Z_plus; change (inject_Z 1) with 1]; lra.
  - apply Qlt_alt in E. lra.
  - apply Qgt_alt in E. rewrite inject_Z_plus. change (inject_Z 1) with 1. lra.
Qed.

Lemma round_half_even_comp (x y : Q) : x == y -> round_half_even x = round_half_even y.
Proof.
  intros E. unfold round_half_even. rewrite (Qfloor_comp x y E).
  assert (Ec : Qcompare (x - inject_Z (Qfloor y)) (1 # 2)
               = Qcompare (y - inject_Z (Qfloor y)) (1 # 2))
    by (apply Qcompare_comp; [rewrite E|]; reflexivity).
  now rewrite Ec.
Qed.

Lemma round_half_even_int (n : Z) : round_half_even (inject_Z n) = n.
Proof.
  unfold round_half_even. rewrite Qfloor_Z.
  assert (E : Qcompare (inject_Z n - inject_Z n) (1 # 2) = Lt)
    by (apply (proj1 (Qlt_alt _ _)); lra).
  now rewrite E.
Qed.

Definition coord_unit : Q := 1 / inject_Z (10 ^ COORD_ROUND_DECIMALS).

Lemma round_coord_close (x y : Q) :
  round_coord x = round_coord y -> - coord_unit <= x - y <= coord_unit.
Proof.
  unfold round_coord, coord_unit. intros E.
  pose proof (round_half_even_near (x * inject_Z (10 ^ COORD_ROUND_DECIMALS))) as Hx.
  pose proof (round_half_even_near (y * inject_Z (10 ^ COORD_ROUND_DECIMALS))) as Hy.
  rewrite E in Hx.
  change (inject_Z (10 ^ COORD_ROUND_DECIMALS)) with 10000000 in *.
  set (r := inject_Z (round_half_even (y * 10000000))) in *. clearbody r. clear E.
  assert (Hu : 1 / 10000000 == 1 # 10000000) by reflexivity.
  rewrite Hu. lra.
Qed.

Lemma round_coord_grid (n : Z) : round_coord (inject_Z n * coord_unit) = n.
Proof.
  unfold round_coord, coord_unit.
  rewrite (round_half_even_comp _ (inject_Z n)); [apply round_half_even_int|].
  change (inject_Z (10 ^ COORD_ROUND_DECIMALS)) with 10000000. field.
Qed.

(** X20.  Two requests get the same route cache key only when their
    alternatives are equal and each of the four coordinates differs by at
    most 1e-7 degrees; equal requests get equal keys; and on coordinates
    given with seven decimals the key is exact: it determines the four
    coordinates. *)
Theorem cache_key_precision (a b c d a' b' c' d' : Q) (k k' : Z) :
  (_make_cache_key a b c d k = _make_cache_key a' b' c' d' k' ->
   k = k' /\
   - coord_unit <= a - a' <= coord_unit /\ - coord_unit <= b - b' <= coord_unit /\
   - coord_unit <= c - c' <= coord_unit /\ - coord_unit <= d - d' <= coord_unit) /\
  (a == a' -> b == b' -> c == c' -> d == d' ->
   _make_cache_key a b c d k = _make_cache_key a' b' c' d' k) /\
  (forall n m p q : Z,
     _make_cache_key (inject_Z n * coord_unit) (inject_Z m * coord_unit)
                     (inject_Z p * coord_unit) (inject_Z q * coord_unit) k
     = (n, m, p, q, k)) /\
  coord_unit == 1 # 10000000.
Proof.
  split; [|split; [|split]].
  - unfold _make_cache_key. intros E. inversion E as [[Ea Eb Ec Ed Ek]].
    split; [reflexivity|].
    split; [now apply round_coord_close|]. split; [now apply round_coord_close|].
    split; now apply round_coord_close.
  - intros Ea Eb Ec Ed. unfold _make_cache_key, round_coord.
    rewrite (round_half_even_comp (a * _) (a' * _)) by now rewrite Ea.
    rewrite (round_half_even_comp (b * _) (b' * _)) by now rewrite Eb.
    rewrite (round_half_even_comp (c * _) (c' * _)) by now rewrite Ec.
    rewrite (round_half_even_comp (d * _) (d' * _)) by now rewrite Ed.
    reflexivity.
  - intros n m p q. unfold _make_cache_key. now rewrite !round_coord_grid.
  - reflexivity.
Qed.

Lemma cache_key_precision_witness :
  _make_cache_key (56037 # 10000) (-1870 # 10000) (55600 # 10000) (-2050 # 10000) 1
  = _make_cache_key (560370000004 # 100000000000) (-1870 # 10000) (55600 # 10000)
                    (-2050 # 10000) 1 /\
  - coord_unit <= (56037 # 10000) - (560370000004 # 100000000000) <= coord_unit.
Proof.
  assert (E : _make_cache_key (56037 # 10000) (-1870 # 10000) (55600 # 10000)
                (-2050 # 10000) 1
              = _make_cache_key (560370000004 # 100000000000) (-1870 # 10000)
                  (55600 # 10000) (-2050 # 10000) 1).
  { vm_compute. reflexivity. }
  split; [exact E|].
  exact (proj1 (proj2 (proj1 (cache_key_precision (56037 # 10000) (-1870 # 10000)
                                (55600 # 10000) (-2050 # 10000)
                                (560370000004 # 100000000000) (-1870 # 10000)
                                (55600 # 10000) (-2050 # 10000) 1 1) E))).
Defined.

(* ================================================================== *)
(** * Properties of the caller in driver_routes.py *)
(* ================================================================== *)

(** The answers to lookups of [key] at the given pairs of clock readings. *)
Fixpoint flask_lookups (key : DriverRoutes.flask_key) (times : list (Q * Q))
    (st : DriverRoutes.flask_caches) : list (option pyval) :=
  match times with
  | [] => []
  | (now_check, now_touch) :: rest =>
      fst (DriverRoutes.flask_cache_get key now_check now_touch st) ::
      flask_lookups key rest
        (snd (DriverRoutes.flask_cache_get key now_check now_touch st))
  end.

(** Each lookup comes within the TTL of the access before it. *)
Fixpoint gaps_within_ttl (last : Q) (times : list (Q * Q)) : Prop :=
  match times with
  | [] => True
  | (now_check, now_touch) :: rest =>
      now_check - last <= DriverRoutes.FLASK_ROUTE_CACHE_TTL /\
      gaps_within_ttl now_touch rest
  end.

Lemma flask_cache_set_stores key value now st :
  dict_get key (DriverRoutes.FLASK_ROUTE_CACHE
                  (DriverRoutes.flask_cache_set key value now st)) = Some value /\
  dict_get key (DriverRoutes.FLASK_ROUTE_CACHE_META
                  (DriverRoutes.flask_cache_set key value now st)) = Some now.
Proof.
  unfold DriverRoutes.flask_cache_set.
  destruct (dict_mem key (DriverRoutes.FLASK_ROUTE_CACHE st));
    cbn [DriverRoutes.FLASK_ROUTE_CACHE DriverRoutes.FLASK_ROUTE_CACHE_META];
    split; apply dict_get_set_eq.
Qed.

Lemma flask_cache_get_hit key value last now_check now_touch st :
  dict_get key (DriverRoutes.FLASK_ROUTE_CACHE st) = Some value ->
  dict_get key (DriverRoutes.FLASK_ROUTE_CACHE_META st) = Some last ->
  truthy value = true ->
  now_check - last <= DriverRoutes.FLASK_ROUTE_CACHE_TTL ->
  fst (DriverRoutes.flask_cache_get key now_check now_touch st) = Some value /\
  dict_get key (DriverRoutes.FLASK_ROUTE_CACHE
                  (snd (DriverRoutes.flask_cache_get key now_check now_touch st)))
  = Some value /\
  dict_get key (DriverRoutes.FLASK_ROUTE_CACHE_META
                  (snd (DriverRoutes.flask_cache_get key now_check now_touch st)))
  = Some now_touch.
Proof.
  intros Hc Hm Ht Hfresh. unfold DriverRoutes.flask_cache_get.
  rewrite Hc, Hm, Ht. cbn [negb]. rewrite (proj2 (Qltb_ge _ _) Hfresh).
  cbn [fst snd DriverRoutes.FLASK_ROUTE_CACHE DriverRoutes.FLASK_ROUTE_CACHE_META].
  split; [reflexivity|]. split; [exact Hc | apply dict_get_set_eq].
Qed.

Lemma flask_lookups_hit key value times :
  truthy value = true ->
  forall last st,
    dict_get key (DriverRoutes.FLASK_ROUTE_CACHE st) = Some value ->
    dict_get key (DriverRoutes.FLASK_ROUTE_CACHE_META st) = Some last ->
    gaps_within_ttl last times ->
    Forall (fun v => v = Some value) (flask_lookups key times st).
Proof.
  intros Ht. induction times as [|[c t] rest IH]; intros last st Hc Hm Hg;
    cbn [flask_lookups]; [constructor|].
  destruct Hg as [Hfresh Hg].
  destruct (flask_cache_get_hit key value last c t st Hc Hm Ht Hfresh) as (H1 & H2 & H3).
  constructor; [exact H1|]. now apply (IH t).
Qed.

(** X21.  The lifetime of an entry of the caller's cache slides: after
    [flask_cache_set], every lookup of the key that comes within the TTL of
    the access before it hits with the stored value, whatever the time since
    the store; a lookup later than the TTL after the last access misses and
    removes the entry.  A falsy value (an empty dict) is stored but never
    returned, and looking it up never removes it. *)
Theorem flask_cache_lifetime_slides
    (key : DriverRoutes.flask_key) (value : pyval) (t0 : Q) (times : list (Q * Q))
    (st : DriverRoutes.flask_caches) :
  let st1 := DriverRoutes.flask_cache_set key value t0 st in
  (truthy value = true -> gaps_within_ttl t0 times ->
   Forall (fun v => v = Some value) (flask_lookups key times st1)) /\
  (truthy value = true ->
   forall now_check now_touch,
     DriverRoutes.FLASK_ROUTE_CACHE_TTL < now_check - t0 ->
     fst (DriverRoutes.flask_cache_get key now_check now_touch st1) = None /\
     dict_get key (DriverRoutes.FLASK_ROUTE_CACHE
                     (snd (DriverRoutes.flask_cache_get key now_check now_touch st1)))
     = None) /\
  (truthy value = false ->
   forall now_check now_touch,
     DriverRoutes.flask_cache_get key now_check now_touch st1 = (None, st1)).
Proof.
  intros st1. destruct (flask_cache_set_stores key value t0 st) as [Hc Hm].
  fold st1 in Hc, Hm. split; [|split].
  - intros Ht Hg. exact (flask_lookups_hit key value times Ht t0 st1 Hc Hm Hg).
  - intros Ht c t Hlate. unfold DriverRoutes.flask_cache_get.
    rewrite Hc, Hm, Ht. cbn [negb]. rewrite (proj2 (Qltb_lt _ _) Hlate).
    cbn [fst snd DriverRoutes.FLASK_ROUTE_CACHE]. split; [reflexivity|].
    apply dict_get_pop_eq.
  - intros Hf c t. unfold DriverRoutes.flask_cache_get. now rewrite Hc, Hf.
Qed.

Definition empty_flask_caches : DriverRoutes.flask_caches :=
  {| DriverRoutes.FLASK_ROUTE_CACHE := []; DriverRoutes.FLASK_ROUTE_CACHE_META := [] |}.

Definition demo_flask_key : DriverRoutes.flask_key := (560370, -18700, 556000, -20500, 2)%Z.

Lemma flask_cache_lifetime_slides_witness :
  truthy (VDict [("eta_min", VNum 6)]) = true /\
  gaps_within_ttl 0 [(200, 200); (400, 400); (600, 600)] /\
  Forall (fun v => v = Some (VDict [("eta_min", VNum 6)]))
    (flask_lookups demo_flask_key [(200, 200); (400, 400); (600, 600)]
       (DriverRoutes.flask_cache_set demo_flask_key (VDict [("eta_min", VNum 6)]) 0
          empty_flask_caches)).
Proof.
  assert (Ht : truthy (VDict [("eta_min", VNum 6)]) = true) by reflexivity.
  assert (Hg : gaps_within_ttl 0 [(200, 200); (400, 400); (600, 600)]).
  { cbn [gaps_within_ttl]. repeat split; vm_compute; discriminate. }
  split; [exact Ht|]. split; [exact Hg|].
  exact (proj1 (flask_cache_lifetime_slides demo_flask_key (VDict [("eta_min", VNum 6)])
                  0 [(200, 200); (400, 400); (600, 600)] empty_flask_caches) Ht Hg).
Defined.

(** ** The route of a delivery *)


(** The four coordinates of the delivery, when none is missing or zero. *)
Definition delivery_coordinates (d : DriverRoutes.Delivery) : option (Q * Q * Q * Q) :=
  match DriverRoutes.coordinate (DriverRoutes.pickup_lat d),
        DriverRoutes.coordinate (DriverRoutes.pickup_lng d),
        DriverRoutes.coordinate (DriverRoutes.dropoff_lat d),
        DriverRoutes.coordinate (DriverRoutes.dropoff_lng d) with
  | Some plat, Some plng, Some dlat, Some dlng => Some (plat, plng, dlat, dlng)
  | _, _, _, _ => None
  end.

Definition delivery_key (c : Q * Q * Q * Q) : DriverRoutes.flask_key :=
  let '(plat, plng, dlat, dlng) := c in
  (DriverRoutes.round5 plat, DriverRoutes.round5 plng,
   DriverRoutes.round5 dlat, DriverRoutes.round5 dlng, 2%Z).

Lemma route_for_delivery_unfold d call tc tt ts st plat plng dlat dlng :
  delivery_coordinates d = Some (plat, plng, dlat, dlng) ->
  DriverRoutes.route_for_delivery (Some d) call tc tt ts st =
  let key := delivery_key (plat, plng, dlat, dlng) in
  match DriverRoutes.flask_cache_get key tc tt st with
  | (Some cached, st') =>
      match cached with
      | VDict c => (DriverRoutes.Json200 (DriverRoutes.with_from_cache true c), st', false)
      | _ => (DriverRoutes.Crash500, st', false)
      end
  | (None, st') =>
      match call plat plng dlat dlng with
      | DriverRoutes.Reply data =>
          let st'' := DriverRoutes.flask_cache_set key data ts st' in
          match data with
          | VDict c =>
              (DriverRoutes.Json200 (DriverRoutes.with_from_cache false c), st'', true)
          | _ => (DriverRoutes.Json502, st'', true)
          end
      | DriverRoutes.TimedOut => (DriverRoutes.Json504, st', true)
      | DriverRoutes.Failed => (DriverRoutes.Json502, st', true)
      end
  end.
Proof.
  unfold delivery_coordinates, DriverRoutes.route_for_delivery, delivery_key.
  destruct (DriverRoutes.coordinate (DriverRoutes.pickup_lat d)); [|discriminate].
  destruct (DriverRoutes.coordinate (DriverRoutes.pickup_lng d)); [|discriminate].
  destruct (DriverRoutes.coordinate (DriverRoutes.dropoff_lat d)); [|discriminate].
  destruct (DriverRoutes.coordinate (DriverRoutes.dropoff_lng d)); [|discriminate].
  intros H. inversion H; subst. reflexivity.
Qed.



(** The body the routing service sends for a computed route. *)
Definition demo_body : list (string * pyval) :=
  [("from_cache", VBool false); ("eta_min", VNum 6)].


(** X23.  A delivery with a missing or zero coordinate is answered with 400
    without looking at the cache or calling the service; so is, in
    particular, a delivery on the equator or on the prime meridian.  When the
    service times out the answer is 504, when it fails otherwise 502, and
    nothing is stored: the cache is as the lookup left it.  A row that does
    not exist is answered with 404. *)
Theorem route_for_delivery_rejections
    (d : DriverRoutes.Delivery)
    (call : Q -> Q -> Q -> Q -> DriverRoutes.service_reply)
    (tc tt ts : Q) (st : DriverRoutes.flask_caches) :
  DriverRoutes.route_for_delivery None call tc tt ts st = (DriverRoutes.Json404, st, false) /\
  (delivery_coordinates d = None ->
   DriverRoutes.route_for_delivery (Some d) call tc tt ts st
   = (DriverRoutes.Json400, st, false)) /\
  (delivery_coordinates d = None <->
   exists c, c ∈ [DriverRoutes.pickup_lat d; DriverRoutes.pickup_lng d;
                  DriverRoutes.dropoff_lat d; DriverRoutes.dropoff_lng d] /\
             (c = None \/ exists q, c = Some q /\ q == 0)) /\
  (forall plat plng dlat dlng,
     delivery_coordinates d = Some (plat, plng, dlat, dlng) ->
     fst (DriverRoutes.flask_cache_get (delivery_key (plat, plng, dlat, dlng)) tc tt st)
     = None ->
     let st' := snd (DriverRoutes.flask_cache_get
                       (delivery_key (plat, plng, dlat, dlng)) tc tt st) in
     (call plat plng dlat dlng = DriverRoutes.TimedOut ->
      DriverRoutes.route_for_delivery (Some d) call tc tt ts st
      = (DriverRoutes.Json504, st', true)) /\
     (call plat plng dlat dlng = DriverRoutes.Failed ->
      DriverRoutes.route_for_delivery (Some d) call tc tt ts st
      = (DriverRoutes.Json502, st', true))).
Proof.
  split; [reflexivity|]. split; [|split].
  - unfold delivery_coordinates, DriverRoutes.route_for_delivery.
    destruct (DriverRoutes.coordinate (DriverRoutes.pickup_lat d)); [|reflexivity].
    destruct (DriverRoutes.coordinate (DriverRoutes.pickup_lng d)); [|reflexivity].
    destruct (DriverRoutes.coordinate (DriverRoutes.dropoff_lat d)); [|reflexivity].
    destruct (DriverRoutes.coordinate (DriverRoutes.dropoff_lng d)); [discriminate|].
    reflexivity.
  - assert (Hc : forall c, DriverRoutes.coordinate c = None <->
                           (c = None \/ exists q, c = Some q /\ q == 0)).
    { intros [q|]; unfold DriverRoutes.coordinate.
      - destruct (Qeq_bool q 0) eqn:E.
        + apply Qeq_bool_iff in E. split; [intros _; right; eauto | reflexivity].
        + split; [discriminate|]. intros [H|(q' & H & Hz)]; [discriminate|].
          inversion H; subst q'. apply Qeq_bool_iff in Hz. congruence.
      - split; [now left | reflexivity]. }
    unfold delivery_coordinates. split.
    + intros H.
      destruct (DriverRoutes.coordinate (DriverRoutes.pickup_lat d)) eqn:E1;
        [|exists (DriverRoutes.pickup_lat d); split; [left | now apply Hc]].
      destruct (DriverRoutes.coordinate (DriverRoutes.pickup_lng d)) eqn:E2;
        [|exists (DriverRoutes.pickup_lng d); split; [right; left | now apply Hc]].
      destruct (DriverRoutes.coordinate (DriverRoutes.dropoff_lat d)) eqn:E3;
        [|exists (DriverRoutes.dropoff_lat d);
          split; [right; right; left | now apply Hc]].
      destruct (DriverRoutes.coordinate (DriverRoutes.dropoff_lng d)) eqn:E4;
        [discriminate|].
      exists (DriverRoutes.dropoff_lng d).
      split; [right; right; right; left | now apply Hc].
    + intros (c & Hin & Hbad). apply Hc in Hbad.
      repeat (apply elem_of_cons in Hin; destruct Hin as [->|Hin]);
        [| | | | inversion Hin]; rewrite Hbad;
        repeat match goal with
               | |- context [match DriverRoutes.coordinate ?x with _ => _ end] =>
                   destruct (DriverRoutes.coordinate x)
               end; reflexivity.
  - intros plat plng dlat dlng Hco Hmiss st'. subst st'.
    rewrite (route_for_delivery_unfold d call tc tt ts st _ _ _ _ Hco). cbv zeta.
    destruct (DriverRoutes.flask_cache_get (delivery_key (plat, plng, dlat, dlng)) tc tt st)
      as [o s1]. cbn [fst snd] in *. subst o.
    split; intros ->; reflexivity.
Qed.

(** A delivery picked up on the prime meridian. *)
Definition meridian_delivery : DriverRoutes.Delivery :=
  {| DriverRoutes.pickup_lat := Some (56 # 10);
     DriverRoutes.pickup_lng := Some 0;
     DriverRoutes.dropoff_lat := Some (55600 # 10000);
     DriverRoutes.dropoff_lng := Some (-2050 # 10000) |}.

Lemma route_for_delivery_rejections_witness :
  delivery_coordinates meridian_delivery = None /\
  DriverRoutes.route_for_delivery (Some meridian_delivery)
    (fun _ _ _ _ => DriverRoutes.Reply (VDict demo_body)) 0 0 0 empty_flask_caches
  = (DriverRoutes.Json400, empty_flask_caches, false).
Proof.
  assert (H : delivery_coordinates meridian_delivery = None) by reflexivity.
  split; [exact H|].
  exact (proj1 (proj2 (route_for_delivery_rejections meridian_delivery
                         (fun _ _ _ _ => DriverRoutes.Reply (VDict demo_body))
                         0 0 0 empty_flask_caches)) H).
Defined.

(* ================================================================== *)
(** * The graph cache keeps what was used last *)
(* ================================================================== *)

Lemma third_key {V : Type} (d : list (string * V)) (a b : string) :
  wf d -> (3 <= length d)%nat ->
  exists k v, In (k, v) d /\ k <> a /\ k <> b.
Proof.
  intros Hwf Hlen.
  destruct d as [|[k1 v1] [|[k2 v2] [|[k3 v3] r]]]; cbn in Hlen; try lia.
  unfold wf in Hwf. cbn in Hwf.
  inversion Hwf as [|? ? N1 Hwf']; subst. inversion Hwf' as [|? ? N2 _]; subst.
  cbn in N1, N2.
  destruct (decide (k1 = a)) as [E1|E1]; destruct (decide (k1 = b)) as [F1|F1];
  destruct (decide (k2 = a)) as [E2|E2]; destruct (decide (k2 = b)) as [F2|F2];
  destruct (decide (k3 = a)) as [E3|E3]; destruct (decide (k3 = b)) as [F3|F3];
  subst;
  try (exfalso; tauto);
  try (exists k1, v1; split; [left; reflexivity | split; assumption]);
  try (exists k2, v2; split; [right; left; reflexivity | split; assumption]);
  try (exists k3, v3; split; [right; right; left; reflexivity | split; assumption]).
Qed.

Section LruFacts.
Variable str_to_float : string -> option Q.
Variable project_graph : MultiDiGraph -> option MultiDiGraph.
Variable compose_all : list MultiDiGraph -> MultiDiGraph.
Variable max_loaded : nat.

(** Every entry but the one of [keyA] is older than [tA]. *)
Definition newest (keyA : string) (tA : Q) (cache : loaded_cache) : Prop :=
  forall k e, k <> keyA -> dict_get k cache = Some e -> fst e < tA.

Lemma recent_entry_survives keyA tA gA keyB now g (cache : loaded_cache) :
  wf cache -> (length cache <= max_loaded)%nat -> (2 <= max_loaded)%nat ->
  dict_get keyA cache = Some (tA, gA) -> newest keyA tA cache -> keyB <> keyA ->
  exists evicted,
    fst (_evict_if_needed max_loaded (dict_set keyB (now, g) cache)) = Ok evicted /\
    dict_get keyA (snd (_evict_if_needed max_loaded (dict_set keyB (now, g) cache)))
    = Some (tA, gA).
Proof.
  intros Hwf Hlen Hcap HA Hnew Hne.
  set (cache1 := dict_set keyB (now, g) cache).
  assert (Hwf1 : wf cache1) by now apply wf_dict_set.
  destruct (_evict_if_needed_spec max_loaded cache1 Hwf1) as (E & _ & _).
  rewrite E. cbn [fst snd]. eexists. split; [reflexivity|].
  assert (HA1 : dict_get keyA cache1 = Some (tA, gA)).
  { unfold cache1. now rewrite dict_get_set_ne. }
  rewrite dict_get_pops, HA1. rewrite decide_False; [reflexivity|].
  set (n := (length cache1 - max_loaded)%nat).
  intros Hin. unfold keys in Hin. apply list_elem_of_In, in_map_iff in Hin.
  destruct Hin as ([kv ev] & Ek & Hv). cbn in Ek. subst kv.
  assert (Hlen1 : (length cache1 <= S (length cache))%nat).
  { unfold cache1. clear. induction cache as [|[k' v'] r IH]; cbn; [lia|].
    destruct (decide (keyB = k')); cbn; lia. }
  assert (Hn : (n <= 1)%nat) by (unfold n; lia).
  assert (Hpos : (3 <= length cache1)%nat).
  { destruct n eqn:En; [rewrite take_0 in Hv; destruct Hv|]. unfold n in En. lia. }
  destruct (third_key cache1 keyA keyB Hwf1 Hpos) as (kC & eC & HC & HCA & HCB).
  assert (HtC : fst eC < tA).
  { apply (Hnew kC eC HCA).
    rewrite <- (dict_get_set_ne keyB kC (now, g) cache) by congruence.
    now apply wf_In_dict_get. }
  assert (Hev : ev = (tA, gA)).
  { apply In_take, (proj1 (sorted_by_In timestamp _ _)) in Hv.
    apply (wf_In_dict_get _ _ _ Hwf1) in Hv. congruence. }
  subst ev.
  assert (Hle : timestamp (keyA, (tA, gA)) <= timestamp (kC, eC)).
  { apply (proj2 (sorted_by_In timestamp _ _)) in HC.
    rewrite <- (take_drop n (sorted_by timestamp cache1)) in HC.
    apply in_app_iff in HC. destruct HC as [HC|HC].
    - exfalso. apply HCA.
      assert (Hl : (length (take n (sorted_by timestamp cache1)) <= 1)%nat)
        by (rewrite length_take; lia).
      destruct (take n (sorted_by timestamp cache1)) as [|x [|y l]];
        [destruct Hv | | cbn in Hl; lia].
      destruct Hv as [Hx|[]]. destruct HC as [HC|[]]. congruence.
    - apply (victims_oldest cache1 n); now apply list_elem_of_In. }
  unfold timestamp in Hle. cbn [fst snd] in Hle. lra.
Qed.

Lemma recent_entry_survives_compose fs now paths keyA tA gA keyB (cache : loaded_cache) :
  wf cache -> (length cache <= max_loaded)%nat -> (2 <= max_loaded)%nat ->
  dict_get keyA cache = Some (tA, gA) -> newest keyA tA cache -> keyB <> keyA ->
  dict_get keyA (snd (compose_and_cache str_to_float project_graph compose_all
                        max_loaded fs now paths keyB cache)) = Some (tA, gA).
Proof.
  intros Hwf Hlen Hcap HA Hnew Hne. unfold compose_and_cache.
  destruct (omap (fs_graphml fs) paths) as [|g0 rest]; [exact HA|]. cbv zeta.
  match goal with |- context [_evict_if_needed max_loaded (dict_set keyB (now, ?g) cache)] =>
    destruct (recent_entry_survives keyA tA gA keyB now g cache Hwf Hlen Hcap HA Hnew Hne)
      as (ev & E1 & E2);
    destruct (_evict_if_needed max_loaded (dict_set keyB (now, g) cache)) as [o c']
      eqn:Eev
  end.
  assert (F1 : fst (o, c') = Ok ev) by (rewrite <- Eev; exact E1).
  assert (F2 : dict_get keyA (snd (o, c')) = Some (tA, gA)) by (rewrite <- Eev; exact E2).
  cbn [fst snd] in F1, F2. subst o. exact F2.
Qed.

End LruFacts.

(** X24.  The graph cache keeps what was used last: with room for at least
    two graphs, the entry with the newest timestamp (the one loaded or hit
    last) is still in the cache, unchanged, after a load of any other set of
    region files, whether that load hits, reads the persisted graphs, builds
    new ones or finds none. *)
Theorem recently_used_graph_survives_load
    (str_to_float : string -> option Q)
    (project_graph : MultiDiGraph -> option MultiDiGraph)
    (compose_all : list MultiDiGraph -> MultiDiGraph)
    (max_loaded : nat)
    (fs : fs_view) (now : Q) (paths : list string) (persist : bool)
    (cache : loaded_cache) (keyA : string) (tA : Q) (gA : graphs) :
  wf cache -> (length cache <= max_loaded)%nat -> (2 <= max_loaded)%nat ->
  dict_get keyA cache = Some (tA, gA) ->
  newest keyA tA cache ->
  _cache_key_for_paths (sorted_strings paths) <> keyA ->
  dict_get keyA
    (snd (load_composed_subgraph_for_paths str_to_float project_graph compose_all
            max_loaded fs now paths persist cache))
  = Some (tA, gA).
Proof.
  intros Hwf Hlen Hcap HA Hnew Hne. unfold load_composed_subgraph_for_paths.
  set (keyB := _cache_key_for_paths (sorted_strings paths)) in *.
  assert (Hc : dict_get keyA
                 (snd (compose_and_cache str_to_float project_graph compose_all
                         max_loaded fs now (sorted_strings paths) keyB cache))
               = Some (tA, gA))
    by now apply recent_entry_survives_compose.
  destruct (dict_get keyB cache) as [[ts g]|].
  - cbn [snd]. now rewrite dict_get_set_ne.
  - destruct (fs_persisted fs keyB) as [[Gs Gu]|]; [|exact Hc].
    destruct (project_graph Gu) as [Gp|]; [|exact Hc].
    match goal with |- context [_evict_if_needed max_loaded (dict_set keyB (now, ?g) cache)] =>
      destruct (recent_entry_survives max_loaded keyA tA gA keyB now g cache
                  Hwf Hlen Hcap HA Hnew Hne) as (ev & E1 & E2);
      destruct (_evict_if_needed max_loaded (dict_set keyB (now, g) cache)) as [o c']
        eqn:Eev
    end.
    assert (F1 : fst (o, c') = Ok ev) by (rewrite <- Eev; exact E1).
    assert (F2 : dict_get keyA (snd (o, c')) = Some (tA, gA))
      by (rewrite <- Eev; exact E2).
    cbn [fst snd] in F1, F2. subst o. exact F2.
Qed.

Definition two_loaded : loaded_cache :=
  [("a", (10, empty_graphs)); ("b", (20, empty_graphs))].

Lemma recently_used_graph_survives_load_witness :
  wf two_loaded /\ (length two_loaded <= MAX_LOADED_COMPOSED)%nat /\
  (2 <= MAX_LOADED_COMPOSED)%nat /\
  dict_get "b" two_loaded = Some (20, empty_graphs) /\
  newest "b" 20 two_loaded /\
  _cache_key_for_paths (sorted_strings ["data/Accra.graphml"]) <> "b" /\
  dict_get "b"
    (snd (load_composed_subgraph_for_paths no_text_floats demo_project demo_compose
            MAX_LOADED_COMPOSED demo_fs 30 ["data/Accra.graphml"] true two_loaded))
  = Some (20, empty_graphs).
Proof.
  assert (Hwf : wf two_loaded).
  { unfold wf, two_loaded. cbn. repeat constructor; cbn; intuition discriminate. }
  assert (Hlen : (length two_loaded <= MAX_LOADED_COMPOSED)%nat)
    by (cbn; unfold MAX_LOADED_COMPOSED; lia).
  assert (Hcap : (2 <= MAX_LOADED_COMPOSED)%nat) by (unfold MAX_LOADED_COMPOSED; lia).
  assert (Hnew : newest "b" 20 two_loaded).
  { intros k e Hk H. unfold two_loaded in H. cbn [dict_get] in H.
    destruct (decide (k = "a")); [inversion H; reflexivity|].
    destruct (decide (k = "b")); [contradiction | discriminate]. }
  assert (Hne : _cache_key_for_paths (sorted_strings ["data/Accra.graphml"]) <> "b")
    by (vm_compute; discriminate).
  split; [exact Hwf|]. split; [exact Hlen|]. split; [exact Hcap|].
  split; [reflexivity|]. split; [exact Hnew|]. split; [exact Hne|].
  exact (recently_used_graph_survives_load no_text_floats demo_project demo_compose
           MAX_LOADED_COMPOSED demo_fs 30 ["data/Accra.graphml"] true two_loaded
           "b" 20 empty_graphs Hwf Hlen Hcap eq_refl Hnew Hne).
Defined.
